(** * CppConfigFramework: the configuration reader and its reference resolver

    A shallow embedding of [ConfigReaderImpl.cpp] (reader, include composer,
    multi-pass resolver), of the Object container declared in
    [ConfigNodeData.hpp], of the earlier reader of [ConfigReader.cpp] and of
    [ConfigReaderFactory.cpp], followed by the properties of the loader that
    the specification states. The class [ConfigNode] itself (paths, lookup,
    clone, merge) is not among the sources; these operations follow the
    specification and are marked as such. *)

From Stdlib Require Import ZArith Lia Ascii String.
From stdpp Require Import gmap strings list fin_maps pretty.

Set Warnings "-register-all".

Local Open Scope string_scope.
Local Open Scope list_scope.
Local Open Scope Z_scope.
Local Open Scope nat_scope.
Local Open Scope stdpp_scope.

(** ** Parsed JSON documents (Qt's [QJsonValue])

    [JUndefined] is what [QJsonObject::value] returns for a key that is not
    there; it is a type of its own, different from [JNull]. A JSON object is
    the list of its members in the order the Qt iterator yields them. The
    reader never looks into a number: it is kept as an integer, which is all
    the documents of the examples need. *)

Inductive QJsonValue : Type :=
| JNull
| JBool (b : bool)
| JDouble (d : Z)
| JString (s : string)
| JArray (items : list QJsonValue)
| JObject (members : list (string * QJsonValue))
| JUndefined.

Abbreviation QJsonObject := (list (string * QJsonValue)).

Module Json.

(** [QJsonObject::value(key)] *)
Fixpoint value (o : QJsonObject) (key : string) : QJsonValue :=
  match o with
  | [] => JUndefined
  | (k, v) :: o' => if String.eqb k key then v else value o' key
  end.

(** [QJsonObject::contains(key)] *)
Fixpoint contains (o : QJsonObject) (key : string) : bool :=
  match o with
  | [] => false
  | (k, _) :: o' => String.eqb k key || contains o' key
  end.

Definition isNull (v : QJsonValue) : bool :=
  match v with JNull => true | _ => false end.
Definition isUndefined (v : QJsonValue) : bool :=
  match v with JUndefined => true | _ => false end.
Definition isString (v : QJsonValue) : bool :=
  match v with JString _ => true | _ => false end.
Definition isArray (v : QJsonValue) : bool :=
  match v with JArray _ => true | _ => false end.
Definition isObject (v : QJsonValue) : bool :=
  match v with JObject _ => true | _ => false end.

(** setting a member of a document under construction: an existing key is
    overwritten where it stands, a new key is added *)
Fixpoint set (o : QJsonObject) (key : string) (v : QJsonValue) : QJsonObject :=
  match o with
  | [] => [(key, v)]
  | (k, w) :: o' => if String.eqb k key then (k, v) :: o' else (k, w) :: set o' key v
  end.

Fixpoint remove (o : QJsonObject) (key : string) : QJsonObject :=
  match o with
  | [] => []
  | (k, w) :: o' => if String.eqb k key then remove o' key else (k, w) :: remove o' key
  end.

End Json.

(** ** Configuration nodes

    [ConfigNodeData.hpp] keeps the members of an Object in
    [std::unordered_map<QString, ConfigNode, StringHashCalculator>]: a hash
    map with one entry per name, embedded as a [gmap]. The payload of a Value
    node is a [QVariant] made from the JSON value and never inspected. *)

Inductive ConfigNode : Type :=
| Null
| Value (v : QJsonValue)
| Array (elements : list ConfigNode)
| Object (members : gmap string ConfigNode)
| NodeReference (reference : string)
| DerivedArray (elements : list ConfigNode)
| DerivedObject (bases : list string) (config : ConfigNode).

Abbreviation ObjectNodeData := (gmap string ConfigNode).

Inductive NodeType : Type :=
| TNull | TValue | TArray | TObject | TNodeReference | TDerivedArray | TDerivedObject.

Definition type (n : ConfigNode) : NodeType :=
  match n with
  | Null => TNull
  | Value _ => TValue
  | Array _ => TArray
  | Object _ => TObject
  | NodeReference _ => TNodeReference
  | DerivedArray _ => TDerivedArray
  | DerivedObject _ _ => TDerivedObject
  end.

Definition isNull (n : ConfigNode) : bool :=
  match n with Null => true | _ => false end.
Definition isObject (n : ConfigNode) : bool :=
  match n with Object _ => true | _ => false end.

(** Modelled from the spec: [ConfigNode::clone] (ConfigNode.cpp is not part of
    the sources), "a deep copy whose root has no parent". Nodes are values
    here and the parent link lives in the ancestor stack below, so the copy
    is the node itself. *)
Definition clone (n : ConfigNode) : ConfigNode := n.

(** Modelled from the spec: [ConfigNode::containsMember], [member],
    [setMember] and [memberNames] (ConfigNode.cpp is not part of the
    sources), as the operations of the container that [ConfigNodeData.hpp]
    declares. [setMember] "overwrites the value" of an existing name "in
    place" and adds a new name: it is [m_object[name] = node]. The hash map
    keeps no record of the order of insertion, and the order of its iterator
    is not fixed by the sources; [memberNames] lists the keys of the gmap,
    by key, which is one of the orders that the iterator may have. The
    container with the order of its iterator left open is [Table] below. *)
Definition containsMember (n : ConfigNode) (name : string) : bool :=
  match n with
  | Object ms => bool_decide (is_Some (ms !! name))
  | _ => false
  end.

Definition member (n : ConfigNode) (name : string) : option ConfigNode :=
  match n with
  | Object ms => ms !! name
  | _ => None
  end.

Definition setMember (n : ConfigNode) (name : string) (c : ConfigNode) : ConfigNode :=
  match n with
  | Object ms => Object (<[name := c]> ms)
  | _ => n
  end.

Definition memberNames (n : ConfigNode) : list string :=
  match n with
  | Object ms => map_fold (λ k _ acc, acc ++ [k]) [] ms
  | _ => []
  end.

Definition appendElement (n : ConfigNode) (c : ConfigNode) : ConfigNode :=
  match n with
  | Array es => Array (es ++ [c])
  | _ => n
  end.

(** ** Node paths

    Modelled from the spec: the static path helpers of [ConfigNode]
    ([isAbsoluteNodePath], [validateNodeName], [validateNodePath] with one
    and with two arguments, [appendNodeToPath]); ConfigNode.cpp is not part
    of the sources. A name matches [[A-Za-z_][A-Za-z0-9_]*]; a path is valid
    when every segment is a name, the root [/] is valid and the empty path is
    not; a relative reference is joined onto the current path, its [..]
    segments climbing toward the root and never above it. *)

Module NodePath.

Definition isLetter (c : ascii) : bool :=
  let n := nat_of_ascii c in
  ((65 <=? n) && (n <=? 90)) || ((97 <=? n) && (n <=? 122)).

Definition isDigit (c : ascii) : bool :=
  let n := nat_of_ascii c in (48 <=? n) && (n <=? 57).

Definition isUnderscore (c : ascii) : bool := Ascii.eqb c "_"%char.

Fixpoint allNameChars (s : string) : bool :=
  match s with
  | EmptyString => true
  | String c s' => (isLetter c || isDigit c || isUnderscore c) && allNameChars s'
  end.

Definition validateNodeName (s : string) : bool :=
  match s with
  | EmptyString => false
  | String c s' => (isLetter c || isUnderscore c) && allNameChars s'
  end.

Definition isAbsoluteNodePath (p : string) : bool :=
  match p with
  | String c _ => Ascii.eqb c "/"%char
  | EmptyString => false
  end.

(** [QString::mid(1)] *)
Definition mid1 (s : string) : string :=
  match s with
  | String _ s' => s'
  | EmptyString => EmptyString
  end.

(** [QString::split(QChar('/'))]: the empty string splits into one empty
    segment *)
Fixpoint splitFrom (cur : string) (s : string) : list string :=
  match s with
  | EmptyString => [cur]
  | String c s' =>
      if Ascii.eqb c "/"%char then cur :: splitFrom EmptyString s'
      else splitFrom (cur +:+ String c EmptyString) s'
  end.

Definition split (s : string) : list string := splitFrom EmptyString s.

(** the segments of a path below its starting point: none for the root *)
Definition segments (p : string) : list string :=
  let rest := if isAbsoluteNodePath p then mid1 p else p in
  match rest with
  | EmptyString => []
  | _ => split rest
  end.

Definition validateNodePath (p : string) : bool :=
  match p with
  | EmptyString => false
  | _ => forallb validateNodeName (segments p)
  end.

(** joining a relative reference onto the segments of the current path *)
Fixpoint climb (stack : list string) (segs : list string) : option (list string) :=
  match segs with
  | [] => Some stack
  | s :: segs' =>
      if String.eqb s ".." then
        match stack with
        | [] => None
        | _ :: stack' => climb stack' segs'
        end
      else if validateNodeName s then climb (s :: stack) segs'
      else None
  end.

(** [validateNodePath(nodePath, currentNodePath)] *)
Definition validateNodePathAt (ref current : string) : bool :=
  if isAbsoluteNodePath ref then validateNodePath ref
  else
    match ref with
    | EmptyString => false
    | _ =>
        forallb validateNodeName (segments current) &&
        bool_decide (is_Some (climb (reverse (segments current)) (segments ref)))
    end.

Definition appendNodeToPath (p name : string) : string :=
  if String.eqb p "/" then p +:+ name else p +:+ "/" +:+ name.

End NodePath.

(** ** Parent links

    In the source every node has a raw back-pointer to its parent and paths
    are looked up by walking to the root and down again. Here a node comes
    with the stack of its ancestors, nearest first: each frame holds the
    ancestor as it currently is and the slot in which the node below sits.
    The root has the empty stack. A [Detached] node has the frame's node as
    its parent without being one of its children (the copy of a derived
    object's override while it is resolved). *)

Inductive Slot : Type :=
| InMember (name : string)
| InElement (index : nat)
| InDerivedElement (index : nat)
| Detached.

Record Frame : Type := MkFrame { frameNode : ConfigNode; frameSlot : Slot }.

(** the ancestor of a frame, seen with [child] in its current state *)
Definition plug (child : ConfigNode) (f : Frame) : ConfigNode :=
  match frameSlot f, frameNode f with
  | InMember name, Object ms => Object (<[name := child]> ms)
  | InElement i, Array es => Array (<[i := child]> es)
  | InDerivedElement i, DerivedArray es => DerivedArray (<[i := child]> es)
  | _, p => p
  end.

Definition isRoot (ctx : list Frame) : bool :=
  match ctx with [] => true | _ => false end.

Fixpoint rootNode (n : ConfigNode) (ctx : list Frame) : ConfigNode :=
  match ctx with
  | [] => n
  | f :: ctx' => rootNode (plug n f) ctx'
  end.

(** Modelled from the spec: [ConfigNode::nodeAtPath] (ConfigNode.cpp is not
    part of the sources). "Absolute paths start walking from the root (walk
    parents first). Relative paths consume segments against the current
    subtree; the segment [..] ascends to the parent. Lookup returns nothing
    if any segment misses." *)
Fixpoint walk (segs : list string) (n : ConfigNode) (ctx : list Frame)
  : option ConfigNode :=
  match segs with
  | [] => Some n
  | s :: segs' =>
      if String.eqb s ".." then
        match ctx with
        | [] => None
        | f :: ctx' => walk segs' (plug n f) ctx'
        end
      else
        match n with
        | Object ms =>
            match ms !! s with
            | Some c => walk segs' c (MkFrame n (InMember s) :: ctx)
            | None => None
            end
        | _ => None
        end
  end.

Definition nodeAtPath (n : ConfigNode) (ctx : list Frame) (path : string)
  : option ConfigNode :=
  match path with
  | EmptyString => None
  | _ =>
      if NodePath.isAbsoluteNodePath path
      then walk (NodePath.segments path) (rootNode n ctx) []
      else walk (NodePath.segments path) n ctx
  end.

(** ** [ConfigReader::Impl::isFullyResolved] *)

Fixpoint isFullyResolved (node : ConfigNode) : bool :=
  match node with
  | Null | Value _ => true
  | Array es => forallb isFullyResolved es
  | Object ms => map_fold (λ _ c acc, acc && isFullyResolved c) true ms
  | NodeReference _ | DerivedArray _ | DerivedObject _ _ => false
  end.

(** ** The merge engine

    Modelled from the spec: [ConfigNode::applyObject] (ConfigNode.cpp is not
    part of the sources). Both sides must be Objects, else the call fails.
    For each member [k] of [src]: absent in [dst], a clone of [src[k]] is
    inserted; present with both sides Objects, the merge recurses; otherwise
    [dst[k]] is replaced by a clone of [src[k]]. *)

Fixpoint applyObject (dst src : ConfigNode) {struct src} : option ConfigNode :=
  match dst, src with
  | Object d, Object s =>
      Some (Object (map_fold (λ k c acc,
        match acc !! k with
        | None => <[k := clone c]> acc
        | Some old =>
            match old, c with
            | Object _, Object _ =>
                match applyObject old c with
                | Some merged => <[k := merged]> acc
                | None => acc
                end
            | _, _ => <[k := clone c]> acc
            end
        end) d s))
  | _, _ => None
  end.

(** ** The resolver: one pass

    A pass returns its outcome together with the node as the pass left it:
    the source rewrites nodes in place and the caller's container sees the
    new value in the same slot, under the same parent. *)

Inductive ReferenceResolutionResult : Type :=
| Resolved
| Unresolved
| Error.

(** [ConfigReader::Impl::resolveNodeReference] *)
Definition resolveNodeReference (ctx : list Frame) (reference : string)
  : ReferenceResolutionResult * ConfigNode :=
  let node := NodeReference reference in
  match ctx with
  | [] => (Error, node)
  | f :: ctx' =>
      match nodeAtPath (plug node f) ctx' reference with
      | None => (Unresolved, node)
      | Some referencedNode =>
          let node' := clone referencedNode in
          (if isFullyResolved node' then Resolved else Unresolved, node')
      end
  end.

Section Pass.

(** the recursive call [resolveReferences(child)] *)
Variable resolve : list Frame → ConfigNode → ReferenceResolutionResult * ConfigNode.

(** The loop over the elements of an Array or of a DerivedArray: [todo] are
    the elements still to visit, [i] the index of the first of them, [cur]
    the container's elements as they are now. *)
Fixpoint resolveElements (frame : list ConfigNode → nat → Frame)
    (ctx : list Frame) (todo : list ConfigNode) (i : nat)
    (result : ReferenceResolutionResult) (cur : list ConfigNode)
  : ReferenceResolutionResult * list ConfigNode :=
  match todo with
  | [] => (result, cur)
  | e :: todo' =>
      match resolve (frame cur i :: ctx) e with
      | (Resolved, e') =>
          resolveElements frame ctx todo' (S i) result (<[i := e']> cur)
      | (Unresolved, e') =>
          resolveElements frame ctx todo' (S i) Unresolved (<[i := e']> cur)
      | (Error, e') => (Error, <[i := e']> cur)
      end
  end.

(** [ConfigReader::Impl::resolveArrayReferences] *)
Definition resolveArrayReferences (ctx : list Frame) (es : list ConfigNode)
  : ReferenceResolutionResult * ConfigNode :=
  let '(result, cur) :=
    resolveElements (λ cur i, MkFrame (Array cur) (InElement i)) ctx es 0 Resolved es in
  (result, Array cur).

(** the body of the loop of [resolveObjectReferences] for one member name;
    once an element failed the function has returned and nothing more is
    visited *)
Definition resolveMember (ctx : list Frame) (name : string) (child : ConfigNode)
    (st : ReferenceResolutionResult * ObjectNodeData)
  : ReferenceResolutionResult * ObjectNodeData :=
  match st with
  | (Error, _) => st
  | (result, cur) =>
      match resolve (MkFrame (Object cur) (InMember name) :: ctx) child with
      | (Resolved, child') => (result, <[name := child']> cur)
      | (Unresolved, child') => (Unresolved, <[name := child']> cur)
      | (Error, child') => (Error, <[name := child']> cur)
      end
  end.

(** [ConfigReader::Impl::resolveObjectReferences]: the members are visited
    in the order of [memberNames], here the order of the gmap's keys; the
    loop over the names in any other order is [resolveObjectReferencesIn]
    below *)
Definition resolveObjectReferences (ctx : list Frame) (ms : ObjectNodeData)
  : ReferenceResolutionResult * ConfigNode :=
  let '(result, cur) := map_fold (resolveMember ctx) (Resolved, ms) ms in
  (result, Object cur).

(** [ConfigReader::Impl::resolveDerivedArrayReferences] *)
Definition resolveDerivedArrayReferences (ctx : list Frame) (es : list ConfigNode)
  : ReferenceResolutionResult * ConfigNode :=
  match ctx with
  | [] => (Error, DerivedArray es)
  | _ :: _ =>
      match resolveElements (λ cur i, MkFrame (DerivedArray cur) (InDerivedElement i))
              ctx es 0 Resolved es with
      | (Resolved, cur) =>
          (Resolved, foldl (λ a e, appendElement a (clone e)) (Array []) cur)
      | (result, cur) => (result, DerivedArray cur)
      end
  end.

(** the loop over the bases of a derived object: [inl] is an early return *)
Fixpoint applyBases (parentNode : ConfigNode) (ctx' : list Frame)
    (bases : list string) (derived : ConfigNode)
  : ReferenceResolutionResult + ConfigNode :=
  match bases with
  | [] => inr derived
  | base :: bases' =>
      match nodeAtPath parentNode ctx' base with
      | None => inl Unresolved
      | Some baseNode =>
          if negb (isFullyResolved baseNode) then inl Unresolved
          else
            match applyObject derived baseNode with
            | None => inl Error
            | Some derived' => applyBases parentNode ctx' bases' derived'
            end
      end
  end.

(** the end of [resolveDerivedObjectReferences], once the override
    [config] is fully resolved *)
Definition applyOverride (bases : list string) (config derived : ConfigNode)
  : ReferenceResolutionResult * ConfigNode :=
  if negb (isNull config) then
    match applyObject derived config with
    | None => (Error, DerivedObject bases config)
    | Some derived' => (Resolved, derived')
    end
  else (Resolved, derived).

(** [ConfigReader::Impl::resolveDerivedObjectReferences] *)
Definition resolveDerivedObjectReferences (ctx : list Frame)
    (bases : list string) (config : ConfigNode)
  : ReferenceResolutionResult * ConfigNode :=
  let node := DerivedObject bases config in
  match ctx with
  | [] => (Error, node)
  | f :: ctx' =>
      let parentNode := plug node f in
      match applyBases parentNode ctx' bases (Object ∅) with
      | inl result => (result, node)
      | inr derived =>
          if negb (isFullyResolved config) then
            match resolve (MkFrame parentNode Detached :: ctx') (clone config) with
            | (Resolved, configOverride) => applyOverride bases configOverride derived
            | (Unresolved, configOverride) =>
                (Unresolved, DerivedObject bases configOverride)
            | (Error, _) => (Error, node)
            end
          else applyOverride bases config derived
      end
  end.

End Pass.

(** [ConfigReader::Impl::resolveReferences] *)
Fixpoint resolveReferences (ctx : list Frame) (node : ConfigNode) {struct node}
  : ReferenceResolutionResult * ConfigNode :=
  match node with
  | Null | Value _ => (Resolved, node)
  | Array es => resolveArrayReferences resolveReferences ctx es
  | Object ms => resolveObjectReferences resolveReferences ctx ms
  | NodeReference reference => resolveNodeReference ctx reference
  | DerivedArray es => resolveDerivedArrayReferences resolveReferences ctx es
  | DerivedObject bases config =>
      resolveDerivedObjectReferences resolveReferences ctx bases config
  end.

(** ** The JSON reader *)

(** [ConfigReader::Impl::hasDecorator]: the regular expression [^[&#]] *)
Definition hasDecorator (memberName : string) : bool :=
  match memberName with
  | String c _ => Ascii.eqb c "&"%char || Ascii.eqb c "#"%char
  | EmptyString => false
  end.

(** the decorator and the name that is left: [QChar('\0')] when there is none *)
Definition splitDecorator (key : string) : ascii * string :=
  if hasDecorator key then
    match key with
    | String c rest => (c, rest)
    | EmptyString => (zero, key)
    end
  else (zero, key).

(** [ConfigReader::Impl::readReferenceNode] *)
Definition readReferenceNode (nodeReference currentNodePath : string)
  : option ConfigNode :=
  if negb (NodePath.validateNodePathAt nodeReference currentNodePath) then None
  else Some (NodeReference nodeReference).

(** the [base] member of a derived object: one string, or a non-empty array
    of strings *)
Fixpoint readBaseItems (items : list QJsonValue) : option (list string) :=
  match items with
  | [] => Some []
  | JString s :: items' =>
      match readBaseItems items' with
      | Some bases => Some (s :: bases)
      | None => None
      end
  | _ :: _ => None
  end.

Definition readBases (baseValue : QJsonValue) : option (list string) :=
  match baseValue with
  | JString s => Some [s]
  | JArray items =>
      match readBaseItems items with
      | Some [] => None
      | r => r
      end
  | _ => None
  end.

Section WithValue.
Context {A : Type} (key : string) (present : QJsonValue → A) (missing : A).

(** [if (o.contains(key)) present(o.value(key)) else missing] *)
Fixpoint withValue (o : QJsonObject) : A :=
  match o with
  | [] => missing
  | (k, v) :: o' => if String.eqb k key then present v else withValue o'
  end.
End WithValue.

(** [QString::number(i)] *)
Definition number (i : nat) : string := pretty i.

(** The loops of [readJsonArray], [readJsonObject], [readDerivedArrayNode]
    and the body of [readDerivedObjectNode], over the two recursive entry
    points: [readValue] is [readJsonValue] and [readReference] reads the value
    of a member decorated with [&]. The loops take the node under
    construction as an argument; [None] is the null pointer the source
    returns on an error. *)
Section ReaderLoops.

Variable readValue : QJsonValue → string → option ConfigNode.
Variable readReference : QJsonValue → string → option ConfigNode.

(** [switch (decorator.toLatin1())] *)
Definition readDecorated (decorator : ascii) (v : QJsonValue) (path : string)
  : option ConfigNode :=
  if Ascii.eqb decorator "#"%char then Some (Value v)
  else if Ascii.eqb decorator "&"%char then readReference v path
  else readValue v path.

Fixpoint readJsonArrayFrom (items : list QJsonValue) (currentNodePath : string)
    (i : nat) (arrayNode : ConfigNode) : option ConfigNode :=
  match items with
  | [] => Some arrayNode
  | item :: items' =>
      match readValue item (NodePath.appendNodeToPath currentNodePath (number i)) with
      | None => None
      | Some elementNode =>
          readJsonArrayFrom items' currentNodePath (S i)
            (appendElement arrayNode elementNode)
      end
  end.

Fixpoint readJsonObjectFrom (members : list (string * QJsonValue))
    (currentNodePath : string) (objectNode : ConfigNode) : option ConfigNode :=
  match members with
  | [] => Some objectNode
  | (key, v) :: members' =>
      let '(decorator, memberName) := splitDecorator key in
      if negb (NodePath.validateNodeName memberName) then None
      else if containsMember objectNode memberName then None
      else
        let memberNodePath := NodePath.appendNodeToPath currentNodePath memberName in
        match readDecorated decorator v memberNodePath with
        | None => None
        | Some memberNode =>
            readJsonObjectFrom members' currentNodePath
              (setMember objectNode memberName memberNode)
        end
  end.

Fixpoint readDerivedArrayNodeFrom (items : list QJsonValue)
    (currentNodePath : string) (elements : list ConfigNode) : option ConfigNode :=
  match items with
  | [] => Some (DerivedArray elements)
  | JObject [(key, elementValue)] :: items' =>
      let '(decorator, elementName) := splitDecorator key in
      if negb (String.eqb elementName "element") then None
      else
        match readDecorated decorator elementValue currentNodePath with
        | None => None
        | Some elementNode =>
            readDerivedArrayNodeFrom items' currentNodePath (elements ++ [elementNode])
        end
  | _ :: _ => None
  end.

Definition readDerivedObjectNodeWith (jsonObject : QJsonObject)
    (currentNodePath : string) : option ConfigNode :=
  if negb (Json.contains jsonObject "base") then None
  else
    match readBases (Json.value jsonObject "base") with
    | None => None
    | Some bases =>
        let config :=
          withValue "config"
            (λ configValue,
               match configValue with
               | JObject o => readJsonObjectFrom o currentNodePath (Object ∅)
               | JNull => Some Null
               | _ => None
               end)
            (Some Null) jsonObject in
        match config with
        | None => None
        | Some c => Some (DerivedObject bases c)
        end
    end.

End ReaderLoops.

(** [ConfigReader::Impl::readJsonValue], and the branch of [readJsonObject]
    and [readDerivedArrayNode] that reads "one of the reference types" *)
Fixpoint readJsonValue (jsonValue : QJsonValue) (currentNodePath : string)
    {struct jsonValue} : option ConfigNode :=
  match jsonValue with
  | JNull => Some Null
  | JBool _ | JDouble _ | JString _ => Some (Value jsonValue)
  | JArray items =>
      readJsonArrayFrom readJsonValue items currentNodePath 0 (Array [])
  | JObject members =>
      readJsonObjectFrom readJsonValue readReferenceType members currentNodePath (Object ∅)
  | JUndefined => None
  end

with readReferenceType (v : QJsonValue) (path : string) {struct v}
  : option ConfigNode :=
  match v with
  | JString s => readReferenceNode s path
  | JArray items =>
      readDerivedArrayNodeFrom readJsonValue readReferenceType items path []
  | JObject o =>
      readDerivedObjectNodeWith readJsonValue readReferenceType o path
  | _ => None
  end.

(** [ConfigReader::Impl::readJsonArray] *)
Definition readJsonArray (jsonArray : list QJsonValue) (currentNodePath : string)
  : option ConfigNode :=
  readJsonArrayFrom readJsonValue jsonArray currentNodePath 0 (Array []).

(** [ConfigReader::Impl::readJsonObject] *)
Definition readJsonObject (jsonObject : QJsonObject) (currentNodePath : string)
  : option ConfigNode :=
  readJsonObjectFrom readJsonValue readReferenceType jsonObject currentNodePath (Object ∅).

(** [ConfigReader::Impl::readDerivedArrayNode] *)
Definition readDerivedArrayNode (jsonArray : list QJsonValue) (currentNodePath : string)
  : option ConfigNode :=
  readDerivedArrayNodeFrom readJsonValue readReferenceType jsonArray currentNodePath [].

(** [ConfigReader::Impl::readDerivedObjectNode] *)
Definition readDerivedObjectNode (jsonObject : QJsonObject) (currentNodePath : string)
  : option ConfigNode :=
  readDerivedObjectNodeWith readJsonValue readReferenceType jsonObject currentNodePath.

(** ** Results of the reader

    The functions of [ConfigReader::Impl] return a null pointer on an error,
    after writing a message with [qDebug]. [Fail e] is that null pointer,
    with [e] standing for the first message written while the file itself is
    read; a failure inside an included file is [IncludeReadFailed] for the
    file that includes it. *)

Inductive ReadError : Type :=
| InvalidSourceNode           (* invalid source node path *)
| InvalidDestinationNode      (* invalid destination node path *)
| FileNotFound                (* file at path was not found *)
| FileOpenFailed              (* failed to open file at path *)
| ParseFailed                 (* failed to parse the file contents *)
| DocumentNotObject           (* failed to read includes *)
| IncludesNotArray            (* the 'includes' member ... is not a JSON array *)
| IncludeNotObject (i : nat)  (* include at index [i] is not a JSON Object *)
| IncludeTypeNotString (i : nat)      (* 'type' member is not a string *)
| IncludeUnsupportedType (t : string) (i : nat)  (* unsupported type [t] *)
| IncludeFilePathMissing (i : nat)    (* 'file_path' member is missing *)
| IncludeFilePathNotString (i : nat)  (* 'file_path' member must be a string *)
| IncludeSourceNodeNotString (i : nat)
| IncludeDestinationNodeNotString (i : nat)
| IncludeReadFailed (i : nat)   (* failed to read config for include *)
| IncludeApplyFailed (i : nat)  (* failed to apply config for include *)
| ConfigNotObject             (* the 'config' member ... is not a JSON Object *)
| ConfigReadFailed            (* failed to read the 'config' member *)
| ConfigApplyFailed           (* failed to apply the 'config' member *)
| ResolveFailed               (* failed to resolve references *)
| ResolveIncomplete           (* failed to fully resolve references *)
| TransformFailed.            (* transformConfig returned null *)

Inductive Res (A : Type) : Type :=
| Done (a : A)
| Fail (e : ReadError).
Arguments Done {A} a.
Arguments Fail {A} e.

#[global] Instance Res_ret : MRet Res := λ A a, Done a.
#[global] Instance Res_bind : MBind Res := λ A B f m,
  match m with
  | Done a => f a
  | Fail e => Fail e
  end.

(** a null [std::unique_ptr] *)
Definition isNullResult {A} (r : Res A) : bool :=
  match r with Fail _ => true | _ => false end.

(** [if (!ptr) return {}], with the message of this place *)
Definition orFail {A} (e : ReadError) (o : option A) : Res A :=
  match o with
  | Some a => Done a
  | None => Fail e
  end.

(** ** [ConfigReader::Impl]: the cycle limit *)

Record Impl : Type := MkImpl { m_referenceResolutionMaxCycles : Z }.

(** [ConfigReader::Impl::Impl] *)
Definition Impl_new : Impl := MkImpl 100.

Definition referenceResolutionMaxCycles (this : Impl) : Z :=
  m_referenceResolutionMaxCycles this.

(** [ConfigReader::Impl::setReferenceResolutionMaxCycles]: the argument is a
    [uint32_t]; [Q_ASSERT_X(referenceResolutionMaxCycles > 0, ...)] is the
    precondition, and a call that breaks it has no result here *)
Definition setReferenceResolutionMaxCycles (this : Impl) (referenceResolutionMaxCycles : Z)
  : option Impl :=
  let v := (referenceResolutionMaxCycles mod 2 ^ 32)%Z in
  if (0 <? v)%Z then Some (MkImpl v) else None.

(** ** [ConfigReader::Impl::transformConfig] *)

(** the loop over the names of the destination path: an Object per name,
    the source node under the last one *)
Fixpoint nestUnder (nodeNames : list string) (sourceConfig : ConfigNode)
  : option ConfigNode :=
  match nodeNames with
  | [] => Some (Object ∅)
  | nodeName :: rest =>
      if negb (NodePath.validateNodeName nodeName) then None
      else
        match rest with
        | [] => Some (setMember (Object ∅) nodeName sourceConfig)
        | _ :: _ =>
            match nestUnder rest sourceConfig with
            | Some inner => Some (setMember (Object ∅) nodeName inner)
            | None => None
            end
        end
  end.

Definition transformConfig (config : ConfigNode) (sourceNode destinationNode : string)
  : option ConfigNode :=
  if String.eqb sourceNode "/" && String.eqb destinationNode "/" then Some config
  else
    let sourceConfig :=
      if String.eqb sourceNode "/" then Some config
      else clone <$> nodeAtPath config [] sourceNode in
    match sourceConfig with
    | None => None
    | Some sourceConfig =>
        if String.eqb destinationNode "/" then Some sourceConfig
        else nestUnder (NodePath.split (NodePath.mid1 destinationNode)) sourceConfig
    end.

(** ** The resolution loop of [ConfigReader::Impl::read]

    [for (i = 0; (i < max) && (result == Unresolved); i++)]: [cycles] is
    [max - i], the number of iterations that are left. The third component
    counts the calls of [resolveReferences] on the root. *)
Fixpoint resolveCycles (cycles : nat) (completeConfig : ConfigNode)
  : ReferenceResolutionResult * ConfigNode * nat :=
  match cycles with
  | 0 => (Unresolved, completeConfig, 0)
  | S cycles' =>
      match resolveReferences [] completeConfig with
      | (Resolved, config') => (Resolved, config', 1)
      | (Unresolved, config') =>
          let '(result, config'', passes) := resolveCycles cycles' config' in
          (result, config'', S passes)
      | (Error, config') => (Error, config', 1)
      end
  end.

(** the end of [read], from the merged configuration on *)
Definition resolveAndTransform (this : Impl) (completeConfig : ConfigNode)
    (sourceNode destinationNode : string) : Res ConfigNode :=
  match resolveCycles (Z.to_nat (m_referenceResolutionMaxCycles this)) completeConfig with
  | (Resolved, config, _) =>
      orFail TransformFailed (transformConfig config sourceNode destinationNode)
  | (Unresolved, _, _) => Fail ResolveIncomplete
  | (Error, _, _) => Fail ResolveFailed
  end.

(** ** [ConfigReader::Impl::readConfigMember] *)
Definition readConfigMember (rootObject : QJsonObject) : Res ConfigNode :=
  let configValue := Json.value rootObject "config" in
  if Json.isNull configValue then Done Null
  else
    match configValue with
    | JObject o => orFail ConfigReadFailed (readJsonObject o "/")
    | _ => Fail ConfigNotObject
    end.

(** ** Files *)

Inductive FileState : Type :=
| FileMissing                       (* [!QFile::exists(path)] *)
| FileUnreadable                    (* [!file.open(QIODevice::ReadOnly)] *)
| FileUnparsable                    (* [error.error != QJsonParseError::NoError] *)
| FileDocument (doc : QJsonValue).  (* the parsed document *)

Section Read.

Variable this : Impl.

(** Qt's file system: the cleaned absolute path of [filePath] seen from
    [workingDir], the directory of a file, and the state of each file *)
Variable absoluteFilePath : string → string → string.
Variable absoluteDir : string → string.
Variable files : string → FileState.

Section Includes.

(** the recursive call [read(filePath, workingDir, sourceNode, destinationNode)] *)
Variable read : string → string → string → string → Res ConfigNode.

(** "Extract configuration file type" *)
Definition includeType (includeObject : QJsonObject) (i : nat) : Res string :=
  if Json.contains includeObject "type" then
    let value := Json.value includeObject "type" in
    if Json.isNull value then Done "CppConfigFramework"
    else
      match value with
      | JString s => Done s
      | _ => Fail (IncludeTypeNotString i)
      end
  else Done "CppConfigFramework".

(** "Extract source node", "Extract destination node" *)
Definition includeNodePath (includeObject : QJsonObject) (key : string)
    (e : ReadError) : Res string :=
  if Json.contains includeObject key then
    match Json.value includeObject key with
    | JString s => Done s
    | _ => Fail e
    end
  else Done "/".

(** the body of the loop of [readIncludesMember] from "Extract file path"
    on *)
Definition readIncludeFile (workingDir : string) (i : nat) (includeObject : QJsonObject)
    (includesConfig : ConfigNode) : Res ConfigNode :=
  if negb (Json.contains includeObject "file_path")
  then Fail (IncludeFilePathMissing i)
  else
    match Json.value includeObject "file_path" with
    | JString filePath =>
        sourceNode ←
          includeNodePath includeObject "source_node" (IncludeSourceNodeNotString i);
        destinationNode ←
          includeNodePath includeObject "destination_node"
            (IncludeDestinationNodeNotString i);
        config ←
          match read filePath workingDir sourceNode destinationNode with
          | Done config => Done config
          | Fail _ => Fail (IncludeReadFailed i)
          end;
        orFail (IncludeApplyFailed i) (applyObject includesConfig config)
    | _ => Fail (IncludeFilePathNotString i)
    end.

(** the body of the loop of [readIncludesMember] *)
Definition readInclude (workingDir : string) (i : nat) (includeValue : QJsonValue)
    (includesConfig : ConfigNode) : Res ConfigNode :=
  match includeValue with
  | JObject includeObject =>
      type ← includeType includeObject i;
      if negb (String.eqb type "CppConfigFramework")
      then Fail (IncludeUnsupportedType type i)
      else readIncludeFile workingDir i includeObject includesConfig
  | _ => Fail (IncludeNotObject i)
  end.

Fixpoint readIncludesFrom (workingDir : string) (includesArray : list QJsonValue)
    (i : nat) (includesConfig : ConfigNode) : Res ConfigNode :=
  match includesArray with
  | [] => Done includesConfig
  | includeValue :: rest =>
      includesConfig' ← readInclude workingDir i includeValue includesConfig;
      readIncludesFrom workingDir rest (S i) includesConfig'
  end.

(** [ConfigReader::Impl::readIncludesMember] *)
Definition readIncludesMember (rootObject : QJsonObject) (workingDir : string)
  : Res ConfigNode :=
  let includesValue := Json.value rootObject "includes" in
  if Json.isNull includesValue || Json.isUndefined includesValue then Done (Object ∅)
  else
    match includesValue with
    | JArray includesArray => readIncludesFrom workingDir includesArray 0 (Object ∅)
    | _ => Fail IncludesNotArray
    end.

End Includes.

(** [ConfigReader::Impl::read]. The [QFile] that a [read] opens stays open
    until the [read] returns, the reads of its includes nested inside it;
    [handles] is the number of files that the process can still open. When
    none is left [file.open(QIODevice::ReadOnly)] fails, which is what ends
    a chain of includes that loops. *)
Fixpoint read (handles : nat) (filePath workingDir sourceNode destinationNode : string)
  : Res ConfigNode :=
  if negb (NodePath.isAbsoluteNodePath sourceNode)
     || negb (NodePath.validateNodePath sourceNode)
  then Fail InvalidSourceNode
  else if negb (NodePath.isAbsoluteNodePath destinationNode)
          || negb (NodePath.validateNodePath destinationNode)
  then Fail InvalidDestinationNode
  else
    let path := absoluteFilePath workingDir filePath in
    match files path, handles with
    | FileMissing, _ => Fail FileNotFound
    | _, 0 => Fail FileOpenFailed
    | FileUnreadable, S _ => Fail FileOpenFailed
    | FileUnparsable, S _ => Fail ParseFailed
    | FileDocument (JObject rootObject), S handles' =>
        completeConfig ← readIncludesMember (read handles') rootObject (absoluteDir path);
        configMember ← readConfigMember rootObject;
        merged ← orFail ConfigApplyFailed (applyObject completeConfig configMember);
        resolveAndTransform this merged sourceNode destinationNode
    | FileDocument _, S _ => Fail DocumentNotObject
    end.

End Read.

(** ** The reader of [ConfigReader.cpp]

    [ConfigReader.cpp] holds an earlier [ConfigReader::Impl] of its own: the
    loop over the includes checks the entries and reads no file ("TODO:
    implement"), member names have no decorators, nothing is resolved, and
    the result is [config->apply] of the include aggregate. [ConfigNode::apply] is
    not part of the sources and is a parameter here; [None] is its [false]. *)

Module Draft.

Section Reader.

Variable readValue : QJsonValue → string → option ConfigNode.

Fixpoint readJsonArrayFrom (items : list QJsonValue) (currentNodePath : string)
    (i : nat) (arrayNode : ConfigNode) : option ConfigNode :=
  match items with
  | [] => Some arrayNode
  | item :: items' =>
      match readValue item (NodePath.appendNodeToPath currentNodePath (number i)) with
      | None => None
      | Some elementNode =>
          readJsonArrayFrom items' currentNodePath (S i)
            (appendElement arrayNode elementNode)
      end
  end.

Fixpoint readJsonObjectFrom (members : list (string * QJsonValue))
    (currentNodePath : string) (objectNode : ConfigNode) : option ConfigNode :=
  match members with
  | [] => Some objectNode
  | (memberName, v) :: members' =>
      if negb (NodePath.validateNodeName memberName) then None
      else
        match readValue v (NodePath.appendNodeToPath currentNodePath memberName) with
        | None => None
        | Some memberNode =>
            readJsonObjectFrom members' currentNodePath
              (setMember objectNode memberName memberNode)
        end
  end.

End Reader.

Fixpoint readJsonValue (jsonValue : QJsonValue) (currentNodePath : string)
    {struct jsonValue} : option ConfigNode :=
  match jsonValue with
  | JNull => Some Null
  | JBool _ | JDouble _ | JString _ => Some (Value jsonValue)
  | JArray items => readJsonArrayFrom readJsonValue items currentNodePath 0 (Array [])
  | JObject members =>
      readJsonObjectFrom readJsonValue members currentNodePath (Object ∅)
  | JUndefined => None
  end.

Definition readJsonObject (jsonObject : QJsonObject) (currentNodePath : string)
  : option ConfigNode :=
  readJsonObjectFrom readJsonValue jsonObject currentNodePath (Object ∅).

Definition readConfigMember (rootObject : QJsonObject) : Res ConfigNode :=
  let configValue := Json.value rootObject "config" in
  if Json.isNull configValue then Done Null
  else
    match configValue with
    | JObject o => orFail ConfigReadFailed (readJsonObject o "/")
    | _ => Fail ConfigNotObject
    end.

(** the loop over the includes: every entry must be a JSON object *)
Fixpoint checkIncludesFrom (includesArray : list QJsonValue) (i : nat)
    (includesConfig : ConfigNode) : Res ConfigNode :=
  match includesArray with
  | [] => Done includesConfig
  | includeValue :: rest =>
      if negb (Json.isObject includeValue) then Fail (IncludeNotObject i)
      else checkIncludesFrom rest (S i) includesConfig
  end.

Definition readIncludesMember (rootObject : QJsonObject) : Res ConfigNode :=
  let includesValue := Json.value rootObject "includes" in
  if Json.isNull includesValue then Done Null
  else
    match includesValue with
    | JArray includesArray => checkIncludesFrom includesArray 0 (Object ∅)
    | _ => Fail IncludesNotArray
    end.

Section Read.

Variable apply : ConfigNode → ConfigNode → option ConfigNode.
Variable files : string → FileState.

Definition read (filePath sourceNode destinationNode : string) : Res ConfigNode :=
  if negb (NodePath.isAbsoluteNodePath sourceNode)
     || negb (NodePath.validateNodePath sourceNode)
  then Fail InvalidSourceNode
  else if negb (NodePath.isAbsoluteNodePath destinationNode)
          || negb (NodePath.validateNodePath destinationNode)
  then Fail InvalidDestinationNode
  else
    match files filePath with
    | FileMissing => Fail FileNotFound
    | FileUnreadable => Fail FileOpenFailed
    | FileUnparsable => Fail ParseFailed
    | FileDocument (JObject rootObject) =>
        includesConfig ← readIncludesMember rootObject;
        config ← readConfigMember rootObject;
        orFail ConfigApplyFailed (apply config includesConfig)
    | FileDocument _ => Fail DocumentNotObject
    end.

End Read.

End Draft.

(** ** [ConfigReaderFactory] *)

Section Factory.

(** the readers ([ConfigReaderBase]), what [read] is called with and what
    it returns *)
Context {ConfigReaderBase Arguments Result : Type}.
Variable readerRead : ConfigReaderBase → Arguments → Result.
(** [std::make_unique<ConfigReader>()] *)
Variable ConfigReader_new : ConfigReaderBase.

Record ConfigReaderFactory : Type :=
  MkFactory { m_configReaders : gmap string ConfigReaderBase }.

(** [ConfigReaderFactory::registerConfigReader]; the reader is a
    [std::unique_ptr], [None] when it is null *)
Definition registerConfigReader (this : ConfigReaderFactory) (type : string)
    (configReader : option ConfigReaderBase) : bool * ConfigReaderFactory :=
  match configReader with
  | Some reader =>
      if String.eqb type "" then (false, this)
      else (true, MkFactory (<[type := reader]> (m_configReaders this)))
  | None => (false, this)
  end.

(** [ConfigReaderFactory::readConfig]: the result of the reader, or the
    error "Unsupported configuration type: " followed by the type *)
Definition readConfig (this : ConfigReaderFactory) (type : string) (args : Arguments)
  : string + Result :=
  match m_configReaders this !! type with
  | None => inl ("Unsupported configuration type: " +:+ type)
  | Some configReader => inr (readerRead configReader args)
  end.

(** [ConfigReaderFactory::ConfigReaderFactory] *)
Definition ConfigReaderFactory_new : ConfigReaderFactory :=
  (registerConfigReader (MkFactory ∅) "CppConfigFramework" (Some ConfigReader_new)).2.

End Factory.

Arguments ConfigReaderFactory : clear implicits.

(** ** Measures and predicates used in the proofs *)

(** the number of nodes of a tree *)
Fixpoint nodeSize (n : ConfigNode) : nat :=
  match n with
  | Null | Value _ | NodeReference _ => 1
  | Array es | DerivedArray es => S (foldr (λ e acc, nodeSize e + acc) 0 es)
  | Object ms => S (map_fold (λ _ c acc, nodeSize c + acc) 0 ms)
  | DerivedObject _ config => S (nodeSize config)
  end.

(** a tree all of whose nodes have one of the kinds Null, Value, Array and
    Object *)
Inductive OnlyPlainKinds : ConfigNode → Prop :=
| plain_Null : OnlyPlainKinds Null
| plain_Value v : OnlyPlainKinds (Value v)
| plain_Array es : Forall OnlyPlainKinds es → OnlyPlainKinds (Array es)
| plain_Object ms :
    map_Forall (λ _ c, OnlyPlainKinds c) ms → OnlyPlainKinds (Object ms).

(** the value that [applyObject] leaves in a slot of [dst] that held [old]
    (if anything) when the member [c] of [src] is applied to it *)
Definition mergeMember (old : option ConfigNode) (c : ConfigNode) : ConfigNode :=
  match old, c with
  | Some (Object d), Object _ => default (clone c) (applyObject (Object d) c)
  | _, _ => clone c
  end.

(** the node below [n] along a chain of member names *)
Fixpoint descend (names : list string) (n : ConfigNode) : option ConfigNode :=
  match names with
  | [] => Some n
  | name :: names' =>
      match member n name with
      | Some c => descend names' c
      | None => None
      end
  end.

(** what the induction over a tree gives for a child [c]: when the call
    [resolve] answers [Resolved], it leaves a fully resolved node *)
Definition ResolvedIsFull
    (resolve : list Frame → ConfigNode → ReferenceResolutionResult * ConfigNode)
    (c : ConfigNode) : Prop :=
  ∀ ctx c', resolve ctx c = (Resolved, c') → isFullyResolved c' = true.

(** the state of the loop over the members of [ms] once the members [m] have
    been visited: the others are as they were, and while the result is
    [Resolved] the visited ones are fully resolved *)
Definition MembersVisited (ms m : ObjectNodeData)
    (st : ReferenceResolutionResult * ObjectNodeData) : Prop :=
  (∀ k, m !! k = None → st.2 !! k = ms !! k) ∧
  (st.1 = Resolved →
   ∀ k c, is_Some (m !! k) → st.2 !! k = Some c → isFullyResolved c = true).

(** the tree after [k] passes over the root that all answered [Unresolved];
    [None] when one of them answered otherwise *)
Fixpoint afterUnresolved (k : nat) (config : ConfigNode) : option ConfigNode :=
  match k with
  | 0 => Some config
  | S k' =>
      match resolveReferences [] config with
      | (Unresolved, config') => afterUnresolved k' config'
      | _ => None
      end
  end.

(** ** Documents of the examples

    All files sit in one directory: a file path is its own absolute path. *)

Module Doc.

Definition sameDirectory (workingDir filePath : string) : string := filePath.
Definition noDirectory (path : string) : string := "".

Definition num (n : Z) : QJsonValue := JDouble n.

(** [{"config":{"a":1,"b":{"c":"x"}}}] *)
Definition plain : QJsonValue :=
  JObject [("config", JObject [("a", num 1); ("b", JObject [("c", JString "x")])])].

(** [{"config":{"&a":"/b","b":7}}] *)
Definition forward : QJsonValue :=
  JObject [("config", JObject [("&a", JString "/b"); ("b", num 7)])].

(** [{"config":{"x":1,"y":2}}] *)
Definition base : QJsonValue :=
  JObject [("config", JObject [("x", num 1); ("y", num 2)])].

(** [{"includes":[{"file_path":"base.json"}],"config":{"y":9,"z":3}}] *)
Definition top : QJsonValue :=
  JObject [("includes", JArray [JObject [("file_path", JString "base.json")]]);
           ("config", JObject [("y", num 9); ("z", num 3)])].

(** [{"config":{"base":{"p":1,"q":2},
                "&child":{"base":"/base","config":{"q":9,"r":3}}}}] *)
Definition derived : QJsonValue :=
  JObject [("config", JObject
    [("base", JObject [("p", num 1); ("q", num 2)]);
     ("&child", JObject [("base", JString "/base");
                         ("config", JObject [("q", num 9); ("r", num 3)])])])].

(** [{"config":{"a":{"m":1},"b":{"m":2,"n":3},
                "&d":{"base":["/a","/b"],"config":{"n":7}}}}] *)
Definition multi : QJsonValue :=
  JObject [("config", JObject
    [("a", JObject [("m", num 1)]);
     ("b", JObject [("m", num 2); ("n", num 3)]);
     ("&d", JObject [("base", JArray [JString "/a"; JString "/b"]);
                     ("config", JObject [("n", num 7)])])])].

(** [{"config":{"&x":"/y","&y":"/x"}}] *)
Definition mutual : QJsonValue :=
  JObject [("config", JObject [("&x", JString "/y"); ("&y", JString "/x")])].

(** [{"config":{"&a":"/a"}}] *)
Definition self : QJsonValue :=
  JObject [("config", JObject [("&a", JString "/a")])].

(** [{"config":{"a":{"x":1}}}] *)
Definition nestedBase : QJsonValue :=
  JObject [("config", JObject [("a", JObject [("x", num 1)])])].

(** [{"includes":[{"file_path":"nested_base.json"}],"config":{"a":{"y":2}}}] *)
Definition nestedTop : QJsonValue :=
  JObject [("includes", JArray [JObject [("file_path", JString "nested_base.json")]]);
           ("config", JObject [("a", JObject [("y", num 2)])])].

Definition files (path : string) : FileState :=
  if String.eqb path "plain.json" then FileDocument plain
  else if String.eqb path "forward.json" then FileDocument forward
  else if String.eqb path "base.json" then FileDocument base
  else if String.eqb path "top.json" then FileDocument top
  else if String.eqb path "derived.json" then FileDocument derived
  else if String.eqb path "multi.json" then FileDocument multi
  else if String.eqb path "mutual.json" then FileDocument mutual
  else if String.eqb path "self.json" then FileDocument self
  else if String.eqb path "nested_base.json" then FileDocument nestedBase
  else if String.eqb path "nested_top.json" then FileDocument nestedTop
  else FileMissing.

(** [read] of a file of the examples, with the cycle limit of [this]; the
    examples include no file that includes another, so that two files are
    open at most *)
Definition load (this : Impl) (filePath sourceNode destinationNode : string)
  : Res ConfigNode :=
  read this sameDirectory noDirectory files 2 filePath "" sourceNode destinationNode.

Definition val (n : Z) : ConfigNode := Value (JDouble n).

(** the trees read from [Doc.self] and [Doc.mutual], and what one pass makes
    of the latter *)
Definition selfTree : ConfigNode := Object {["a" := NodeReference "/a"]}.
Definition mutualTree : ConfigNode :=
  Object (<["x" := NodeReference "/y"]> (<["y" := NodeReference "/x"]> ∅)).
Definition mutualTree' : ConfigNode := (resolveReferences [] mutualTree).2.

(** what [Doc.nestedBase] gives as the include aggregate of
    [Doc.nestedTop], the config member of [Doc.nestedTop], and the merge *)
Definition nestedIncludes : ConfigNode := Object {["a" := Object {["x" := val 1]}]}.
Definition nestedConfig : ConfigNode := Object {["a" := Object {["y" := val 2]}]}.
Definition nestedMerged : ConfigNode :=
  Object {["a" := Object (<["x" := val 1]> {["y" := val 2]})]}.

(** the reader that [readIncludesMember] calls for the files of the examples *)
Definition readFile (filePath workingDir sourceNode destinationNode : string)
  : Res ConfigNode :=
  read Impl_new sameDirectory noDirectory files 1 filePath workingDir
    sourceNode destinationNode.

End Doc.

(** merging a list of Objects onto an accumulator from left to right; [None]
    when a merge fails *)
Definition applyAll (acc : ConfigNode) (nodes : list ConfigNode) : option ConfigNode :=
  foldl (λ a b, a ≫= λ a', applyObject a' b) (Some acc) nodes.

(** the claim that after [applyObject includes config] every member path
    that both trees have holds the node of [config] *)
Definition ConfigReplacesAtEveryPath : Prop :=
  ∀ includes config merged names vi vc,
    applyObject includes config = Some merged →
    descend names includes = Some vi →
    descend names config = Some vc →
    descend names merged = Some vc.

(** the two errors about the [type] member of an include *)
Definition isTypeError (e : ReadError) : bool :=
  match e with
  | IncludeTypeNotString _ | IncludeUnsupportedType _ _ => true
  | _ => false
  end.

(** ** The loops of a pass, reading the container as it is when a child is
    visited

    The source visits [node->member(memberName)] for the names listed when
    the loop starts, and the elements through the pointers taken when the
    loop starts: the child that is resolved is read from the container in its
    current state. The loops of the section [Pass] take the children from the
    container as the loop found it; the two are shown to agree. *)

Definition resolveObjectReferencesByName
    (resolve : list Frame → ConfigNode → ReferenceResolutionResult * ConfigNode)
    (ctx : list Frame) (ms : ObjectNodeData)
  : ReferenceResolutionResult * ConfigNode :=
  let '(result, cur) :=
    foldl (λ st memberName,
             match st.2 !! memberName with
             | Some child => resolveMember resolve ctx memberName child st
             | None => st
             end) (Resolved, ms) (memberNames (Object ms)) in
  (result, Object cur).

Fixpoint resolveElementsAt
    (resolve : list Frame → ConfigNode → ReferenceResolutionResult * ConfigNode)
    (frame : list ConfigNode → nat → Frame) (ctx : list Frame)
    (count i : nat) (result : ReferenceResolutionResult) (cur : list ConfigNode)
  : ReferenceResolutionResult * list ConfigNode :=
  match count with
  | 0 => (result, cur)
  | S count' =>
      match cur !! i with
      | None => (result, cur)
      | Some e =>
          match resolve (frame cur i :: ctx) e with
          | (Resolved, e') =>
              resolveElementsAt resolve frame ctx count' (S i) result (<[i := e']> cur)
          | (Unresolved, e') =>
              resolveElementsAt resolve frame ctx count' (S i) Unresolved (<[i := e']> cur)
          | (Error, e') => (Error, <[i := e']> cur)
          end
      end
  end.

(** ** Predicates of the further properties *)

(** the call [resolve] answers [Resolved] on [c] and leaves it as it is *)
Definition LeavesResolved
    (resolve : list Frame → ConfigNode → ReferenceResolutionResult * ConfigNode)
    (c : ConfigNode) : Prop :=
  ∀ ctx, resolve ctx c = (Resolved, c).

(** the Objects that [transformConfig] puts around the source node, one for
    each name of the destination path *)
Definition nested (nodeNames : list string) (sourceConfig : ConfigNode) : ConfigNode :=
  foldr (λ nodeName inner, Object {[nodeName := inner]}) sourceConfig nodeNames.

(** the decorator of a JSON key and the member name that is left of it *)
Definition decoratorOf (key : string) : ascii := (splitDecorator key).1.
Definition memberNameOf (key : string) : string := (splitDecorator key).2.

(** the node that [readJsonObject] makes of the member [key : v] of an
    object at [currentNodePath] *)
Definition readMember (key : string) (v : QJsonValue) (currentNodePath : string)
  : option ConfigNode :=
  readDecorated readJsonValue readReferenceType (decoratorOf key) v
    (NodePath.appendNodeToPath currentNodePath (memberNameOf key)).

(** a JSON value in which a key decorated with [&] is reached through arrays
    and through members without a decorator *)
Fixpoint hasReferenceMember (v : QJsonValue) : bool :=
  match v with
  | JArray items => existsb hasReferenceMember items
  | JObject members =>
      existsb (λ kv,
        if Ascii.eqb (decoratorOf kv.1) "#"%char then false
        else if Ascii.eqb (decoratorOf kv.1) "&"%char then true
        else hasReferenceMember kv.2) members
  | _ => false
  end.

(** the index of the include that an error of [readIncludesMember] names *)
Definition errorIndex (e : ReadError) : option nat :=
  match e with
  | IncludeNotObject i | IncludeTypeNotString i | IncludeUnsupportedType _ i
  | IncludeFilePathMissing i | IncludeFilePathNotString i
  | IncludeSourceNodeNotString i | IncludeDestinationNodeNotString i
  | IncludeReadFailed i | IncludeApplyFailed i => Some i
  | _ => None
  end.

(** a run of calls of [registerConfigReader] on a factory, and the reader
    that the successful calls of the run leave under a type that is not
    empty: that of the last call with this type and a reader that is not
    null, [init] when there is none *)
Definition registerAll {ConfigReaderBase : Type}
    (this : ConfigReaderFactory ConfigReaderBase)
    (calls : list (string * option ConfigReaderBase))
  : ConfigReaderFactory ConfigReaderBase :=
  foldl (λ factory call, (registerConfigReader factory call.1 call.2).2) this calls.

Definition lastRegistered {ConfigReaderBase : Type} (type : string)
    (init : option ConfigReaderBase) (calls : list (string * option ConfigReaderBase))
  : option ConfigReaderBase :=
  foldl (λ acc call,
           if String.eqb call.1 type
           then match call.2 with Some reader => Some reader | None => acc end
           else acc) init calls.

(** a JSON value in which some key of some object has a decorator *)
Fixpoint hasDecoratedKey (v : QJsonValue) : bool :=
  match v with
  | JArray items => existsb hasDecoratedKey items
  | JObject members =>
      existsb (λ kv, hasDecorator kv.1 || hasDecoratedKey kv.2) members
  | _ => false
  end.

(** a JSON value in which the keys of every object are all different, as
    they are in every [QJsonObject] *)
Fixpoint keysDistinct (v : QJsonValue) : bool :=
  match v with
  | JArray items => forallb keysDistinct items
  | JObject members =>
      bool_decide (NoDup members.*1) && forallb (λ kv, keysDistinct kv.2) members
  | _ => true
  end.

(** ** Trees that keep to a rule for their member names and their kinds

    [conforms nameOk derivedObjectOk] holds of a tree in which every member
    name passes [nameOk] and in which a DerivedObject stands only where
    [derivedObjectOk] allows it. *)

Section Conforms.

Variable nameOk : string → bool.
Variable derivedObjectOk : bool.

Fixpoint conforms (n : ConfigNode) : bool :=
  match n with
  | Null | Value _ | NodeReference _ => true
  | Array es | DerivedArray es => forallb conforms es
  | Object ms => map_fold (λ k c acc, acc && nameOk k && conforms c) true ms
  | DerivedObject _ config => derivedObjectOk && conforms config
  end.

(** an ancestor that conforms, the node below it standing under a name that
    passes when it is a member *)
Definition frameConforms (f : Frame) : Prop :=
  conforms (frameNode f) = true ∧
  match frameSlot f with
  | InMember name => nameOk name = true
  | _ => True
  end.

End Conforms.

(** every member name of the tree is a valid node name *)
Definition namesValid : ConfigNode → bool := conforms NodePath.validateNodeName true.

(** the tree holds no DerivedObject *)
Definition noDerivedObject : ConfigNode → bool := conforms (λ _, true) false.

(** the kinds whose resolution looks for the parent of the node *)
Definition needsParent (n : ConfigNode) : bool :=
  match n with
  | NodeReference _ | DerivedArray _ | DerivedObject _ _ => true
  | _ => false
  end.

(** ** Predicates on the recursive calls, for the loops of the reader and of
    the resolver *)

(** where [read1] reads a value, [read2] reads it to the same node *)
Definition ReadsSame (read1 read2 : QJsonValue → string → option ConfigNode)
    (v : QJsonValue) : Prop :=
  ∀ path n, read1 v path = Some n → read2 v path = Some n.

(** both entry points of the reader give trees with valid member names *)
Definition ReadsValidNames (v : QJsonValue) : Prop :=
  (∀ path n, readJsonValue v path = Some n → namesValid n = true) ∧
  (∀ path n, readReferenceType v path = Some n → namesValid n = true).

(** the call [resolve], among ancestors that conform, leaves a child that
    conforms conforming *)
Definition KeepsConforming (nameOk : string → bool) (derivedObjectOk : bool)
    (resolve : list Frame → ConfigNode → ReferenceResolutionResult * ConfigNode)
    (c : ConfigNode) : Prop :=
  ∀ ctx, Forall (frameConforms nameOk derivedObjectOk) ctx →
         conforms nameOk derivedObjectOk c = true →
         conforms nameOk derivedObjectOk (resolve ctx c).2 = true.

(** under a parent, the call [resolve] does not answer [Error] on [c] *)
Definition NoErrorUnderParent
    (resolve : list Frame → ConfigNode → ReferenceResolutionResult * ConfigNode)
    (c : ConfigNode) : Prop :=
  ∀ f ctx, (resolve (f :: ctx) c).1 ≠ Error.

(** when the call [resolve] answers [Unresolved] on [c], it leaves a node
    that is not fully resolved *)
Definition UnresolvedIsNotFull
    (resolve : list Frame → ConfigNode → ReferenceResolutionResult * ConfigNode)
    (c : ConfigNode) : Prop :=
  ∀ ctx c', resolve ctx c = (Unresolved, c') → isFullyResolved c' = false.

(** the include at the index [i] is a JSON object of the type
    "CppConfigFramework" with a [file_path] string, and [read] of that file
    with the [source_node] and [destination_node] of the include returns
    [config] *)
Definition IncludeReads (read : string → string → string → string → Res ConfigNode)
    (workingDir : string) (i : nat) (includeValue : QJsonValue) (config : ConfigNode)
  : Prop :=
  ∃ includeObject filePath sourceNode destinationNode,
    includeValue = JObject includeObject ∧
    includeType includeObject i = Done "CppConfigFramework" ∧
    Json.contains includeObject "file_path" = true ∧
    Json.value includeObject "file_path" = JString filePath ∧
    includeNodePath includeObject "source_node" (IncludeSourceNodeNotString i)
      = Done sourceNode ∧
    includeNodePath includeObject "destination_node" (IncludeDestinationNodeNotString i)
      = Done destinationNode ∧
    read filePath workingDir sourceNode destinationNode = Done config.

(** ** The Object container as it is iterated

    [ObjectNodeData] is a [std::unordered_map] (ConfigNodeData.hpp): the
    order in which its iterator visits the entries is decided by the hash of
    the keys ([StringHashCalculator::operator()], declared in the sources
    and defined nowhere in them) and by the buckets of the table. The
    container promises this much: every entry is visited once; assigning to
    a key that is there changes the value and moves no entry; assigning to
    a new key adds an entry at a place of the table's choice, and may move
    the others (a rehash). [Table.Entries] is the sequence that the iterator
    visits and [Table.Placement] the choice, which is left open.

    The gmap of [Object] holds the same members and lists them by key: it is
    the table under the placement [Table.byKey]. What is proved of
    [memberNames], [resolveObjectReferences] and [isFullyResolved] on the
    gmap is proved for that order of the members. *)
Module Table.

Definition Entries : Type := list (string * ConfigNode).
Definition Placement : Type := Entries → string → ConfigNode → Entries.

(** the keys as the iterator visits them: what [memberNames] lists *)
Definition names (e : Entries) : list string := e.*1.

(** [m_object.find(name)] *)
Fixpoint find (e : Entries) (name : string) : option ConfigNode :=
  match e with
  | [] => None
  | (k, node) :: e' => if String.eqb k name then Some node else find e' name
  end.

(** the assignment to an entry that is there *)
Fixpoint replace (e : Entries) (name : string) (node : ConfigNode) : Entries :=
  match e with
  | [] => []
  | (k, old) :: e' =>
      if String.eqb k name then (k, node) :: e' else (k, old) :: replace e' name node
  end.

(** Modelled from the spec: [ConfigNode::setMember] on the table,
    [m_object[name] = node] (ConfigNode.cpp is not part of the sources) *)
Definition assign (place : Placement) (e : Entries) (name : string) (node : ConfigNode)
  : Entries :=
  match find e name with
  | Some _ => replace e name node
  | None => place e name node
  end.

(** the table after the assignments of [history], made to the empty table *)
Definition build (place : Placement) (history : list (string * ConfigNode)) : Entries :=
  foldl (λ e kv, assign place e kv.1 kv.2) [] history.

(** the members of the table, whatever their order: the [Object] of the
    embedding *)
Definition contents (e : Entries) : ObjectNodeData := list_to_map e.

(** what the container promises of the place of a new entry *)
Definition Permits (place : Placement) : Prop :=
  ∀ e name node,
    NoDup (names e) → find e name = None → place e name node ≡ₚ (name, node) :: e.

(** a table that links a new entry before the others, one that links it
    after them, and one that lists its entries by key, as the gmap does *)
Definition atHead : Placement := λ e name node, (name, node) :: e.
Definition atEnd : Placement := λ e name node, e ++ [(name, node)].
Definition ofObject (ms : ObjectNodeData) : Entries :=
  map_fold (λ k c acc, acc ++ [(k, c)]) [] ms.
Definition byKey : Placement := λ e name node, ofObject (<[name := node]> (contents e)).

End Table.

(** the claim that the members of an Object are listed in the order in which
    their names were first set, for a table with the placement [place] *)
Definition MembersInInsertionOrder (place : Table.Placement) : Prop :=
  ∀ history : list (string * ConfigNode),
    NoDup history.*1 →
    Table.names (Table.build place history) = history.*1.

(** [ConfigReader::Impl::resolveObjectReferences] on a container whose
    iterator lists the member names as [names]: the names are listed when
    the loop starts and each member is then taken from the container as it
    is, [node->member(memberName)] *)
Definition resolveObjectReferencesIn
    (resolve : list Frame → ConfigNode → ReferenceResolutionResult * ConfigNode)
    (ctx : list Frame) (names : list string) (ms : ObjectNodeData)
  : ReferenceResolutionResult * ConfigNode :=
  let '(result, cur) :=
    foldl (λ st memberName,
             match st.2 !! memberName with
             | Some child => resolveMember resolve ctx memberName child st
             | None => st
             end) (Resolved, ms) names in
  (result, Object cur).

(** the step of [applyObject] for one member of the source *)
Definition mergeInto (acc : ObjectNodeData) (kv : string * ConfigNode) : ObjectNodeData :=
  <[kv.1 := mergeMember (acc !! kv.1) kv.2]> acc.

(* ===================================================================== *)
(** * Properties *)
(* ===================================================================== *)

Example validateNodeName_ok :
  NodePath.validateNodeName "base_1" = true ∧
  NodePath.validateNodeName "1base" = false ∧
  NodePath.validateNodeName "&a" = false ∧
  NodePath.validateNodeName "" = false.
Proof. repeat split; reflexivity. Qed.

Example segments_ok :
  NodePath.segments "/" = [] ∧
  NodePath.segments "/a/b" = ["a"; "b"] ∧
  NodePath.segments "../x" = [".."; "x"] ∧
  NodePath.validateNodePathAt "../x" "/a" = true ∧
  NodePath.validateNodePathAt "../../x" "/a" = false.
Proof. repeat split; reflexivity. Qed.


(** ** Structural induction through the containers *)

Lemma nodeSize_foldr_elem (es : list ConfigNode) (c : ConfigNode) :
  c ∈ es → nodeSize c ≤ foldr (λ e acc, nodeSize e + acc) 0 es.
Proof.
  induction es as [|e es IH]; intros Hin.
  - by apply elem_of_nil in Hin.
  - apply elem_of_cons in Hin as [->|Hin]; simpl; [lia|].
    specialize (IH Hin). lia.
Qed.

Lemma nodeSize_member (ms : ObjectNodeData) (k : string) (c : ConfigNode) :
  ms !! k = Some c → nodeSize c < nodeSize (Object ms).
Proof.
  intros Hk. simpl. rewrite map_fold_foldr.
  apply elem_of_map_to_list in Hk.
  assert (nodeSize c ≤
          foldr (uncurry (λ (_ : string) c acc, nodeSize c + acc)) 0 (map_to_list ms)); [|lia].
  induction (map_to_list ms) as [|[k' c'] l IH].
  - by apply elem_of_nil in Hk.
  - apply elem_of_cons in Hk as [Heq|Hin]; simpl.
    + inversion Heq; subst. lia.
    + specialize (IH Hin). lia.
Qed.

Lemma ConfigNode_nested_ind (P : ConfigNode → Prop) :
  P Null →
  (∀ v, P (Value v)) →
  (∀ es, Forall P es → P (Array es)) →
  (∀ ms, map_Forall (λ _ c, P c) ms → P (Object ms)) →
  (∀ r, P (NodeReference r)) →
  (∀ es, Forall P es → P (DerivedArray es)) →
  (∀ bases config, P config → P (DerivedObject bases config)) →
  ∀ n, P n.
Proof.
  intros HNull HValue HArray HObject HRef HDArray HDObject n.
  remember (nodeSize n) as sz eqn:Hsz.
  revert n Hsz. induction sz as [sz IH] using lt_wf_ind. intros n ->.
  destruct n as [|v|es|ms|r|es|bases config]; auto.
  - apply HArray, Forall_forall. intros c Hc.
    apply (IH (nodeSize c)); [|done].
    pose proof (nodeSize_foldr_elem es c Hc). simpl. lia.
  - apply HObject. intros k c Hk.
    apply (IH (nodeSize c)); [|done]. by eapply nodeSize_member.
  - apply HDArray, Forall_forall. intros c Hc.
    apply (IH (nodeSize c)); [|done].
    pose proof (nodeSize_foldr_elem es c Hc). simpl. lia.
  - apply HDObject. apply (IH (nodeSize config)); [simpl; lia|done].
Qed.

(** ** [isFullyResolved] *)

Lemma isFullyResolved_Object (ms : ObjectNodeData) :
  isFullyResolved (Object ms) = true ↔
  map_Forall (λ _ c, isFullyResolved c = true) ms.
Proof.
  simpl. rewrite map_fold_foldr, map_Forall_to_list.
  induction (map_to_list ms) as [|[k c] l IH]; simpl.
  - split; [constructor|done].
  - rewrite Forall_cons, andb_true_iff, IH. simpl. tauto.
Qed.

Lemma isFullyResolved_Array (es : list ConfigNode) :
  isFullyResolved (Array es) = true ↔ Forall (λ c, isFullyResolved c = true) es.
Proof.
  simpl. rewrite forallb_forall, Forall_forall.
  split; intros H x Hx; apply H; by apply list_elem_of_In.
Qed.

Lemma isFullyResolved_plain (n : ConfigNode) :
  isFullyResolved n = true ↔ OnlyPlainKinds n.
Proof.
  induction n as [|v|es IH|ms IH|r|es IH|bases config IH] using ConfigNode_nested_ind.
  - split; [constructor|done].
  - split; [constructor|done].
  - rewrite isFullyResolved_Array. split.
    + intros H. constructor. rewrite Forall_forall in *. intros c Hc.
      apply IH; auto.
    + intros H. inversion H as [| |es' H'|]; subst.
      rewrite Forall_forall in *. intros c Hc. apply IH; auto.
  - rewrite isFullyResolved_Object. split.
    + intros H. constructor. intros k c Hk. apply (IH k c Hk), (H k c Hk).
    + intros H. inversion H as [| | |ms' H']; subst.
      intros k c Hk. apply (IH k c Hk), (H' k c Hk).
  - split; [done|inversion 1].
  - split; [done|inversion 1].
  - split; [done|inversion 1].
Qed.

(** ** The merge engine *)

(** [applyObject] puts [mergeMember] of the old and the new value in the slot
    of every member of [src] *)
Lemma applyObject_unfold (d s : ObjectNodeData) :
  applyObject (Object d) (Object s) =
  Some (Object (map_fold (λ k c acc, <[k := mergeMember (acc !! k) c]> acc) d s)).
Proof.
  simpl. do 2 f_equal. rewrite !map_fold_foldr.
  induction (map_to_list s) as [|[k c] l IH]; simpl; [done|].
  rewrite IH. unfold mergeMember.
  destruct (foldr _ d l !! k) as [old|]; [|done].
  destruct old as [| | |dm| | |], c as [| | |sm| | |]; done.
Qed.

Lemma applyObject_Object (d s : ObjectNodeData) :
  ∃ r, applyObject (Object d) (Object s) = Some (Object r) ∧
       ∀ k, r !! k = match s !! k with
                     | Some c => Some (mergeMember (d !! k) c)
                     | None => d !! k
                     end.
Proof.
  rewrite applyObject_unfold. eexists. split; [reflexivity|].
  apply (map_fold_weak_ind (λ acc (m : ObjectNodeData),
    ∀ k, acc !! k = match m !! k with
                    | Some c => Some (mergeMember (d !! k) c)
                    | None => d !! k
                    end)).
  - intros k. by rewrite lookup_empty.
  - intros i c m acc Hi IH k.
    assert (acc !! i = d !! i) as -> by (by rewrite IH, Hi).
    destruct (decide (i = k)) as [->|Hne].
    + by rewrite !lookup_insert_eq.
    + rewrite !lookup_insert_ne by done. apply IH.
Qed.

Lemma applyObject_fails (dst src : ConfigNode) :
  applyObject dst src = None ↔ isObject dst = false ∨ isObject src = false.
Proof.
  destruct dst, src; simpl; split; try done; try (by left); try (by right);
    intros [H|H]; done.
Qed.

Lemma applyObject_Some_inv (dst src r : ConfigNode) :
  applyObject dst src = Some r →
  ∃ d s m, dst = Object d ∧ src = Object s ∧ r = Object m ∧
    ∀ k, m !! k = match s !! k with
                  | Some c => Some (mergeMember (d !! k) c)
                  | None => d !! k
                  end.
Proof.
  intros Happ.
  destruct src as [| | |s| | |], dst as [| | |d| | |]; try done.
  destruct (applyObject_Object d s) as (m & Heq & Hm).
  rewrite Heq in Happ. inversion Happ; subst. eauto 10.
Qed.

Lemma applyObject_empty (s : ObjectNodeData) :
  applyObject (Object ∅) (Object s) = Some (Object s).
Proof.
  destruct (applyObject_Object ∅ s) as (m & -> & Hm).
  do 2 f_equal. apply map_eq. intros k. rewrite Hm, lookup_empty.
  destruct (s !! k) as [c|]; [|done]. by destruct c.
Qed.

(** merging fully resolved Objects gives a fully resolved Object *)
Lemma applyObject_fully_resolved (src : ConfigNode) :
  ∀ dst r,
    applyObject dst src = Some r →
    isFullyResolved dst = true → isFullyResolved src = true →
    isFullyResolved r = true.
Proof.
  induction src as [|v|es IH|s IH|ref|es IH|bases config IH] using ConfigNode_nested_ind;
    intros dst r Happ Hdst Hsrc;
    apply applyObject_Some_inv in Happ as (d & s' & m & -> & Heq & -> & Hm);
    try done.
  inversion Heq; subst s'. clear Heq.
  rewrite isFullyResolved_Object in *.
  intros k c Hk. rewrite Hm in Hk.
  destruct (s !! k) as [c'|] eqn:Hs; [|by apply (Hdst k)].
  inversion Hk; subst c. clear Hk.
  pose proof (Hsrc k c' Hs) as Hc'.
  unfold mergeMember.
  destruct (d !! k) as [old|] eqn:Hd; [|done].
  destruct old as [| | |dm| | |]; try done.
  destruct c' as [| | |sm| | |]; try done.
  destruct (applyObject (Object dm) (Object sm)) as [merged|] eqn:Happ; [|done].
  simpl. eapply (IH k _ Hs); [exact Happ| |done]. apply (Hdst k _ Hd).
Qed.

(** what [src] holds at a path that does not end in an Object is what the
    merged Object holds there *)
Lemma applyObject_descend (names : list string) :
  ∀ dst src r v,
    applyObject dst src = Some r →
    descend names src = Some v → isObject v = false →
    descend names r = Some v.
Proof.
  induction names as [|name names IH]; intros dst src r v Happ Hv Hobj.
  - simpl in Hv. inversion Hv; subst v.
    apply applyObject_Some_inv in Happ as (d & s & m & -> & -> & -> & Hm). done.
  - apply applyObject_Some_inv in Happ as (d & s & m & -> & -> & -> & Hm).
    simpl in *. rewrite Hm.
    destruct (s !! name) as [c|] eqn:Hs; [|done].
    unfold mergeMember.
    destruct (d !! name) as [old|]; [|done].
    destruct old as [| | |dm| | |]; try done.
    destruct c as [| | |sm| | |]; try done.
    destruct (applyObject (Object dm) (Object sm)) as [merged|] eqn:Happ.
    + simpl. by eapply IH.
    + by apply applyObject_fails in Happ as [?|?].
Qed.

(** ** One pass: a [Resolved] outcome leaves a fully resolved node *)

Section PassResolved.

Variable resolve : list Frame → ConfigNode → ReferenceResolutionResult * ConfigNode.

Lemma resolveElements_Unresolved frame ctx todo :
  ∀ i cur result cur',
    resolveElements resolve frame ctx todo i Unresolved cur = (result, cur') →
    result ≠ Resolved.
Proof.
  induction todo as [|e todo IH]; intros i cur result cur' Heq; simpl in Heq.
  - by inversion Heq.
  - destruct (resolve (frame cur i :: ctx) e) as [[] e'];
      [by eapply IH|by eapply IH|by inversion Heq].
Qed.

Lemma resolveElements_Resolved frame ctx todo :
  Forall (ResolvedIsFull resolve) todo →
  ∀ i cur cur',
    resolveElements resolve frame ctx todo i Resolved cur = (Resolved, cur') →
    length cur = i + length todo →
    Forall (λ c, isFullyResolved c = true) (take i cur) →
    Forall (λ c, isFullyResolved c = true) cur'.
Proof.
  induction 1 as [|e todo He Htodo IH]; intros i cur cur' Heq Hlen Hdone;
    simpl in Heq.
  - inversion Heq; subst cur'. simpl in Hlen.
    rewrite firstn_all2 in Hdone by lia. done.
  - simpl in Hlen.
    destruct (resolve (frame cur i :: ctx) e) as [[] e'] eqn:Hres.
    + apply (IH (S i) (<[i := e']> cur) cur' Heq).
      * rewrite length_insert. lia.
      * assert (i < length cur) as Hi by lia.
        apply lookup_lt_is_Some_2 in Hi as [x Hx].
        rewrite (take_S_r _ _ e') by (apply list_lookup_insert_eq; by eapply lookup_lt_Some).
        rewrite take_insert_ge by lia.
        apply Forall_app. split; [done|].
        constructor; [by eapply He|constructor].
    + by apply resolveElements_Unresolved in Heq.
    + by inversion Heq.
Qed.

Lemma resolveArrayReferences_Resolved ctx es node' :
  Forall (ResolvedIsFull resolve) es →
  resolveArrayReferences resolve ctx es = (Resolved, node') →
  isFullyResolved node' = true.
Proof.
  intros Hes. unfold resolveArrayReferences.
  destruct (resolveElements _ _ _ _ _ _ _) as [result cur] eqn:Heq.
  intros Hr. inversion Hr; subst result node'.
  apply isFullyResolved_Array.
  eapply resolveElements_Resolved; [done|exact Heq|simpl; lia|]. by rewrite take_0.
Qed.

Lemma appendElement_foldl (cur acc : list ConfigNode) :
  foldl (λ a e, appendElement a (clone e)) (Array acc) cur = Array (acc ++ cur).
Proof.
  revert acc. induction cur as [|e cur IH]; intros acc; simpl.
  - by rewrite app_nil_r.
  - rewrite IH. by rewrite <- app_assoc.
Qed.

Lemma resolveDerivedArrayReferences_Resolved ctx es node' :
  Forall (ResolvedIsFull resolve) es →
  resolveDerivedArrayReferences resolve ctx es = (Resolved, node') →
  isFullyResolved node' = true.
Proof.
  intros Hes. unfold resolveDerivedArrayReferences.
  destruct ctx as [|f ctx']; [done|].
  destruct (resolveElements _ _ _ _ _ _ _) as [result cur] eqn:Heq.
  destruct result; intros Hr; inversion Hr; subst node'.
  rewrite appendElement_foldl. simpl app.
  apply isFullyResolved_Array.
  eapply resolveElements_Resolved; [done|exact Heq|simpl; lia|]. by rewrite take_0.
Qed.

Lemma resolveMembers_visited ctx (ms m : ObjectNodeData) :
  map_Forall (λ _ c, ResolvedIsFull resolve c) m →
  MembersVisited ms m (map_fold (resolveMember resolve ctx) (Resolved, ms) m).
Proof.
  apply (map_fold_weak_ind (λ st m,
    map_Forall (λ _ c, ResolvedIsFull resolve c) m → MembersVisited ms m st)).
  - intros _. split; [done|]. intros _ k c [x Hx]. by rewrite lookup_empty in Hx.
  - clear m. intros i x m [res cur] Hi IH Hall.
    apply map_Forall_insert in Hall as [Hx Hall]; [|done].
    destruct (IH Hall) as [Hrest Hfull]. simpl in Hrest, Hfull.
    assert (∀ res' x',
      (res' = Resolved → res = Resolved ∧ isFullyResolved x' = true) →
      MembersVisited ms (<[i := x]> m) (res', <[i := x']> cur)) as Hstep.
    { intros res' x' Hres'. split; simpl.
      - intros k Hk. apply lookup_insert_None in Hk as [Hk Hne].
        rewrite lookup_insert_ne by done. by apply Hrest.
      - intros Heq k c Hk Hc. destruct (Hres' Heq) as [-> Hx'].
        destruct (decide (i = k)) as [->|Hne].
        + rewrite lookup_insert_eq in Hc. by inversion Hc; subst.
        + rewrite lookup_insert_ne in Hc, Hk by done. by eapply Hfull. }
    unfold resolveMember.
    destruct res.
    + destruct (resolve _ x) as [[] x'] eqn:Hres; apply Hstep; try done.
      intros _. split; [done|]. by eapply Hx.
    + destruct (resolve _ x) as [[] x'] eqn:Hres; apply Hstep; done.
    + split; simpl; [|done].
      intros k Hk. apply lookup_insert_None in Hk as [Hk Hne]. by apply Hrest.
Qed.

Lemma resolveMembers_dom ctx (ms m : ObjectNodeData) :
  ∀ k, is_Some ((map_fold (resolveMember resolve ctx) (Resolved, ms) m).2 !! k) →
       is_Some (ms !! k) ∨ is_Some (m !! k).
Proof.
  apply (map_fold_weak_ind (λ st m,
    ∀ k, is_Some (st.2 !! k) → is_Some (ms !! k) ∨ is_Some (m !! k))).
  - intros k Hk. by left.
  - clear m. intros i x m [res cur] Hi IH k.
    assert (∀ x', is_Some (<[i := x']> cur !! k) →
              is_Some (ms !! k) ∨ is_Some (<[i := x]> m !! k)) as Hstep.
    { intros x'. destruct (decide (i = k)) as [->|Hne].
      - intros _. right. by rewrite lookup_insert_eq.
      - rewrite !lookup_insert_ne by done. apply IH. }
    unfold resolveMember. destruct res.
    + destruct (resolve _ x) as [[] x']; simpl; apply Hstep.
    + destruct (resolve _ x) as [[] x']; simpl; apply Hstep.
    + simpl. intros Hk. destruct (IH k Hk) as [?|Hm]; [by left|right].
      destruct (decide (i = k)) as [->|Hne];
        [by rewrite lookup_insert_eq|by rewrite lookup_insert_ne].
Qed.

Lemma resolveObjectReferences_Resolved ctx ms node' :
  map_Forall (λ _ c, ResolvedIsFull resolve c) ms →
  resolveObjectReferences resolve ctx ms = (Resolved, node') →
  isFullyResolved node' = true.
Proof.
  intros Hms. unfold resolveObjectReferences.
  pose proof (resolveMembers_visited ctx ms ms Hms) as [_ Hfull].
  pose proof (resolveMembers_dom ctx ms ms) as Hdom.
  destruct (map_fold _ _ ms) as [result cur]. simpl in *.
  intros Hr. inversion Hr; subst result node'.
  apply isFullyResolved_Object. intros k c Hk.
  apply (Hfull eq_refl k c); [|done].
  destruct (Hdom k) as [?|?]; by eauto.
Qed.

Lemma applyBases_fully_resolved parentNode ctx' bases :
  ∀ derived derived',
    applyBases parentNode ctx' bases derived = inr derived' →
    isFullyResolved derived = true → isFullyResolved derived' = true.
Proof.
  induction bases as [|base bases IH]; intros derived derived' Heq Hd; simpl in Heq.
  - by inversion Heq; subst.
  - destruct (nodeAtPath parentNode ctx' base) as [baseNode|]; [|done].
    destruct (isFullyResolved baseNode) eqn:Hbase; [|done]. simpl in Heq.
    destruct (applyObject derived baseNode) as [d|] eqn:Happ; [|done].
    eapply IH; [exact Heq|]. by eapply applyObject_fully_resolved.
Qed.

Lemma applyBases_early parentNode ctx' bases :
  ∀ derived result,
    applyBases parentNode ctx' bases derived = inl result → result ≠ Resolved.
Proof.
  induction bases as [|base bases IH]; intros derived result Heq; simpl in Heq;
    [done|].
  destruct (nodeAtPath parentNode ctx' base) as [baseNode|];
    [|by inversion Heq].
  destruct (negb (isFullyResolved baseNode)); [by inversion Heq|].
  destruct (applyObject derived baseNode) as [d|]; [|by inversion Heq].
  by eapply IH.
Qed.

Lemma applyOverride_Resolved bases config derived node' :
  applyOverride bases config derived = (Resolved, node') →
  isFullyResolved derived = true → isFullyResolved config = true →
  isFullyResolved node' = true.
Proof.
  unfold applyOverride. intros Heq Hd Hc.
  destruct (isNull config); simpl in Heq.
  - by inversion Heq; subst.
  - destruct (applyObject derived config) as [d|] eqn:Happ; [|done].
    inversion Heq; subst. by eapply applyObject_fully_resolved.
Qed.

Lemma resolveDerivedObjectReferences_Resolved ctx bases config node' :
  ResolvedIsFull resolve config →
  resolveDerivedObjectReferences resolve ctx bases config = (Resolved, node') →
  isFullyResolved node' = true.
Proof.
  intros Hconfig. unfold resolveDerivedObjectReferences.
  destruct ctx as [|f ctx']; [done|].
  destruct (applyBases _ _ _ _) as [r|derived] eqn:Hbases.
  { intros Heq. inversion Heq; subst. by apply applyBases_early in Hbases. }
  assert (isFullyResolved derived = true) as Hd
    by (by eapply applyBases_fully_resolved).
  destruct (isFullyResolved config) eqn:Hc; simpl.
  - intros Heq. by eapply applyOverride_Resolved.
  - destruct (resolve _ (clone config)) as [[] config'] eqn:Hres;
      [|by inversion 1|by inversion 1].
    intros Heq. eapply applyOverride_Resolved; [exact Heq|done|].
    by eapply Hconfig.
Qed.

End PassResolved.

Lemma resolveNodeReference_Resolved ctx reference node' :
  resolveNodeReference ctx reference = (Resolved, node') →
  isFullyResolved node' = true.
Proof.
  unfold resolveNodeReference. destruct ctx as [|f ctx']; [done|].
  destruct (nodeAtPath _ _ _) as [t|]; [|done].
  unfold clone. destruct (isFullyResolved t) eqn:Ht; [|done].
  by inversion 1; subst.
Qed.

Lemma resolveReferences_Resolved (node : ConfigNode) :
  ∀ ctx node',
    resolveReferences ctx node = (Resolved, node') →
    isFullyResolved node' = true.
Proof.
  induction node as [|v|es IH|ms IH|r|es IH|bases config IH]
    using ConfigNode_nested_ind; intros ctx node' Heq; simpl in Heq.
  - by inversion Heq.
  - by inversion Heq.
  - by eapply resolveArrayReferences_Resolved.
  - by eapply resolveObjectReferences_Resolved.
  - by eapply resolveNodeReference_Resolved.
  - by eapply resolveDerivedArrayReferences_Resolved.
  - by eapply resolveDerivedObjectReferences_Resolved.
Qed.

(** ** Lookups and the transformation keep a tree fully resolved *)

Lemma plug_fully_resolved (child : ConfigNode) (f : Frame) :
  isFullyResolved child = true → isFullyResolved (frameNode f) = true →
  isFullyResolved (plug child f) = true.
Proof.
  intros Hc Hf. unfold plug.
  destruct (frameSlot f) as [name|i|i|]; destruct (frameNode f) as [| |es|ms| | |];
    try done.
  - rewrite isFullyResolved_Object in *. by apply map_Forall_insert_2.
  - rewrite isFullyResolved_Array in *. by apply Forall_insert.
Qed.

Lemma walk_fully_resolved (segs : list string) :
  ∀ n ctx t,
    isFullyResolved n = true →
    Forall (λ f, isFullyResolved (frameNode f) = true) ctx →
    walk segs n ctx = Some t →
    isFullyResolved t = true.
Proof.
  induction segs as [|s segs IH]; intros n ctx t Hn Hctx Hw; simpl in Hw.
  - by inversion Hw; subst.
  - destruct (String.eqb s "..").
    + destruct ctx as [|f ctx']; [done|].
      apply Forall_cons in Hctx as [Hf Hctx].
      eapply IH; [|exact Hctx|exact Hw]. by apply plug_fully_resolved.
    + destruct n as [| | |ms| | |]; try done.
      destruct (ms !! s) as [c|] eqn:Hs; [|done].
      eapply IH; [| |exact Hw].
      * rewrite isFullyResolved_Object in Hn. by eapply Hn.
      * by constructor.
Qed.

Lemma nodeAtPath_fully_resolved (n t : ConfigNode) (path : string) :
  isFullyResolved n = true → nodeAtPath n [] path = Some t →
  isFullyResolved t = true.
Proof.
  intros Hn. unfold nodeAtPath. destruct path as [|c path]; [done|].
  destruct (NodePath.isAbsoluteNodePath _); simpl rootNode;
    intros Hw; by eapply walk_fully_resolved.
Qed.

Lemma nestUnder_fully_resolved (nodeNames : list string) :
  ∀ sourceConfig t,
    isFullyResolved sourceConfig = true →
    nestUnder nodeNames sourceConfig = Some t →
    isFullyResolved t = true.
Proof.
  induction nodeNames as [|name rest IH]; intros sourceConfig t Hs Hn; simpl in Hn.
  - by inversion Hn; subst.
  - destruct (negb (NodePath.validateNodeName name)); [done|].
    destruct rest as [|name' rest'].
    + inversion Hn; subst. apply isFullyResolved_Object.
      by apply map_Forall_insert_2.
    + destruct (nestUnder (name' :: rest') sourceConfig) as [inner|] eqn:Hin; [|done].
      inversion Hn; subst. apply isFullyResolved_Object.
      apply map_Forall_insert_2; [by eapply IH|done].
Qed.

Lemma transformConfig_fully_resolved (config t : ConfigNode) (sourceNode destinationNode : string) :
  isFullyResolved config = true →
  transformConfig config sourceNode destinationNode = Some t →
  isFullyResolved t = true.
Proof.
  intros Hc. unfold transformConfig.
  destruct (String.eqb sourceNode "/" && String.eqb destinationNode "/");
    [by inversion 1; subst|].
  assert (∀ s, (if String.eqb sourceNode "/" then Some config
                else clone <$> nodeAtPath config [] sourceNode) = Some s →
               isFullyResolved s = true) as Hsrc.
  { intros s. destruct (String.eqb sourceNode "/"); [by inversion 1; subst|].
    destruct (nodeAtPath config [] sourceNode) as [x|] eqn:Hx; [|done].
    inversion 1; subst. by eapply nodeAtPath_fully_resolved. }
  destruct (if String.eqb sourceNode "/" then _ else _) as [s|]; [|done].
  specialize (Hsrc s eq_refl).
  destruct (String.eqb destinationNode "/"); [by inversion 1; subst|].
  intros Hn. by eapply nestUnder_fully_resolved.
Qed.

(** ** The resolution loop *)

Lemma resolveCycles_passes (cycles : nat) :
  ∀ config result config' passes,
    resolveCycles cycles config = (result, config', passes) → passes ≤ cycles.
Proof.
  induction cycles as [|cycles IH]; intros config result config' passes Heq;
    simpl in Heq.
  - inversion Heq. lia.
  - destruct (resolveReferences [] config) as [[] c1].
    + inversion Heq. lia.
    + destruct (resolveCycles cycles c1) as [[r c2] n] eqn:Hrec.
      inversion Heq; subst. apply IH in Hrec. lia.
    + inversion Heq. lia.
Qed.

Lemma resolveCycles_Resolved (cycles : nat) :
  ∀ config config' passes,
    resolveCycles cycles config = (Resolved, config', passes) →
    isFullyResolved config' = true.
Proof.
  induction cycles as [|cycles IH]; intros config config' passes Heq; simpl in Heq.
  - done.
  - destruct (resolveReferences [] config) as [[] c1] eqn:Hpass.
    + inversion Heq; subst. by eapply resolveReferences_Resolved.
    + destruct (resolveCycles cycles c1) as [[r c2] n] eqn:Hrec.
      inversion Heq; subst. by eapply IH.
    + done.
Qed.

Lemma resolveAndTransform_fully_resolved this config sourceNode destinationNode t :
  resolveAndTransform this config sourceNode destinationNode = Done t →
  isFullyResolved t = true.
Proof.
  unfold resolveAndTransform.
  destruct (resolveCycles _ config) as [[[] c] n] eqn:Hloop; [|done|done].
  destruct (transformConfig c sourceNode destinationNode) as [t'|] eqn:Ht; [|done].
  simpl. inversion 1; subst.
  eapply transformConfig_fully_resolved; [|exact Ht].
  by eapply resolveCycles_Resolved.
Qed.

(** ** The files that can be open

    With no file handle left, [read] returns no tree. *)

Lemma read_no_handle this absoluteFilePath absoluteDir files
    filePath workingDir sourceNode destinationNode :
  isNullResult (read this absoluteFilePath absoluteDir files 0 filePath workingDir
                  sourceNode destinationNode) = true.
Proof.
  cbn [read]. destruct (_ || _); [done|]. destruct (_ || _); [done|].
  by destruct (files _) as [| | |[]].
Qed.

Lemma read_no_handle_Done this absoluteFilePath absoluteDir files
    filePath workingDir sourceNode destinationNode t :
  read this absoluteFilePath absoluteDir files 0 filePath workingDir
    sourceNode destinationNode ≠ Done t.
Proof.
  intros Hread.
  pose proof (read_no_handle this absoluteFilePath absoluteDir files
                filePath workingDir sourceNode destinationNode) as Hnull.
  by rewrite Hread in Hnull.
Qed.

Lemma read_resolveAndTransform this absoluteFilePath absoluteDir files
    depth filePath workingDir sourceNode destinationNode t :
  read this absoluteFilePath absoluteDir files depth filePath workingDir
    sourceNode destinationNode = Done t →
  ∃ merged, resolveAndTransform this merged sourceNode destinationNode = Done t.
Proof.
  destruct depth as [|depth]; [by intros ?%read_no_handle_Done|]. simpl.
  destruct (_ || _); [done|]. destruct (_ || _); [done|].
  destruct (files _) as [| | |doc]; try done.
  destruct doc as [| | | | |rootObject|]; try done.
  destruct (readIncludesMember _ _ _) as [inc|e]; try done. simpl.
  destruct (readConfigMember rootObject) as [cfg|e]; try done. simpl.
  destruct (applyObject inc cfg) as [merged|]; try done. simpl.
  eauto.
Qed.

(** ** The order of enumeration *)

Lemma memberNames_to_list (ms : ObjectNodeData) :
  memberNames (Object ms) = reverse (map_to_list ms).*1.
Proof.
  simpl. rewrite map_fold_foldr.
  induction (map_to_list ms) as [|[k c] l IH]; simpl; [done|].
  by rewrite IH, reverse_cons.
Qed.

Lemma memberNames_same_names (ms1 ms2 : ObjectNodeData) :
  (∀ name, is_Some (ms1 !! name) ↔ is_Some (ms2 !! name)) →
  memberNames (Object ms1) = memberNames (Object ms2).
Proof.
  intros Hdom. rewrite !memberNames_to_list. f_equal.
  assert ((λ _ : ConfigNode, ()) <$> ms1 = (λ _ : ConfigNode, ()) <$> ms2) as Heq.
  { apply map_eq. intros j. destruct (Hdom j) as [H12 H21]. rewrite !lookup_fmap.
    destruct (ms1 !! j) as [c1|], (ms2 !! j) as [c2|]; simpl; [done| | |done].
    - assert (is_Some (None : option ConfigNode)) as [? ?] by eauto. done.
    - assert (is_Some (None : option ConfigNode)) as [? ?] by eauto. done. }
  apply (f_equal (λ m, (map_to_list m).*1)) in Heq.
  rewrite !map_to_list_fmap in Heq.
  rewrite <- !list_fmap_compose in Heq.
  etrans; [|etrans; [exact Heq|]]; apply list_fmap_ext; by intros ? [].
Qed.

Lemma map_fold_memberNames {B} (f : string → ConfigNode → B → B) (b : B)
    (ms : ObjectNodeData) :
  map_fold f b ms =
  foldl (λ acc name, match ms !! name with
                     | Some c => f name c acc
                     | None => acc
                     end) b (memberNames (Object ms)).
Proof.
  rewrite memberNames_to_list, map_fold_foldr.
  assert (∀ k c, (k, c) ∈ map_to_list ms → ms !! k = Some c) as Hl
    by (intros k c; apply elem_of_map_to_list).
  induction (map_to_list ms) as [|[k c] l IH]; [done|].
  rewrite fmap_cons, reverse_cons, foldl_app. cbn [foldr foldl fst uncurry].
  rewrite <- IH by (intros k' c' Hin; apply Hl; by right).
  by rewrite (Hl k c) by left.
Qed.

(** ** The loops of a pass read the current children *)

Lemma withValue_contains {A : Type} (key : string) (present : QJsonValue → A)
    (missing : A) (o : QJsonObject) :
  withValue key present missing o =
  if Json.contains o key then present (Json.value o key) else missing.
Proof.
  induction o as [|[k v] o IH]; simpl; [done|].
  destruct (String.eqb k key); [done|]. exact IH.
Qed.

Section CurrentChildren.

Variable resolve : list Frame → ConfigNode → ReferenceResolutionResult * ConfigNode.

Lemma resolveMember_other ctx name child st other :
  other ≠ name →
  (resolveMember resolve ctx name child st).2 !! other = st.2 !! other.
Proof.
  intros Hne. unfold resolveMember. destruct st as [[] cur]; simpl; [| |done];
    destruct (resolve _ child) as [[] child']; simpl; by rewrite lookup_insert_ne.
Qed.

Lemma resolveMembers_by_name ctx (ms : ObjectNodeData) (names : list string) :
  NoDup names →
  ∀ st,
    (∀ name, name ∈ names → st.2 !! name = ms !! name) →
    foldl (λ st name, match ms !! name with
                      | Some c => resolveMember resolve ctx name c st
                      | None => st
                      end) st names =
    foldl (λ st name, match st.2 !! name with
                      | Some child => resolveMember resolve ctx name child st
                      | None => st
                      end) st names.
Proof.
  induction 1 as [|name names Hfresh Hnames IH]; intros st Hst; simpl; [done|].
  rewrite (Hst name) by left.
  apply IH. intros other Hother.
  destruct (ms !! name) as [c|]; [|apply Hst; by right].
  rewrite resolveMember_other; [apply Hst; by right|].
  intros ->. done.
Qed.

Lemma resolveObjectReferences_by_name ctx (ms : ObjectNodeData) :
  resolveObjectReferences resolve ctx ms =
  resolveObjectReferencesByName resolve ctx ms.
Proof.
  unfold resolveObjectReferences, resolveObjectReferencesByName.
  rewrite (map_fold_memberNames (resolveMember resolve ctx) (Resolved, ms) ms).
  rewrite resolveMembers_by_name; [done| |done].
  rewrite memberNames_to_list, reverse_Permutation. apply NoDup_fst_map_to_list.
Qed.

Lemma resolveElements_at frame ctx (todo : list ConfigNode) :
  ∀ i result cur,
    drop i cur = todo →
    resolveElements resolve frame ctx todo i result cur =
    resolveElementsAt resolve frame ctx (length todo) i result cur.
Proof.
  induction todo as [|e todo IH]; intros i result cur Hdrop; simpl; [done|].
  assert (cur !! i = Some e) as ->.
  { rewrite <- (Nat.add_0_r i), <- lookup_drop, Hdrop. done. }
  assert (∀ e', drop (S i) (<[i := e']> cur) = todo) as Hnext.
  { intros e'. rewrite drop_insert_lt by lia.
    change (S i) with (1 + i). rewrite Nat.add_comm, <- drop_drop, Hdrop. done. }
  destruct (resolve _ e) as [[] e']; [|by rewrite IH|done].
  by rewrite IH.
Qed.

End CurrentChildren.

(** ** The stages of [read] *)

(** [read] on a file that holds a JSON object, with valid node paths *)
Lemma read_document this absoluteFilePath absoluteDir files depth
    filePath workingDir sourceNode destinationNode rootObject :
  NodePath.isAbsoluteNodePath sourceNode = true →
  NodePath.validateNodePath sourceNode = true →
  NodePath.isAbsoluteNodePath destinationNode = true →
  NodePath.validateNodePath destinationNode = true →
  files (absoluteFilePath workingDir filePath) = FileDocument (JObject rootObject) →
  read this absoluteFilePath absoluteDir files (S depth) filePath workingDir
    sourceNode destinationNode =
  (completeConfig ←
     readIncludesMember (read this absoluteFilePath absoluteDir files depth)
       rootObject (absoluteDir (absoluteFilePath workingDir filePath));
   configMember ← readConfigMember rootObject;
   merged ← orFail ConfigApplyFailed (applyObject completeConfig configMember);
   resolveAndTransform this merged sourceNode destinationNode).
Proof.
  intros Hs1 Hs2 Hd1 Hd2 Hfile. simpl. by rewrite Hs1, Hs2, Hd1, Hd2, Hfile.
Qed.

(** once the includes and the config member are read and merged, the result
    of [read] is that of the resolution loop and the transformation *)
Lemma read_reaches_resolution this absoluteFilePath absoluteDir files depth
    filePath workingDir sourceNode destinationNode rootObject
    completeConfig configMember merged :
  NodePath.isAbsoluteNodePath sourceNode = true →
  NodePath.validateNodePath sourceNode = true →
  NodePath.isAbsoluteNodePath destinationNode = true →
  NodePath.validateNodePath destinationNode = true →
  files (absoluteFilePath workingDir filePath) = FileDocument (JObject rootObject) →
  readIncludesMember (read this absoluteFilePath absoluteDir files depth)
    rootObject (absoluteDir (absoluteFilePath workingDir filePath))
    = Done completeConfig →
  readConfigMember rootObject = Done configMember →
  applyObject completeConfig configMember = Some merged →
  read this absoluteFilePath absoluteDir files (S depth) filePath workingDir
    sourceNode destinationNode =
  resolveAndTransform this merged sourceNode destinationNode.
Proof.
  intros Hs1 Hs2 Hd1 Hd2 Hfile Hinc Hcfg Happ.
  rewrite (read_document _ _ _ _ _ _ _ _ _ rootObject) by done.
  rewrite Hinc. simpl. rewrite Hcfg. simpl. by rewrite Happ.
Qed.

(** ** The scenarios of the specification *)

Example read_plain :
  Doc.load Impl_new "plain.json" "/" "/" =
  Done (Object (<["a" := Doc.val 1]>
               (<["b" := Object {["c" := Value (JString "x")]}]> ∅))).
Proof. vm_compute. reflexivity. Qed.

Example read_forward_reference :
  Doc.load Impl_new "forward.json" "/" "/" =
  Done (Object (<["a" := Doc.val 7]> (<["b" := Doc.val 7]> ∅))).
Proof. vm_compute. reflexivity. Qed.

Example read_derived_object :
  Doc.load Impl_new "derived.json" "/child" "/" =
  Done (Object (<["p" := Doc.val 1]> (<["q" := Doc.val 9]> (<["r" := Doc.val 3]> ∅)))).
Proof. vm_compute. reflexivity. Qed.

Example read_relocated :
  Doc.load Impl_new "base.json" "/x" "/here/there" =
  Done (Object {["here" := Object {["there" := Doc.val 1]}]}).
Proof. vm_compute. reflexivity. Qed.

(** ** C1: the cycle limit *)

Lemma resolveCycles_all_Unresolved (cycles : nat) :
  ∀ config config',
    afterUnresolved cycles config = Some config' →
    resolveCycles cycles config = (Unresolved, config', cycles).
Proof.
  induction cycles as [|cycles IH]; intros config config' Hafter; simpl in *.
  - by inversion Hafter.
  - destruct (resolveReferences [] config) as [[] c1]; try done.
    by rewrite (IH _ _ Hafter).
Qed.

Lemma resolveCycles_first_outcome (k : nat) :
  ∀ cycles config ck result config',
    afterUnresolved k config = Some ck →
    resolveReferences [] ck = (result, config') →
    result ≠ Unresolved →
    k < cycles →
    resolveCycles cycles config = (result, config', S k).
Proof.
  induction k as [|k IH]; intros cycles config ck result config' Hafter Hpass Hres Hlt;
    (destruct cycles as [|cycles]; [lia|]); simpl in *.
  - inversion Hafter; subst ck. rewrite Hpass. by destruct result.
  - destruct (resolveReferences [] config) as [[] c1]; try done.
    rewrite (IH cycles c1 ck result config'); [done..|lia].
Qed.

Lemma resolveCycles_cases (cycles : nat) :
  ∀ config,
    ∃ result config' passes,
      resolveCycles cycles config = (result, config', passes) ∧
      passes ≤ cycles ∧
      match result with
      | Unresolved => passes = cycles ∧ afterUnresolved cycles config = Some config'
      | _ => ∃ k ck, passes = S k ∧ afterUnresolved k config = Some ck ∧
                     resolveReferences [] ck = (result, config')
      end.
Proof.
  induction cycles as [|cycles IH]; intros config; simpl.
  - exists Unresolved, config, 0. repeat split; lia.
  - destruct (resolveReferences [] config) as [[] c1] eqn:Hpass.
    + exists Resolved, c1, 1. repeat split; [lia|]. by exists 0, config.
    + destruct (IH c1) as (result & config' & passes & -> & Hle & Hcase).
      exists result, config', (S passes). repeat split; [lia|].
      destruct result.
      * destruct Hcase as (k & ck & -> & Hafter & Hk).
        exists (S k), ck. simpl. by rewrite Hpass.
      * destruct Hcase as [-> Hafter]. by rewrite Hafter.
      * destruct Hcase as (k & ck & -> & Hafter & Hk).
        exists (S k), ck. simpl. by rewrite Hpass.
    + exists Error, c1, 1. repeat split; [lia|]. by exists 0, config.
Qed.

Lemma afterUnresolved_step (k : nat) (config config' : ConfigNode) :
  resolveReferences [] config = (Unresolved, config') →
  afterUnresolved (S k) config = afterUnresolved k config'.
Proof. intros Hpass. cbn [afterUnresolved]. by rewrite Hpass. Qed.

Lemma afterUnresolved_fixpoint (config : ConfigNode) :
  resolveReferences [] config = (Unresolved, config) →
  ∀ k, afterUnresolved k config = Some config.
Proof. intros Hpass k. induction k as [|k IH]; simpl; [done|]. by rewrite Hpass. Qed.

Lemma selfTree_pass : resolveReferences [] Doc.selfTree = (Unresolved, Doc.selfTree).
Proof. vm_compute. reflexivity. Qed.

Lemma mutualTree_pass :
  resolveReferences [] Doc.mutualTree = (Unresolved, Doc.mutualTree') ∧
  resolveReferences [] Doc.mutualTree' = (Unresolved, Doc.mutualTree').
Proof. split; vm_compute; reflexivity. Qed.

Lemma load_self this :
  Doc.load this "self.json" "/" "/" = resolveAndTransform this Doc.selfTree "/" "/".
Proof. reflexivity. Qed.

Lemma load_mutual this :
  Doc.load this "mutual.json" "/" "/" = resolveAndTransform this Doc.mutualTree "/" "/".
Proof. reflexivity. Qed.

(** C1. The cycle limit is 100 by default and the setter takes the values
    from 1 on. Once a document and its includes are read and merged, [read]
    is the resolution loop followed by the transformation. On every merged
    configuration the loop calls the pass over the root at most as many times
    as the limit says and stops at the first pass that does not answer
    [Unresolved]: after a [Resolved] pass [read] goes on to the
    transformation of that tree, after an [Error] pass it returns null
    ("failed to resolve references"), and when every pass up to the limit
    answered [Unresolved] it returns null ("failed to fully resolve
    references"). A reference to itself and two references to each other end
    in that last error after exactly as many passes as the limit, whatever
    the limit is. *)
Theorem read_resolution_cycle_bound :
  referenceResolutionMaxCycles Impl_new = 100%Z ∧
  (∀ this v this',
     setReferenceResolutionMaxCycles this v = Some this' ↔
     (1 ≤ v mod 2 ^ 32)%Z ∧ this' = MkImpl (v mod 2 ^ 32)) ∧
  (∀ this config sourceNode destinationNode,
     let max := Z.to_nat (referenceResolutionMaxCycles this) in
     ∃ result config' passes,
       resolveCycles max config = (result, config', passes) ∧
       passes ≤ max ∧
       match result with
       | Resolved =>
           (∃ k ck, passes = S k ∧ afterUnresolved k config = Some ck ∧
                    resolveReferences [] ck = (Resolved, config')) ∧
           resolveAndTransform this config sourceNode destinationNode =
             orFail TransformFailed (transformConfig config' sourceNode destinationNode) ∧
           resolveAndTransform this config "/" "/" = Done config'
       | Error =>
           (∃ k ck, passes = S k ∧ afterUnresolved k config = Some ck ∧
                    resolveReferences [] ck = (Error, config')) ∧
           resolveAndTransform this config sourceNode destinationNode = Fail ResolveFailed
       | Unresolved =>
           passes = max ∧ afterUnresolved max config = Some config' ∧
           resolveAndTransform this config sourceNode destinationNode =
             Fail ResolveIncomplete
       end) ∧
  (∀ this absoluteFilePath absoluteDir files depth filePath workingDir
      sourceNode destinationNode rootObject completeConfig configMember merged,
     NodePath.isAbsoluteNodePath sourceNode = true →
     NodePath.validateNodePath sourceNode = true →
     NodePath.isAbsoluteNodePath destinationNode = true →
     NodePath.validateNodePath destinationNode = true →
     files (absoluteFilePath workingDir filePath) = FileDocument (JObject rootObject) →
     readIncludesMember (read this absoluteFilePath absoluteDir files depth)
       rootObject (absoluteDir (absoluteFilePath workingDir filePath))
       = Done completeConfig →
     readConfigMember rootObject = Done configMember →
     applyObject completeConfig configMember = Some merged →
     read this absoluteFilePath absoluteDir files (S depth) filePath workingDir
       sourceNode destinationNode =
     resolveAndTransform this merged sourceNode destinationNode) ∧
  (∀ this,
     let max := Z.to_nat (referenceResolutionMaxCycles this) in
     resolveCycles max Doc.selfTree = (Unresolved, Doc.selfTree, max) ∧
     Doc.load this "self.json" "/" "/" = Fail ResolveIncomplete ∧
     (∃ tree, resolveCycles max Doc.mutualTree = (Unresolved, tree, max)) ∧
     Doc.load this "mutual.json" "/" "/" = Fail ResolveIncomplete).
Proof.
  split; [reflexivity|]. split; [|split; [|split]].
  - intros this v this'. unfold setReferenceResolutionMaxCycles.
    destruct (Z.ltb_spec 0 (v mod 2 ^ 32)) as [Hpos|Hneg]; split.
    + intros Heq. inversion Heq. split; [lia|done].
    + by intros [_ ->].
    + done.
    + intros [Hle _]. lia.
  - intros this config sourceNode destinationNode max.
    destruct (resolveCycles_cases max config)
      as (result & config' & passes & Hloop & Hle & Hcase).
    exists result, config', passes. split; [done|]. split; [done|].
    unfold resolveAndTransform, referenceResolutionMaxCycles in *. fold max.
    rewrite Hloop. destruct result.
    + split; [done|]. split; [done|]. reflexivity.
    + destruct Hcase as [-> Hafter]. done.
    + done.
  - intros. by eapply read_reaches_resolution.
  - intros this max.
    assert (resolveCycles max Doc.selfTree = (Unresolved, Doc.selfTree, max)) as Hself.
    { apply resolveCycles_all_Unresolved, afterUnresolved_fixpoint, selfTree_pass. }
    assert (∃ tree, resolveCycles max Doc.mutualTree = (Unresolved, tree, max))
      as [tree Hmutual].
    { destruct mutualTree_pass as [H0 H1].
      destruct max as [|max']; [by exists Doc.mutualTree|].
      exists Doc.mutualTree'. apply resolveCycles_all_Unresolved.
      rewrite (afterUnresolved_step _ _ _ H0). by apply afterUnresolved_fixpoint. }
    split; [done|]. split; [|split; [by exists tree|]].
    + rewrite load_self. unfold resolveAndTransform.
      unfold referenceResolutionMaxCycles in max. fold max. by rewrite Hself.
    + rewrite load_mutual. unfold resolveAndTransform.
      unfold referenceResolutionMaxCycles in max. fold max. by rewrite Hmutual.
Qed.

Lemma read_resolution_cycle_bound_witness :
  setReferenceResolutionMaxCycles Impl_new 3 = Some (MkImpl 3) ∧
  Doc.load (MkImpl 3) "mutual.json" "/" "/" = Fail ResolveIncomplete.
Proof.
  destruct read_resolution_cycle_bound as (_ & Hset & _ & _ & Hloops).
  split.
  - apply (Hset Impl_new 3%Z (MkImpl 3)). split; [vm_compute; discriminate|reflexivity].
  - apply (Hloops (MkImpl 3)).
Defined.

(** ** C2: node references *)

(** C2. A NodeReference without a parent is an Error. With a parent, the
    stored reference is looked up from the parent: when nothing is found the
    outcome is Unresolved and the node stays as it is; when a target is found
    the node becomes a clone of the target, in the same slot of the same
    parent, and the outcome is Resolved when the clone has only the kinds
    Null, Value, Array and Object, and Unresolved otherwise. *)
Theorem resolveNodeReference_behaviour :
  (∀ reference,
     resolveReferences [] (NodeReference reference) = (Error, NodeReference reference)) ∧
  (∀ f ctx reference,
     nodeAtPath (plug (NodeReference reference) f) ctx reference = None →
     resolveReferences (f :: ctx) (NodeReference reference) =
       (Unresolved, NodeReference reference)) ∧
  (∀ f ctx reference target,
     nodeAtPath (plug (NodeReference reference) f) ctx reference = Some target →
     resolveReferences (f :: ctx) (NodeReference reference) =
       (if isFullyResolved target then Resolved else Unresolved, clone target) ∧
     clone target = target ∧
     (isFullyResolved target = true ↔ OnlyPlainKinds target)) ∧
  (∀ ctx name reference result cur target,
     result ≠ Error →
     nodeAtPath (Object (<[name := NodeReference reference]> cur)) ctx reference
       = Some target →
     resolveMember resolveReferences ctx name (NodeReference reference) (result, cur) =
       (if isFullyResolved target then result else Unresolved,
        <[name := clone target]> cur)).
Proof.
  split; [done|]. split; [|split].
  - intros f ctx reference Hmiss. simpl. unfold resolveNodeReference. by rewrite Hmiss.
  - intros f ctx reference target Hfound. split; [|split].
    + simpl. unfold resolveNodeReference. by rewrite Hfound.
    + done.
    + apply isFullyResolved_plain.
  - intros ctx name reference result cur target Hres Hfound.
    destruct result; [| |done];
      unfold resolveMember; simpl resolveReferences; unfold resolveNodeReference.
    all: change (plug (NodeReference reference) (MkFrame (Object cur) (InMember name)))
           with (Object (<[name := NodeReference reference]> cur));
      rewrite Hfound; unfold clone; by destruct (isFullyResolved target).
Qed.

Lemma resolveNodeReference_behaviour_witness :
  resolveReferences
    [MkFrame (Object (<["a" := NodeReference "/b"]> {["b" := Doc.val 7]})) (InMember "a")]
    (NodeReference "/b") = (Resolved, Doc.val 7).
Proof.
  destruct resolveNodeReference_behaviour as (_ & _ & Hfound & _).
  apply (Hfound (MkFrame (Object (<["a" := NodeReference "/b"]> {["b" := Doc.val 7]}))
                   (InMember "a")) [] "/b" (Doc.val 7)).
  vm_compute. reflexivity.
Defined.

(** ** C3: derived objects *)

Lemma applyBases_app parentNode ctx (before after : list string) :
  ∀ derived,
    applyBases parentNode ctx (before ++ after) derived =
    match applyBases parentNode ctx before derived with
    | inr derived' => applyBases parentNode ctx after derived'
    | inl result => inl result
    end.
Proof.
  induction before as [|base before IH]; intros derived; simpl; [done|].
  destruct (nodeAtPath parentNode ctx base) as [baseNode|]; [|done].
  destruct (negb (isFullyResolved baseNode)); [done|].
  destruct (applyObject derived baseNode) as [d|]; [|done].
  apply IH.
Qed.

Lemma applyAll_None (nodes : list ConfigNode) :
  foldl (λ a b, a ≫= λ a', applyObject a' b) None nodes = None.
Proof. induction nodes as [|b nodes IH]; simpl; done. Qed.

Lemma applyBases_applyAll parentNode ctx (bases : list string) (nodes : list ConfigNode) :
  Forall2 (λ base b, nodeAtPath parentNode ctx base = Some b ∧
                     isFullyResolved b = true) bases nodes →
  ∀ derived,
    applyBases parentNode ctx bases derived =
    match applyAll derived nodes with
    | Some derived' => inr derived'
    | None => inl Error
    end.
Proof.
  unfold applyAll.
  induction 1 as [|base b bases nodes [Hb Hfull] Hrest IH]; intros derived; simpl;
    [done|].
  rewrite Hb, Hfull. simpl.
  destruct (applyObject derived b) as [d|]; [apply IH|].
  by rewrite applyAll_None.
Qed.

(** C3. The bases of a derived object are looked up from the parent in the
    order of the list and merged onto an empty Object; a base that is
    missing, or not fully resolved, gives Unresolved and leaves the node as
    it is. After the bases the override, once it is fully resolved, is
    merged last and the node becomes the merged Object, with Resolved. What
    is merged later wins, so the override wins over every base: the bases
    [/a = {m:1}] and [/b = {m:2, n:3}] with the override [{n:7}] give
    [{m:2, n:7}]. *)
Theorem resolveDerivedObject_behaviour :
  (∀ f ctx before base after config derived,
     let node := DerivedObject (before ++ base :: after) config in
     applyBases (plug node f) ctx before (Object ∅) = inr derived →
     (nodeAtPath (plug node f) ctx base = None ∨
      ∃ b, nodeAtPath (plug node f) ctx base = Some b ∧ isFullyResolved b = false) →
     resolveReferences (f :: ctx) node = (Unresolved, node)) ∧
  (∀ parentNode ctx bases nodes,
     Forall2 (λ base b, nodeAtPath parentNode ctx base = Some b ∧
                        isFullyResolved b = true) bases nodes →
     applyBases parentNode ctx bases (Object ∅) =
       match applyAll (Object ∅) nodes with
       | Some derived => inr derived
       | None => inl Error
       end) ∧
  (∀ f ctx bases config derived,
     let node := DerivedObject bases config in
     applyBases (plug node f) ctx bases (Object ∅) = inr derived →
     isFullyResolved config = true →
     (config = Null → resolveReferences (f :: ctx) node = (Resolved, derived)) ∧
     (∀ merged, applyObject derived config = Some merged →
                resolveReferences (f :: ctx) node = (Resolved, merged))) ∧
  (∀ f ctx bases config derived result config',
     let node := DerivedObject bases config in
     applyBases (plug node f) ctx bases (Object ∅) = inr derived →
     isFullyResolved config = false →
     resolveReferences (MkFrame (plug node f) Detached :: ctx) config = (result, config') →
     resolveReferences (f :: ctx) node =
       match result with
       | Resolved => applyOverride bases config' derived
       | Unresolved => (Unresolved, DerivedObject bases config')
       | Error => (Error, node)
       end) ∧
  (∀ dst src merged names v,
     applyObject dst src = Some merged →
     descend names src = Some v → isObject v = false →
     descend names merged = Some v) ∧
  Doc.load Impl_new "multi.json" "/d" "/" =
    Done (Object (<["m" := Doc.val 2]> (<["n" := Doc.val 7]> ∅))).
Proof.
  split; [|split; [|split; [|split; [|split]]]].
  - intros f ctx before base after config derived node Hbefore Hbase.
    simpl. unfold resolveDerivedObjectReferences. fold node.
    rewrite applyBases_app, Hbefore. cbn [applyBases].
    destruct Hbase as [->|(b & -> & ->)]; [done|by simpl].
  - intros parentNode ctx bases nodes Hall. by apply applyBases_applyAll.
  - intros f ctx bases config derived node Hbases Hfull.
    simpl. unfold resolveDerivedObjectReferences. fold node.
    rewrite Hbases, Hfull. simpl. unfold applyOverride. split.
    + by intros ->.
    + intros merged Happ. rewrite Happ.
      by apply applyObject_Some_inv in Happ as (d & s & m & _ & -> & _).
  - intros f ctx bases config derived result config' node Hbases Hfull Hres.
    simpl. unfold resolveDerivedObjectReferences. fold node.
    rewrite Hbases, Hfull. simpl. unfold clone. rewrite Hres. by destruct result.
  - intros dst src merged names v. apply applyObject_descend.
  - vm_compute. reflexivity.
Qed.

Lemma resolveDerivedObject_behaviour_witness :
  resolveReferences
    [MkFrame (Object {["a" := Object {["m" := Doc.val 1]}]}) (InMember "d")]
    (DerivedObject ["/a"] Null) = (Resolved, Object {["m" := Doc.val 1]}).
Proof.
  destruct resolveDerivedObject_behaviour as (_ & _ & Hlast & _).
  refine (proj1 (Hlast
    (MkFrame (Object {["a" := Object {["m" := Doc.val 1]}]}) (InMember "d"))
    [] ["/a"] Null (Object {["m" := Doc.val 1]}) _ _) _).
  - vm_compute. reflexivity.
  - reflexivity.
  - reflexivity.
Defined.

(** ** C4: the config member over the includes *)

(** the reader of [ConfigReader.cpp] reads no included file: the aggregate
    that meets the config member is an empty Object, whatever [apply] does *)
Lemma draft_checkIncludes (includesArray : list QJsonValue) :
  ∀ i includesConfig,
    forallb Json.isObject includesArray = true →
    Draft.checkIncludesFrom includesArray i includesConfig = Done includesConfig.
Proof.
  induction includesArray as [|includeValue rest IH]; intros i includesConfig Hall;
    simpl in *; [done|].
  apply andb_true_iff in Hall as [-> Hrest]. simpl. by apply IH.
Qed.

Lemma draft_read_loads_no_include apply files filePath sourceNode destinationNode
    rootObject includesArray :
  NodePath.isAbsoluteNodePath sourceNode = true →
  NodePath.validateNodePath sourceNode = true →
  NodePath.isAbsoluteNodePath destinationNode = true →
  NodePath.validateNodePath destinationNode = true →
  files filePath = FileDocument (JObject rootObject) →
  Json.value rootObject "includes" = JArray includesArray →
  forallb Json.isObject includesArray = true →
  Draft.read apply files filePath sourceNode destinationNode =
  (config ← Draft.readConfigMember rootObject;
   orFail ConfigApplyFailed (apply config (Object ∅))).
Proof.
  intros Hs1 Hs2 Hd1 Hd2 Hfile Hincludes Hall.
  unfold Draft.read, Draft.readIncludesMember.
  rewrite Hs1, Hs2, Hd1, Hd2, Hfile, Hincludes. simpl.
  by rewrite draft_checkIncludes.
Qed.

Example draft_read_top :
  Draft.read applyObject Doc.files "top.json" "/" "/" =
  Done (Object (<["y" := Doc.val 9]> (<["z" := Doc.val 3]> ∅))).
Proof. vm_compute. reflexivity. Qed.

(** C4, as it stands, fails where the include and the config both hold an
    Object under one name: [/a] is [{x:1}] in the include and [{y:2}] in
    the config, and [read] returns [{x:1, y:2}] there. *)
Lemma config_object_is_merged_not_replaced :
  Doc.load Impl_new "nested_base.json" "/" "/" = Done Doc.nestedIncludes ∧
  readConfigMember [("config", JObject [("a", JObject [("y", Doc.num 2)])])]
    = Done Doc.nestedConfig ∧
  applyObject Doc.nestedIncludes Doc.nestedConfig = Some Doc.nestedMerged ∧
  Doc.load Impl_new "nested_top.json" "/" "/" = Done Doc.nestedMerged ∧
  descend ["a"] Doc.nestedIncludes = Some (Object {["x" := Doc.val 1]}) ∧
  descend ["a"] Doc.nestedConfig = Some (Object {["y" := Doc.val 2]}) ∧
  descend ["a"] Doc.nestedMerged ≠ descend ["a"] Doc.nestedConfig ∧
  ¬ ConfigReplacesAtEveryPath.
Proof.
  assert (descend ["a"] Doc.nestedMerged ≠ descend ["a"] Doc.nestedConfig) as Hne.
  { vm_compute. intros Heq. discriminate Heq. }
  do 6 (split; [vm_compute; reflexivity|]).
  split; [exact Hne|].
  intros Hclaim. apply Hne.
  apply (Hclaim Doc.nestedIncludes Doc.nestedConfig Doc.nestedMerged ["a"]
           (Object {["x" := Doc.val 1]}) (Object {["y" := Doc.val 2]}));
    vm_compute; reflexivity.
Qed.

Lemma applyObject_member (includes config merged : ConfigNode) (name : string) :
  applyObject includes config = Some merged →
  member merged name =
    match member config name with
    | Some c => Some (mergeMember (member includes name) c)
    | None => member includes name
    end.
Proof.
  intros Happ. apply applyObject_Some_inv in Happ as (d & s & m & -> & -> & -> & Hm).
  simpl. apply Hm.
Qed.

(** C4 (amended). [read] merges the config member onto the aggregate of the
    includes. At every member path where the config holds a node that is not
    an Object, the merged tree holds that node: the config wins over all
    includes. Where the config and the aggregate both hold an Object under a
    name, the two are merged member by member; a member that only the
    aggregate has is kept. Including [base.json] with [{x:1, y:2}] from
    [top.json] with [{y:9, z:3}] gives [{x:1, y:9, z:3}]. *)
Theorem read_applies_config_onto_includes :
  (∀ this absoluteFilePath absoluteDir files depth filePath workingDir
      sourceNode destinationNode rootObject,
     NodePath.isAbsoluteNodePath sourceNode = true →
     NodePath.validateNodePath sourceNode = true →
     NodePath.isAbsoluteNodePath destinationNode = true →
     NodePath.validateNodePath destinationNode = true →
     files (absoluteFilePath workingDir filePath) = FileDocument (JObject rootObject) →
     read this absoluteFilePath absoluteDir files (S depth) filePath workingDir
       sourceNode destinationNode =
     (completeConfig ←
        readIncludesMember (read this absoluteFilePath absoluteDir files depth)
          rootObject (absoluteDir (absoluteFilePath workingDir filePath));
      configMember ← readConfigMember rootObject;
      merged ← orFail ConfigApplyFailed (applyObject completeConfig configMember);
      resolveAndTransform this merged sourceNode destinationNode)) ∧
  (∀ includes config merged names v,
     applyObject includes config = Some merged →
     descend names config = Some v → isObject v = false →
     descend names merged = Some v) ∧
  (∀ includes config merged name oi oc,
     applyObject includes config = Some merged →
     member includes name = Some (Object oi) →
     member config name = Some (Object oc) →
     member merged name = applyObject (Object oi) (Object oc)) ∧
  (∀ includes config merged name,
     applyObject includes config = Some merged →
     member config name = None →
     member merged name = member includes name) ∧
  Doc.load Impl_new "top.json" "/" "/" =
    Done (Object (<["x" := Doc.val 1]> (<["y" := Doc.val 9]> (<["z" := Doc.val 3]> ∅)))).
Proof.
  split; [|split; [|split; [|split]]].
  - intros. by apply read_document.
  - intros includes config merged names v. apply applyObject_descend.
  - intros includes config merged name oi oc Happ Hi Hc.
    rewrite (applyObject_member _ _ _ name Happ), Hi, Hc.
    unfold mergeMember.
    destruct (applyObject_Object oi oc) as (r & Hr & _). by rewrite Hr.
  - intros includes config merged name Happ Hc.
    by rewrite (applyObject_member _ _ _ name Happ), Hc.
  - vm_compute. reflexivity.
Qed.

Lemma read_applies_config_onto_includes_witness :
  descend ["y"] (Object (<["x" := Doc.val 1]> (<["y" := Doc.val 9]> (<["z" := Doc.val 3]> ∅))))
  = Some (Doc.val 9).
Proof.
  destruct read_applies_config_onto_includes as (_ & Hwins & _).
  apply (Hwins (Object (<["x" := Doc.val 1]> {["y" := Doc.val 2]}))
               (Object (<["y" := Doc.val 9]> {["z" := Doc.val 3]}))
               _ ["y"] (Doc.val 9)).
  - vm_compute. reflexivity.
  - vm_compute. reflexivity.
  - reflexivity.
Defined.

(** ** C5: the config member *)

Lemma value_absent (o : QJsonObject) (key : string) :
  Json.contains o key = false → Json.value o key = JUndefined.
Proof.
  induction o as [|[k v] o IH]; simpl; [done|].
  destruct (String.eqb k key); [done|]. exact IH.
Qed.

(** C5, as it stands, fails for a document without a config member:
    [value("config")] is Undefined there, which is neither null nor an
    object, and the reader returns null. It also fails for a config object
    with a member name that is no node name: the member is present and a
    JSON object, and reading it fails. *)
Lemma absent_config_is_an_error :
  Json.contains [("includes", JArray [])] "config" = false ∧
  readConfigMember [("includes", JArray [])] = Fail ConfigNotObject ∧
  read Impl_new Doc.sameDirectory Doc.noDirectory
    (λ _, FileDocument (JObject [("includes", JArray [])])) 2 "only_includes.json" ""
    "/" "/" = Fail ConfigNotObject ∧
  readConfigMember [("config", JObject [("1x", JNull)])] = Fail ConfigReadFailed.
Proof. repeat split; vm_compute; reflexivity. Qed.

(** C5 (amended). A config member that is JSON null is read as a Null node.
    A document without a config member is an error, as is a config member
    that is neither null nor a JSON object; a config member that is a JSON
    object is read by [readJsonObject] at the path [/], and the read fails
    when that fails. There is no other failure. *)
Theorem readConfigMember_cases (rootObject : QJsonObject) :
  (Json.value rootObject "config" = JNull → readConfigMember rootObject = Done Null) ∧
  (Json.contains rootObject "config" = false →
   readConfigMember rootObject = Fail ConfigNotObject) ∧
  (∀ o, Json.value rootObject "config" = JObject o →
        readConfigMember rootObject = orFail ConfigReadFailed (readJsonObject o "/")) ∧
  (isNullResult (readConfigMember rootObject) = true ↔
   match Json.value rootObject "config" with
   | JNull => False
   | JObject o => readJsonObject o "/" = None
   | _ => True
   end).
Proof.
  unfold readConfigMember. split; [|split; [|split]].
  - by intros ->.
  - intros Habsent. by rewrite (value_absent _ _ Habsent).
  - by intros o ->.
  - destruct (Json.value rootObject "config") as [| | | | |o|]; simpl; try done.
    destruct (readJsonObject o "/"); simpl; split; done.
Qed.

Lemma readConfigMember_cases_witness :
  readConfigMember [("includes", JNull); ("config", JNull)] = Done Null ∧
  readConfigMember [("includes", JNull)] = Fail ConfigNotObject.
Proof.
  split.
  - apply (readConfigMember_cases [("includes", JNull); ("config", JNull)]).
    reflexivity.
  - apply (readConfigMember_cases [("includes", JNull)]). reflexivity.
Defined.

(** ** C6: what a successful read returns *)

(** C6. Every tree that a successful [read] returns is fully resolved: all
    its nodes have one of the kinds Null, Value, Array and Object, whatever
    the files, the cycle limit, the depth of the includes and the source and
    destination paths are. *)
Theorem read_returns_only_plain_kinds
    this absoluteFilePath absoluteDir files depth
    filePath workingDir sourceNode destinationNode t :
  read this absoluteFilePath absoluteDir files depth filePath workingDir
    sourceNode destinationNode = Done t →
  isFullyResolved t = true ∧ OnlyPlainKinds t.
Proof.
  intros Hread.
  apply read_resolveAndTransform in Hread as [merged Hres].
  apply resolveAndTransform_fully_resolved in Hres.
  split; [done|]. by apply isFullyResolved_plain.
Qed.

Lemma read_returns_only_plain_kinds_witness :
  OnlyPlainKinds (Object (<["a" := Doc.val 7]> (<["b" := Doc.val 7]> ∅))).
Proof.
  apply (read_returns_only_plain_kinds Impl_new Doc.sameDirectory Doc.noDirectory
           Doc.files 2 "forward.json" "" "/" "/").
  vm_compute. reflexivity.
Defined.

(** the pass itself: a [Resolved] outcome on the root leaves no reference
    kind in the tree *)
Lemma resolveReferences_Resolved_plain (root root' : ConfigNode) :
  resolveReferences [] root = (Resolved, root') → OnlyPlainKinds root'.
Proof.
  intros H. apply isFullyResolved_plain. by eapply resolveReferences_Resolved.
Qed.

(** ** C7: the order of the members of an Object *)

(** *** The table and its contents *)

Lemma find_contents (e : Table.Entries) (name : string) :
  Table.contents e !! name = Table.find e name.
Proof.
  unfold Table.contents. induction e as [|[k node] e IH]; simpl; [done|].
  destruct (String.eqb k name) eqn:Heq.
  - apply String.eqb_eq in Heq as ->. apply lookup_insert_eq.
  - apply String.eqb_neq in Heq. by rewrite lookup_insert_ne.
Qed.

Lemma find_names (e : Table.Entries) (name : string) :
  is_Some (Table.find e name) ↔ name ∈ Table.names e.
Proof.
  unfold Table.names. induction e as [|[k node] e IH]; simpl.
  - split; [by intros [? ?]|by intros ?%elem_of_nil].
  - destruct (String.eqb k name) eqn:Heq.
    + apply String.eqb_eq in Heq as ->. split; [left|by eauto].
    + apply String.eqb_neq in Heq. rewrite IH. split; [by right|].
      intros [?|?]%elem_of_cons; [congruence|done].
Qed.

Lemma find_None_names (e : Table.Entries) (name : string) :
  Table.find e name = None ↔ name ∉ Table.names e.
Proof.
  rewrite <- find_names. destruct (Table.find e name) as [node|].
  - split; [done|]. intros Hnone. exfalso. apply Hnone. by eauto.
  - split; [|done]. intros _ [? ?]. done.
Qed.

Lemma names_replace (e : Table.Entries) (name : string) (node : ConfigNode) :
  Table.names (Table.replace e name node) = Table.names e.
Proof.
  unfold Table.names. induction e as [|[k old] e IH]; [done|].
  cbn [Table.replace]. destruct (String.eqb k name); [done|].
  rewrite !fmap_cons. by rewrite IH.
Qed.

Lemma find_replace (e : Table.Entries) (name other : string) (node : ConfigNode) :
  Table.find (Table.replace e name node) other =
  if String.eqb name other then (λ _, node) <$> Table.find e name else Table.find e other.
Proof.
  induction e as [|[k old] e IH]; simpl.
  - by destruct (String.eqb name other).
  - destruct (String.eqb k name) eqn:Hk; simpl.
    + apply String.eqb_eq in Hk as ->. by destruct (String.eqb name other).
    + rewrite IH. destruct (String.eqb name other) eqn:Hn; [|done].
      apply String.eqb_eq in Hn as <-. by rewrite Hk.
Qed.

Lemma replace_lookup (e : Table.Entries) (name : string) (node : ConfigNode) :
  NoDup (Table.names e) →
  ∀ i k old,
    e !! i = Some (k, old) →
    Table.replace e name node !! i = Some (k, if String.eqb k name then node else old).
Proof.
  unfold Table.names. induction e as [|[k' old'] e IH]; intros Hnodup i k old; [done|].
  apply NoDup_cons in Hnodup as [Hfresh Hnodup]. simpl.
  destruct (String.eqb k' name) eqn:Hk.
  - destruct i as [|i]; simpl.
    + inversion 1; subst. by rewrite Hk.
    + intros Hi. rewrite Hi. f_equal. f_equal.
      destruct (String.eqb k name) eqn:Hk2; [|done].
      apply String.eqb_eq in Hk as ->. apply String.eqb_eq in Hk2 as ->.
      exfalso. apply Hfresh. apply list_elem_of_fmap. exists (name, old).
      split; [done|]. by eapply list_elem_of_lookup_2.
  - destruct i as [|i]; simpl.
    + inversion 1; subst. by rewrite Hk.
    + by apply IH.
Qed.

Lemma contents_replace (e : Table.Entries) (name : string) (node : ConfigNode) :
  is_Some (Table.find e name) →
  Table.contents (Table.replace e name node) = <[name := node]> (Table.contents e).
Proof.
  intros [old Hold]. apply map_eq. intros other.
  rewrite find_contents, find_replace.
  destruct (String.eqb name other) eqn:Hn.
  - apply String.eqb_eq in Hn as <-. by rewrite lookup_insert_eq, Hold.
  - apply String.eqb_neq in Hn. by rewrite lookup_insert_ne, find_contents.
Qed.

Section Placed.

Variable place : Table.Placement.
Hypothesis permitted : Table.Permits place.

Lemma assign_NoDup (e : Table.Entries) (name : string) (node : ConfigNode) :
  NoDup (Table.names e) → NoDup (Table.names (Table.assign place e name node)).
Proof.
  intros Hnodup. unfold Table.assign.
  destruct (Table.find e name) as [old|] eqn:Hfind.
  - by rewrite names_replace.
  - unfold Table.names. rewrite (permitted e name node Hnodup Hfind). simpl.
    apply NoDup_cons. split; [|done]. by apply find_None_names.
Qed.

Lemma assign_contents (e : Table.Entries) (name : string) (node : ConfigNode) :
  NoDup (Table.names e) →
  Table.contents (Table.assign place e name node) = <[name := node]> (Table.contents e).
Proof.
  intros Hnodup. unfold Table.assign.
  destruct (Table.find e name) as [old|] eqn:Hfind.
  - apply contents_replace. by eauto.
  - unfold Table.contents.
    rewrite (list_to_map_proper (place e name node) ((name, node) :: e)); [done| |].
    + pose proof (assign_NoDup e name node Hnodup) as Hnew.
      unfold Table.assign in Hnew. by rewrite Hfind in Hnew.
    + by apply permitted.
Qed.

Lemma assign_new (e : Table.Entries) (name : string) (node : ConfigNode) :
  NoDup (Table.names e) → name ∉ Table.names e →
  Table.names (Table.assign place e name node) ≡ₚ name :: Table.names e.
Proof.
  intros Hnodup Hnew%find_None_names. unfold Table.assign. rewrite Hnew.
  unfold Table.names. by rewrite (permitted e name node Hnodup Hnew).
Qed.

Lemma assign_again (e : Table.Entries) (name : string) (node : ConfigNode) :
  name ∈ Table.names e →
  Table.assign place e name node = Table.replace e name node.
Proof.
  intros [old Hold]%find_names. unfold Table.assign. by rewrite Hold.
Qed.

Lemma build_from (history : list (string * ConfigNode)) :
  ∀ e,
    NoDup (Table.names e) →
    NoDup (Table.names (foldl (λ e kv, Table.assign place e kv.1 kv.2) e history)) ∧
    Table.contents (foldl (λ e kv, Table.assign place e kv.1 kv.2) e history) =
    foldl (λ ms kv, <[kv.1 := kv.2]> ms) (Table.contents e) history.
Proof.
  induction history as [|[k node] history IH]; intros e Hnodup; simpl; [done|].
  rewrite <- (assign_contents e k node Hnodup).
  apply IH. by apply assign_NoDup.
Qed.

End Placed.

Lemma foldl_insert_lookup (history : list (string * ConfigNode)) :
  ∀ (ms : ObjectNodeData) name,
    is_Some (foldl (λ ms kv, <[kv.1 := kv.2]> ms) ms history !! name) ↔
    is_Some (ms !! name) ∨ name ∈ history.*1.
Proof.
  induction history as [|[k node] history IH]; intros ms name; simpl.
  - split; [by left|]. intros [?|?%elem_of_nil]; done.
  - rewrite IH. destruct (decide (k = name)) as [->|Hne].
    + rewrite lookup_insert_eq. split; [intros _; right; left|by eauto].
    + rewrite lookup_insert_ne by done. split.
      * intros [?|?]; [by left|right; by right].
      * intros [?|[?|?]%elem_of_cons]; [by left|congruence|by right].
Qed.

Lemma foldl_setMember (history : list (string * ConfigNode)) :
  ∀ ms : ObjectNodeData,
    foldl (λ o kv, setMember o kv.1 kv.2) (Object ms) history =
    Object (foldl (λ ms kv, <[kv.1 := kv.2]> ms) ms history).
Proof.
  induction history as [|[k node] history IH]; intros ms; simpl; [done|]. apply IH.
Qed.

Lemma memberNames_contents (e : Table.Entries) :
  NoDup (Table.names e) →
  memberNames (Object (Table.contents e)) ≡ₚ Table.names e.
Proof.
  intros Hnodup. rewrite memberNames_to_list, reverse_Permutation.
  unfold Table.contents, Table.names. by rewrite (map_to_list_to_map e Hnodup).
Qed.

Lemma isFullyResolved_contents (e : Table.Entries) :
  NoDup (Table.names e) →
  isFullyResolved (Object (Table.contents e)) = forallb (λ kv, isFullyResolved kv.2) e.
Proof.
  intros Hnodup. apply eq_true_iff_eq.
  rewrite isFullyResolved_Object, forallb_forall. split.
  - intros Hall [k c] Hin%list_elem_of_In. apply (Hall k c).
    by apply elem_of_list_to_map.
  - intros Hall k c Hk. apply (Hall (k, c)). apply list_elem_of_In.
    by apply elem_of_list_to_map.
Qed.

Lemma mergeInto_comm (acc : ObjectNodeData) (kv1 kv2 : string * ConfigNode) :
  kv1.1 ≠ kv2.1 →
  mergeInto (mergeInto acc kv2) kv1 = mergeInto (mergeInto acc kv1) kv2.
Proof.
  intros Hne. unfold mergeInto.
  rewrite !lookup_insert_ne by done. by apply insert_insert_ne.
Qed.

Lemma foldl_as_foldr {A B : Type} (f : B → A → B) (l : list A) :
  ∀ b, foldl f b l = foldr (λ a acc, f acc a) b (reverse l).
Proof.
  induction l as [|a l IH]; intros b; simpl; [done|].
  rewrite reverse_cons, foldr_app. simpl. apply IH.
Qed.

Lemma foldl_mergeInto_Permutation (e1 e2 : Table.Entries) (dst : ObjectNodeData) :
  NoDup (Table.names e1) → e1 ≡ₚ e2 →
  foldl mergeInto dst e1 = foldl mergeInto dst e2.
Proof.
  intros Hnodup Hperm. rewrite !foldl_as_foldr.
  apply (foldr_permutation eq (λ kv acc, mergeInto acc kv) dst).
  - intros j1 kv1 j2 kv2 acc Hne H1 H2. apply mergeInto_comm.
    intros Heq. apply Hne.
    assert (NoDup (reverse e1).*1) as Hrev.
    { by rewrite fmap_reverse, reverse_Permutation. }
    apply (NoDup_lookup _ j1 j2 kv1.1 Hrev).
    + by rewrite list_lookup_fmap, H1.
    + by rewrite list_lookup_fmap, H2, Heq.
  - by rewrite !reverse_Permutation.
Qed.

Lemma applyObject_contents (e : Table.Entries) (dst : ObjectNodeData) :
  NoDup (Table.names e) →
  applyObject (Object dst) (Object (Table.contents e)) =
  Some (Object (foldl mergeInto dst e)).
Proof.
  intros Hnodup. rewrite applyObject_unfold. do 2 f_equal.
  rewrite map_fold_foldr.
  assert (∀ l : Table.Entries,
    foldr (λ '(k, c), (λ acc, <[k := mergeMember (acc !! k) c]> acc)) dst l =
    foldl mergeInto dst (reverse l)) as Hfold.
  { intros l. rewrite foldl_as_foldr, reverse_involutive.
    induction l as [|[k c] l IH]; simpl; [done|]. by rewrite IH. }
  rewrite Hfold. apply foldl_mergeInto_Permutation.
  - unfold Table.names. rewrite fmap_reverse, reverse_Permutation.
    unfold Table.contents. apply NoDup_fst_map_to_list.
  - rewrite reverse_Permutation. unfold Table.contents. by apply map_to_list_to_map.
Qed.

(** ** The pass over the members, in any order *)

Section PassIn.

Variable resolve : list Frame → ConfigNode → ReferenceResolutionResult * ConfigNode.

Lemma resolveMember_names ctx name child st :
  is_Some (st.2 !! name) →
  ∀ other, is_Some ((resolveMember resolve ctx name child st).2 !! other) ↔
           is_Some (st.2 !! other).
Proof.
  intros Hname other. unfold resolveMember.
  destruct st as [[] cur]; simpl in *; [| |done];
    destruct (resolve _ child) as [[] child']; simpl;
    (destruct (decide (name = other)) as [->|Hne];
      [rewrite lookup_insert_eq; split; by eauto|by rewrite lookup_insert_ne]).
Qed.

Lemma resolveObjectReferencesIn_names ctx (names : list string) (ms : ObjectNodeData) :
  ∃ result cur,
    resolveObjectReferencesIn resolve ctx names ms = (result, Object cur) ∧
    ∀ name, is_Some (cur !! name) ↔ is_Some (ms !! name).
Proof.
  unfold resolveObjectReferencesIn.
  assert (∀ st : ReferenceResolutionResult * ObjectNodeData,
    (∀ name, is_Some (st.2 !! name) ↔ is_Some (ms !! name)) →
    ∀ name,
      is_Some ((foldl (λ st memberName,
                  match st.2 !! memberName with
                  | Some child => resolveMember resolve ctx memberName child st
                  | None => st
                  end) st names).2 !! name) ↔ is_Some (ms !! name)) as Hloop.
  { induction names as [|memberName names IH]; intros st Hst; simpl; [done|].
    apply IH. intros name.
    destruct (st.2 !! memberName) as [child|] eqn:Hchild; [|done].
    rewrite resolveMember_names; [done|by eauto]. }
  specialize (Hloop (Resolved, ms) (λ _, reflexivity _)).
  destruct (foldl _ _ names) as [result cur]. by exists result, cur.
Qed.

Lemma resolveObjectReferencesIn_memberNames ctx (ms : ObjectNodeData) :
  resolveObjectReferencesIn resolve ctx (memberNames (Object ms)) ms =
  resolveObjectReferences resolve ctx ms.
Proof. by rewrite resolveObjectReferences_by_name. Qed.

End PassIn.

(** ** The placements *)

Lemma atHead_permitted : Table.Permits Table.atHead.
Proof. by intros e name node _ _. Qed.

Lemma atEnd_permitted : Table.Permits Table.atEnd.
Proof.
  intros e name node _ _. unfold Table.atEnd.
  by rewrite Permutation_app_comm.
Qed.

Lemma ofObject_to_list (ms : ObjectNodeData) :
  Table.ofObject ms = reverse (map_to_list ms).
Proof.
  unfold Table.ofObject. rewrite map_fold_foldr.
  induction (map_to_list ms) as [|[k c] l IH]; simpl; [done|].
  by rewrite IH, reverse_cons.
Qed.

Lemma names_ofObject (ms : ObjectNodeData) :
  Table.names (Table.ofObject ms) = memberNames (Object ms).
Proof.
  by rewrite memberNames_to_list, ofObject_to_list, <- fmap_reverse.
Qed.

Lemma contents_ofObject (ms : ObjectNodeData) :
  Table.contents (Table.ofObject ms) = ms.
Proof.
  unfold Table.contents. rewrite ofObject_to_list.
  rewrite (list_to_map_proper (reverse (map_to_list ms)) (map_to_list ms)).
  - apply list_to_map_to_list.
  - rewrite fmap_reverse, reverse_Permutation. apply NoDup_fst_map_to_list.
  - apply reverse_Permutation.
Qed.

Lemma byKey_permitted : Table.Permits Table.byKey.
Proof.
  intros e name node Hnodup Hnew. unfold Table.byKey.
  rewrite ofObject_to_list, reverse_Permutation.
  change (<[name := node]> (Table.contents e))
    with (Table.contents ((name, node) :: e)).
  apply map_to_list_to_map. simpl. apply NoDup_cons. split; [|done].
  by apply find_None_names.
Qed.

Lemma build_snoc place (history : list (string * ConfigNode)) name node :
  Table.build place (history ++ [(name, node)]) =
  Table.assign place (Table.build place history) name node.
Proof. unfold Table.build. by rewrite foldl_app. Qed.

Lemma atEnd_insertion_order (history : list (string * ConfigNode)) :
  NoDup history.*1 →
  Table.build Table.atEnd history = history.
Proof.
  induction history as [|[name node] history IH] using rev_ind; intros Hnodup; [done|].
  rewrite build_snoc. rewrite fmap_app in Hnodup.
  apply NoDup_app in Hnodup as (Hnodup & Hfresh & _).
  rewrite (IH Hnodup). unfold Table.assign.
  assert (Table.find history name = None) as ->; [|done].
  apply find_None_names. intros Hin. apply (Hfresh name Hin). simpl. left.
Qed.

Lemma build_invariant place (history : list (string * ConfigNode)) :
  Table.Permits place →
  NoDup (Table.names (Table.build place history)) ∧
  Object (Table.contents (Table.build place history)) =
  foldl (λ o kv, setMember o kv.1 kv.2) (Object ∅) history.
Proof.
  intros Hplace. rewrite foldl_setMember.
  destruct (build_from place Hplace history [] NoDup_nil_2) as [Hnodup Hcontents].
  split; [done|]. f_equal. exact Hcontents.
Qed.

Lemma byKey_build (history : list (string * ConfigNode)) :
  Table.names (Table.build Table.byKey history) =
  memberNames (foldl (λ o kv, setMember o kv.1 kv.2) (Object ∅) history).
Proof.
  destruct (build_invariant Table.byKey history byKey_permitted) as [_ <-].
  induction history as [|[name node] history IH] using rev_ind; [done|].
  destruct (build_invariant Table.byKey history byKey_permitted) as [Hnodup _].
  rewrite build_snoc, (assign_contents _ byKey_permitted _ _ _ Hnodup).
  unfold Table.assign.
  destruct (Table.find (Table.build Table.byKey history) name) as [old|] eqn:Hfind.
  - rewrite names_replace, IH. apply memberNames_same_names. intros other.
    destruct (decide (name = other)) as [<-|Hne].
    + rewrite lookup_insert_eq, find_contents, Hfind. split; by eauto.
    + by rewrite lookup_insert_ne.
  - unfold Table.byKey. apply names_ofObject.
Qed.

(** C7, as it stands, fails: a table that links a new entry before the
    others lists [b] before [a] when [a] was set first, and [a] before [b]
    when [b] was set first. The container permits it, and nothing in the
    sources orders the members otherwise. *)
Lemma members_not_in_insertion_order :
  Table.Permits Table.atHead ∧
  Table.names (Table.build Table.atHead [("a", Null); ("b", Null)]) = ["b"; "a"] ∧
  Table.names (Table.build Table.atHead [("b", Null); ("a", Null)]) = ["a"; "b"] ∧
  ¬ MembersInInsertionOrder Table.atHead.
Proof.
  split; [exact atHead_permitted|]. split; [reflexivity|]. split; [reflexivity|].
  intros Hclaim.
  assert (NoDup [("a", Null); ("b", Null)].*1) as Hab.
  { apply NoDup_cons. split; [|apply NoDup_singleton].
    intros Hin. apply list_elem_of_singleton in Hin. discriminate Hin. }
  pose proof (Hclaim [("a", Null); ("b", Null)] Hab) as Horder.
  vm_compute in Horder. discriminate Horder.
Qed.

(** C7 (amended). An Object has one entry per member name, in a hash table.
    Every operation that enumerates the members (listing the names, merging,
    resolution) visits each member once, in the order of the table's
    iterator; that order is the table's and is not decided by the order of
    insertion. Setting a new name adds one entry, at a place of the table's
    choice; setting an existing name again replaces the value and leaves
    every entry at its position. The merge and the check for full
    resolution give the same result whatever the order is; a pass of the
    resolver does not: the members of one and the same Object are all
    resolved by a pass in one order and left partly unresolved by a pass in
    another. The Object of the embedding is the table that lists its
    members by key, which the container permits as it permits listing them
    in the order of insertion. *)
Theorem members_enumerated_once
    (place : Table.Placement) (history : list (string * ConfigNode)) :
  Table.Permits place →
  (NoDup (Table.names (Table.build place history)) ∧
   (∀ name, name ∈ Table.names (Table.build place history) ↔ name ∈ history.*1) ∧
   Object (Table.contents (Table.build place history)) =
     foldl (λ o kv, setMember o kv.1 kv.2) (Object ∅) history ∧
   memberNames (Object (Table.contents (Table.build place history))) ≡ₚ
     Table.names (Table.build place history)) ∧
  (∀ name node,
     name ∉ Table.names (Table.build place history) →
     Table.names (Table.assign place (Table.build place history) name node) ≡ₚ
       name :: Table.names (Table.build place history) ∧
     Table.find (Table.assign place (Table.build place history) name node) name =
       Some node) ∧
  (∀ name node,
     name ∈ Table.names (Table.build place history) →
     Table.names (Table.assign place (Table.build place history) name node) =
       Table.names (Table.build place history) ∧
     ∀ i k old,
       Table.build place history !! i = Some (k, old) →
       Table.assign place (Table.build place history) name node !! i =
       Some (k, if String.eqb k name then node else old)) ∧
  isFullyResolved (Object (Table.contents (Table.build place history))) =
    forallb (λ kv, isFullyResolved kv.2) (Table.build place history) ∧
  (∀ dst,
     applyObject (Object dst) (Object (Table.contents (Table.build place history))) =
     Some (Object (foldl mergeInto dst (Table.build place history)))) ∧
  (∀ resolve ctx,
     ∃ result cur,
       resolveObjectReferencesIn resolve ctx (Table.names (Table.build place history))
         (Table.contents (Table.build place history)) = (result, Object cur) ∧
       ∀ name, is_Some (cur !! name) ↔ name ∈ Table.names (Table.build place history)) ∧
  (∀ resolve ctx ms,
     resolveObjectReferencesIn resolve ctx (memberNames (Object ms)) ms =
     resolveObjectReferences resolve ctx ms) ∧
  (Table.Permits Table.atHead ∧ Table.Permits Table.atEnd ∧ Table.Permits Table.byKey ∧
   MembersInInsertionOrder Table.atEnd ∧
   ∀ assignments,
     Table.names (Table.build Table.byKey assignments) =
     memberNames (foldl (λ o kv, setMember o kv.1 kv.2) (Object ∅) assignments)) ∧
  (let assignments :=
     [("a", NodeReference "/b"); ("c", NodeReference "/a"); ("b", Doc.val 1)] in
   let members := Table.contents (Table.build place assignments) in
   resolveObjectReferencesIn resolveReferences []
     (Table.names (Table.build Table.byKey assignments)) members =
   (Resolved,
    Object (<["a" := Doc.val 1]> (<["c" := Doc.val 1]> {["b" := Doc.val 1]}))) ∧
   resolveObjectReferencesIn resolveReferences []
     (Table.names (Table.build Table.atHead assignments)) members =
   (Unresolved,
    Object (<["a" := Doc.val 1]> (<["c" := NodeReference "/b"]> {["b" := Doc.val 1]})))).
Proof.
  intros Hplace.
  destruct (build_invariant place history Hplace) as [Hnodup Hcontents].
  split; [|split; [|split; [|split; [|split; [|split; [|split; [|split]]]]]]].
  - split; [done|]. split; [|split; [done|by apply memberNames_contents]].
    intros name. rewrite <- find_names, <- find_contents.
    rewrite foldl_setMember in Hcontents. inversion Hcontents as [Heq]. rewrite Heq.
    rewrite foldl_insert_lookup, lookup_empty. split; [|by right].
    intros [[? ?]|?]; done.
  - intros name node Hnew. split; [by apply assign_new|].
    by rewrite <- find_contents, assign_contents, lookup_insert_eq.
  - intros name node Hold. rewrite (assign_again place _ _ _ Hold).
    split; [apply names_replace|]. intros i k old Hi. by apply replace_lookup.
  - by apply isFullyResolved_contents.
  - intros dst. by apply applyObject_contents.
  - intros resolve ctx.
    destruct (resolveObjectReferencesIn_names resolve ctx
                (Table.names (Table.build place history))
                (Table.contents (Table.build place history)))
      as (result & cur & Hpass & Hnames).
    exists result, cur. split; [done|]. intros name.
    by rewrite Hnames, find_contents, find_names.
  - intros resolve ctx ms. apply resolveObjectReferencesIn_memberNames.
  - split; [exact atHead_permitted|]. split; [exact atEnd_permitted|].
    split; [exact byKey_permitted|]. split; [|exact byKey_build].
    intros assignments Hassignments. by rewrite atEnd_insertion_order.
  - cbv zeta.
    destruct (build_invariant place
                [("a", NodeReference "/b"); ("c", NodeReference "/a"); ("b", Doc.val 1)]
                Hplace) as [_ Hmembers].
    inversion Hmembers as [Heq]. rewrite Heq. split; vm_compute; reflexivity.
Qed.

Lemma members_enumerated_once_witness :
  Table.Permits Table.atHead ∧
  Table.names (Table.build Table.atHead
     [("a", NodeReference "/b"); ("c", NodeReference "/a"); ("b", Doc.val 1)]) =
    ["b"; "c"; "a"] ∧
  Table.assign Table.atHead
    (Table.build Table.atHead
       [("a", NodeReference "/b"); ("c", NodeReference "/a"); ("b", Doc.val 1)])
    "c" Null !! 1 = Some ("c", Null) ∧
  Table.names
    (Table.assign Table.atHead
       (Table.build Table.atHead
          [("a", NodeReference "/b"); ("c", NodeReference "/a"); ("b", Doc.val 1)])
       "c" Null) =
  Table.names (Table.build Table.atHead
     [("a", NodeReference "/b"); ("c", NodeReference "/a"); ("b", Doc.val 1)]).
Proof.
  assert (Table.Permits Table.atHead) as Hplace by (intros e name node _ _; reflexivity).
  destruct (members_enumerated_once Table.atHead
              [("a", NodeReference "/b"); ("c", NodeReference "/a"); ("b", Doc.val 1)]
              Hplace) as (_ & _ & Hagain & _).
  assert ("c" ∈ Table.names (Table.build Table.atHead
            [("a", NodeReference "/b"); ("c", NodeReference "/a"); ("b", Doc.val 1)]))
    as Hin by (vm_compute; right; left).
  destruct (Hagain "c" Null Hin) as [Hnames Hplaces].
  split; [exact Hplace|]. split; [reflexivity|]. split; [|exact Hnames].
  apply (Hplaces 1 "c" (NodeReference "/a")). reflexivity.
Defined.

(** ** C8: the decorator [&] *)

Lemma readBaseItems_strings (items : list QJsonValue) (bases : list string) :
  readBaseItems items = Some bases ↔ items = JString <$> bases.
Proof.
  split.
  - revert bases. induction items as [|item items IH]; intros bases Hread;
      simpl in Hread.
    + by inversion Hread.
    + destruct item as [| | |s| | |]; try done.
      destruct (readBaseItems items) as [bases'|]; [|done].
      inversion Hread; subst. simpl. f_equal. by apply IH.
  - intros ->. induction bases as [|base bases IH]; [done|].
    cbn [fmap list_fmap readBaseItems]. change (list_fmap _ _ JString bases) with (JString <$> bases).
    by rewrite IH.
Qed.

Section ReaderFacts.

Variable readValue : QJsonValue → string → option ConfigNode.
Variable readReference : QJsonValue → string → option ConfigNode.

Lemma readDerivedArrayNodeFrom_kind (items : list QJsonValue) (path : string) :
  ∀ elements n,
    readDerivedArrayNodeFrom readValue readReference items path elements = Some n →
    type n = TDerivedArray.
Proof.
  induction items as [|item items IH]; intros elements n Hread; simpl in Hread.
  - by inversion Hread.
  - destruct item as [| | | | |[|[key elementValue] [|]]|]; try done.
    destruct (splitDecorator key) as [decorator elementName].
    destruct (negb (String.eqb elementName "element")); [done|].
    destruct (readDecorated _ _ _ _ _) as [elementNode|]; [|done].
    by eapply IH.
Qed.

Lemma readDerivedObjectNodeWith_kind (o : QJsonObject) (path : string) (n : ConfigNode) :
  readDerivedObjectNodeWith readValue readReference o path = Some n →
  type n = TDerivedObject.
Proof.
  unfold readDerivedObjectNodeWith.
  destruct (negb (Json.contains o "base")); [done|].
  destruct (readBases _) as [bases|]; [|done].
  destruct (withValue _ _ _ _) as [c|]; [|done].
  by inversion 1.
Qed.

Lemma readJsonObjectFrom_Object (members : list (string * QJsonValue)) (path : string) :
  ∀ ms n,
    readJsonObjectFrom readValue readReference members path (Object ms) = Some n →
    ∃ ms', n = Object ms'.
Proof.
  induction members as [|[key v] members IH]; intros ms n Hread; simpl in Hread.
  - inversion Hread. by eexists.
  - destruct (splitDecorator key) as [decorator memberName].
    destruct (negb (NodePath.validateNodeName memberName)); [done|].
    destruct (bool_decide _); [done|].
    destruct (readDecorated _ _ _ _ _) as [memberNode|]; [|done].
    by eapply IH.
Qed.

Lemma readJsonObjectFrom_app (before rest : list (string * QJsonValue)) (path : string) :
  ∀ objectNode,
    readJsonObjectFrom readValue readReference (before ++ rest) path objectNode =
    match readJsonObjectFrom readValue readReference before path objectNode with
    | Some objectNode' =>
        readJsonObjectFrom readValue readReference rest path objectNode'
    | None => None
    end.
Proof.
  induction before as [|[key v] before IH]; intros objectNode; simpl; [done|].
  destruct (splitDecorator key) as [decorator memberName].
  destruct (negb (NodePath.validateNodeName memberName)); [done|].
  destruct (containsMember objectNode memberName); [done|].
  destruct (readDecorated _ _ _ _ _) as [memberNode|]; [|done].
  apply IH.
Qed.

(** once a name is taken, a later member with that name makes the read fail *)
Lemma readJsonObjectFrom_taken (members : list (string * QJsonValue)) (path : string) :
  ∀ ms key v,
    (key, v) ∈ members →
    is_Some (ms !! (splitDecorator key).2) →
    readJsonObjectFrom readValue readReference members path (Object ms) = None.
Proof.
  induction members as [|[key' v'] members IH]; intros ms key v Hin Htaken.
  - by apply elem_of_nil in Hin.
  - simpl. destruct (splitDecorator key') as [decorator memberName] eqn:Hsplit.
    destruct (negb (NodePath.validateNodeName memberName)); [done|].
    destruct (bool_decide (is_Some (ms !! memberName))) eqn:Hdup; [done|].
    apply bool_decide_eq_false in Hdup.
    destruct (readDecorated _ _ _ _ _) as [memberNode|]; [|done].
    apply elem_of_cons in Hin as [Heq|Hin].
    + inversion Heq; subst. rewrite Hsplit in Htaken. done.
    + apply (IH _ key v Hin).
      destruct (decide (memberName = (splitDecorator key).2)) as [->|Hne].
      * rewrite lookup_insert_eq. by eauto.
      * by rewrite lookup_insert_ne.
Qed.

Lemma readJsonObjectFrom_duplicate
    (before mid after : list (string * QJsonValue)) key1 v1 key2 v2 path :
  (splitDecorator key1).2 = (splitDecorator key2).2 →
  readJsonObjectFrom readValue readReference
    (before ++ (key1, v1) :: mid ++ (key2, v2) :: after) path (Object ∅) = None.
Proof.
  intros Hsame. rewrite readJsonObjectFrom_app.
  destruct (readJsonObjectFrom _ _ before path (Object ∅)) as [n|] eqn:Hbefore; [|done].
  apply readJsonObjectFrom_Object in Hbefore as [ms ->].
  simpl. destruct (splitDecorator key1) as [decorator memberName] eqn:Hsplit.
  destruct (negb (NodePath.validateNodeName memberName)); [done|].
  destruct (bool_decide _); [done|].
  destruct (readDecorated _ _ _ _ _) as [memberNode|]; [|done].
  apply (readJsonObjectFrom_taken _ _ _ key2 v2).
  - apply elem_of_app. right. by left.
  - rewrite <- Hsame. simpl. rewrite lookup_insert_eq. by eauto.
Qed.

Lemma readDerivedArrayNodeFrom_elements (items : list QJsonValue) (path : string) :
  ∀ acc n,
    readDerivedArrayNodeFrom readValue readReference items path acc = Some n →
    ∃ es, n = DerivedArray (acc ++ es) ∧
      Forall2 (λ item e, ∃ key elementValue,
                 item = JObject [(key, elementValue)] ∧
                 memberNameOf key = "element" ∧
                 readDecorated readValue readReference (decoratorOf key) elementValue path
                   = Some e) items es.
Proof.
  induction items as [|item items IH]; intros acc n Hread; simpl in Hread.
  - inversion Hread; subst. exists []. by rewrite app_nil_r.
  - destruct item as [| | | | |[|[key elementValue] [|]]|]; try done.
    unfold memberNameOf, decoratorOf.
    destruct (splitDecorator key) as [decorator elementName] eqn:Hsplit.
    destruct (String.eqb elementName "element") eqn:Hname; [|done]. simpl in Hread.
    apply String.eqb_eq in Hname.
    destruct (readDecorated _ _ _ _ _) as [e|] eqn:He; [|done].
    apply IH in Hread as (es & -> & Hes).
    exists (e :: es). rewrite <- app_assoc. split; [done|].
    constructor; [|done]. exists key, elementValue. by rewrite Hsplit.
Qed.

Lemma readDerivedArrayNodeFrom_reads (items : list QJsonValue) (path : string) :
  ∀ acc es,
    Forall2 (λ item e, ∃ key elementValue,
               item = JObject [(key, elementValue)] ∧
               memberNameOf key = "element" ∧
               readDecorated readValue readReference (decoratorOf key) elementValue path
                 = Some e) items es →
    readDerivedArrayNodeFrom readValue readReference items path acc =
    Some (DerivedArray (acc ++ es)).
Proof.
  induction items as [|item items IH]; intros acc es Hall.
  - apply Forall2_nil_inv_l in Hall as ->. simpl. by rewrite app_nil_r.
  - apply Forall2_cons_inv_l in Hall
      as (e & es' & (key & elementValue & -> & Hname & He) & Hall & ->).
    cbn [readDerivedArrayNodeFrom].
    unfold memberNameOf, decoratorOf in *.
    destruct (splitDecorator key) as [decorator elementName]. simpl in *.
    rewrite Hname. simpl. rewrite He.
    rewrite (IH _ _ Hall). by rewrite <- app_assoc.
Qed.

Lemma readDerivedObjectNodeWith_Some (o : QJsonObject) (path : string) (n : ConfigNode) :
  readDerivedObjectNodeWith readValue readReference o path = Some n ↔
  ∃ bases config,
    n = DerivedObject bases config ∧
    Json.contains o "base" = true ∧
    match Json.value o "base" with
    | JString s => bases = [s]
    | JArray items => items = JString <$> bases ∧ bases ≠ []
    | _ => False
    end ∧
    if Json.contains o "config" then
      match Json.value o "config" with
      | JObject c =>
          readJsonObjectFrom readValue readReference c path (Object ∅) = Some config
      | JNull => config = Null
      | _ => False
      end
    else config = Null.
Proof.
  unfold readDerivedObjectNodeWith. rewrite withValue_contains.
  destruct (Json.contains o "base"); simpl.
  2: { split; [done|]. by intros (? & ? & _ & ? & _). }
  assert (∀ config : ConfigNode,
    (if Json.contains o "config" then
       match Json.value o "config" with
       | JObject c => readJsonObjectFrom readValue readReference c path (Object ∅)
       | JNull => Some Null
       | _ => None
       end
     else Some Null) = Some config ↔
    (if Json.contains o "config" then
       match Json.value o "config" with
       | JObject c =>
           readJsonObjectFrom readValue readReference c path (Object ∅) = Some config
       | JNull => config = Null
       | _ => False
       end
     else config = Null)) as Hconfig.
  { intros config. destruct (Json.contains o "config").
    - destruct (Json.value o "config"); split; try done; by (inversion 1) || by intros ->.
    - split; [by inversion 1|by intros ->]. }
  assert (∀ bases : list string,
    readBases (Json.value o "base") = Some bases ↔
    match Json.value o "base" with
    | JString s => bases = [s]
    | JArray items => items = JString <$> bases ∧ bases ≠ []
    | _ => False
    end) as Hbases.
  { intros bases. destruct (Json.value o "base") as [| | |s|items| |]; simpl;
      try (split; done).
    - split; [by inversion 1|by intros ->].
    - destruct (readBaseItems items) as [found|] eqn:Hitems.
      + apply readBaseItems_strings in Hitems as ->.
        destruct found as [|base found].
        * split; [done|]. intros [Heq Hne]. by destruct bases.
        * split; [by inversion 1|].
          intros [Heq _]. f_equal. revert Heq. generalize (base :: found).
          clear. intros l. revert l.
          induction bases as [|b bases IH]; intros [|x l]; simpl; try done.
          inversion 1; subst. f_equal. by apply IH.
      + split; [done|]. intros [-> _].
        assert (readBaseItems (JString <$> bases) = Some bases) as Heq
          by (by apply readBaseItems_strings).
        by rewrite Heq in Hitems. }
  split.
  - destruct (readBases _) as [bases|] eqn:Hb; [|done].
    destruct (if Json.contains o "config" then _ else _) as [config|] eqn:Hc; [|done].
    inversion 1; subst. exists bases, config. split; [done|]. split; [done|].
    split; [by apply Hbases|by apply Hconfig].
  - intros (bases & config & -> & _ & Hb & Hc).
    apply Hbases in Hb. apply Hconfig in Hc. by rewrite Hb, Hc.
Qed.

End ReaderFacts.

(** C8. A member whose key begins with [&] is read as a reference kind
    chosen by the type of its JSON value: a string is read by
    [readReferenceNode] and gives a NodeReference, an array gives a
    DerivedArray, an object gives a DerivedObject, and every other type is an
    error. The key without the decorator must be a valid node name, and an
    object in which two members come to the same name is not read.

    The node is given whenever the value can be read: a string that is a
    node path at the path of the member gives the NodeReference of that
    string; an array gives the DerivedArray of its elements exactly when
    every item is a JSON object with the single member [element], decorated
    or not, whose value is read; an object gives a DerivedObject exactly when
    it has a [base] that is a string or a non-empty array of strings and a
    [config] that is absent, null or a JSON object that is read. An object
    whose only member is decorated with [&] is read as the Object holding
    that node under the name without the decorator. *)
Theorem decorated_reference_member :
  (∀ name, hasDecorator (String "&" name) = true ∧
           splitDecorator (String "&" name) = ("&"%char, name)) ∧
  (∀ name v members path objectNode,
     readJsonObjectFrom readJsonValue readReferenceType
       ((String "&" name, v) :: members) path objectNode =
     if negb (NodePath.validateNodeName name) then None
     else if containsMember objectNode name then None
     else
       match readReferenceType v (NodePath.appendNodeToPath path name) with
       | Some memberNode =>
           readJsonObjectFrom readJsonValue readReferenceType members path
             (setMember objectNode name memberNode)
       | None => None
       end) ∧
  (∀ v path,
     readReferenceType v path =
     match v with
     | JString s => readReferenceNode s path
     | JArray items => readDerivedArrayNode items path
     | JObject o => readDerivedObjectNode o path
     | _ => None
     end) ∧
  (∀ v path n,
     readReferenceType v path = Some n →
     match v with
     | JString s => n = NodeReference s
     | JArray _ => type n = TDerivedArray
     | JObject _ => type n = TDerivedObject
     | _ => False
     end) ∧
  (∀ before key1 v1 mid key2 v2 after path,
     (splitDecorator key1).2 = (splitDecorator key2).2 →
     readJsonObject (before ++ (key1, v1) :: mid ++ (key2, v2) :: after) path = None) ∧
  (readJsonObject [("&a", JString "/b"); ("a", Doc.num 1)] "/" = None ∧
   readJsonObject [("&1a", JString "/b")] "/" = None ∧
   readJsonObject [("&a", Doc.num 5)] "/" = None) ∧
  (∀ s path,
     readReferenceType (JString s) path =
     if NodePath.validateNodePathAt s path then Some (NodeReference s) else None) ∧
  (∀ items path n,
     readReferenceType (JArray items) path = Some n ↔
     ∃ elements,
       n = DerivedArray elements ∧
       Forall2 (λ item element, ∃ key elementValue,
                  item = JObject [(key, elementValue)] ∧
                  memberNameOf key = "element" ∧
                  readDecorated readJsonValue readReferenceType (decoratorOf key)
                    elementValue path = Some element) items elements) ∧
  (∀ o path n,
     readReferenceType (JObject o) path = Some n ↔
     ∃ bases config,
       n = DerivedObject bases config ∧
       Json.contains o "base" = true ∧
       match Json.value o "base" with
       | JString s => bases = [s]
       | JArray items => items = JString <$> bases ∧ bases ≠ []
       | _ => False
       end ∧
       if Json.contains o "config" then
         match Json.value o "config" with
         | JObject c => readJsonObject c path = Some config
         | JNull => config = Null
         | _ => False
         end
       else config = Null) ∧
  (∀ name v path,
     NodePath.validateNodeName name = true →
     readJsonObject [(String "&" name, v)] path =
     (λ memberNode, Object {[name := memberNode]}) <$>
       readReferenceType v (NodePath.appendNodeToPath path name)) ∧
  (readJsonObject [("&a", JString "/b"); ("b", Doc.num 7)] "/" =
     Some (Object (<["a" := NodeReference "/b"]> {["b" := Doc.val 7]})) ∧
   readJsonObject [("&a", JArray [JObject [("element", Doc.num 1)];
                                  JObject [("&element", JString "/x")]])] "/" =
     Some (Object {["a" := DerivedArray [Doc.val 1; NodeReference "/x"]]}) ∧
   readJsonObject [("&a", JObject [("base", JString "/b");
                                   ("config", JObject [("n", Doc.num 7)])])] "/" =
     Some (Object {["a" := DerivedObject ["/b"] (Object {["n" := Doc.val 7]})]})).
Proof.
  split; [done|].
  split; [|split; [|split; [|split; [|split; [|split; [|split; [|split; [|split]]]]]]]].
  - intros name v members path objectNode. cbn [readJsonObjectFrom].
    change (splitDecorator (String "&" name)) with ("&"%char, name).
    cbv beta iota. unfold readDecorated. cbn [Ascii.eqb Bool.eqb]. done.
  - intros v path. by destruct v.
  - intros v path n Hread. destruct v as [| | |s|items|o|]; simpl in Hread; try done.
    + unfold readReferenceNode in Hread.
      destruct (negb _); [done|]. by inversion Hread.
    + by eapply readDerivedArrayNodeFrom_kind.
    + by eapply readDerivedObjectNodeWith_kind.
  - intros. by apply readJsonObjectFrom_duplicate.
  - repeat split; vm_compute; reflexivity.
  - intros s path. cbn [readReferenceType]. unfold readReferenceNode.
    by destruct (NodePath.validateNodePathAt s path).
  - intros items path n. cbn [readReferenceType]. split.
    + intros Hread.
      apply readDerivedArrayNodeFrom_elements in Hread as (elements & -> & Hall).
      by exists elements.
    + intros (elements & -> & Hall).
      by rewrite (readDerivedArrayNodeFrom_reads _ _ _ _ [] elements Hall).
  - intros o path n. cbn [readReferenceType]. apply readDerivedObjectNodeWith_Some.
  - intros name v path Hname. unfold readJsonObject. cbn [readJsonObjectFrom].
    change (splitDecorator (String "&" name)) with ("&"%char, name).
    cbv beta iota. rewrite Hname. unfold readDecorated. cbn [Ascii.eqb Bool.eqb].
    cbn [negb containsMember]. rewrite lookup_empty.
    rewrite bool_decide_eq_false_2 by (by intros [? ?]).
    by destruct (readReferenceType v _).
  - repeat split; vm_compute; reflexivity.
Qed.

Lemma decorated_reference_member_witness :
  readJsonObject [("&a", JString "/b"); ("x", JNull); ("#a", JNull)] "/" = None ∧
  type (DerivedArray [Value (Doc.num 1)]) = TDerivedArray ∧
  readReferenceType (JArray [JObject [("element", Doc.num 1)];
                             JObject [("&element", JString "/x")]]) "/a" =
    Some (DerivedArray [Doc.val 1; NodeReference "/x"]) ∧
  readReferenceType (JObject [("base", JArray [JString "/b"; JString "/c"])]) "/a" =
    Some (DerivedObject ["/b"; "/c"] Null) ∧
  readJsonObject [("&a", JString "/b")] "/" = Some (Object {["a" := NodeReference "/b"]}).
Proof.
  destruct decorated_reference_member
    as (_ & _ & _ & Hkind & Hdup & _ & Hstring & Harray & Hobject & Hmember & _).
  split; [|split; [|split; [|split]]].
  - apply (Hdup [] "&a" (JString "/b") [("x", JNull)] "#a" JNull [] "/"). reflexivity.
  - apply (Hkind (JArray [JObject [("element", Doc.num 1)]]) "/a"
             (DerivedArray [Value (Doc.num 1)])).
    vm_compute. reflexivity.
  - apply Harray. exists [Doc.val 1; NodeReference "/x"]. split; [reflexivity|].
    constructor; [|constructor; [|constructor]].
    + exists "element", (Doc.num 1). repeat split; reflexivity.
    + exists "&element", (JString "/x"). repeat split; reflexivity.
  - apply Hobject. exists ["/b"; "/c"], Null. split; [reflexivity|].
    split; [reflexivity|]. split; [|reflexivity].
    split; [reflexivity|discriminate].
  - rewrite (Hmember "a" (JString "/b") "/" eq_refl), Hstring. reflexivity.
Defined.

(** ** C9: the type of an include *)

Lemma json_remove_other (o : QJsonObject) (k key : string) :
  key ≠ k →
  Json.contains (Json.remove o k) key = Json.contains o key ∧
  Json.value (Json.remove o k) key = Json.value o key.
Proof.
  intros Hne. induction o as [|[k' v] o [IHc IHv]]; simpl; [done|].
  destruct (String.eqb_spec k' k) as [->|Hk'].
  - rewrite IHc, IHv. destruct (String.eqb_spec k key) as [->|_]; done.
  - simpl. by rewrite IHc, IHv.
Qed.

Lemma json_remove_same (o : QJsonObject) (k : string) :
  Json.contains (Json.remove o k) k = false.
Proof.
  induction o as [|[k' v] o IH]; simpl; [done|].
  destruct (String.eqb_spec k' k) as [->|Hk']; [done|].
  simpl. destruct (String.eqb_spec k' k); done.
Qed.

Lemma json_set_other (o : QJsonObject) (k key : string) (w : QJsonValue) :
  key ≠ k →
  Json.contains (Json.set o k w) key = Json.contains o key ∧
  Json.value (Json.set o k w) key = Json.value o key.
Proof.
  intros Hne. induction o as [|[k' v] o [IHc IHv]]; simpl.
  - destruct (String.eqb_spec k key) as [->|_]; done.
  - destruct (String.eqb_spec k' k) as [->|Hk']; simpl.
    + destruct (String.eqb_spec k key) as [->|_]; done.
    + by rewrite IHc, IHv.
Qed.

Lemma json_set_same (o : QJsonObject) (k : string) (w : QJsonValue) :
  Json.contains (Json.set o k w) k = true ∧ Json.value (Json.set o k w) k = w.
Proof.
  induction o as [|[k' v] o [IHc IHv]]; simpl.
  - by rewrite String.eqb_refl.
  - destruct (String.eqb_spec k' k) as [->|Hk']; simpl.
    + by rewrite String.eqb_refl.
    + destruct (String.eqb_spec k' k); [done|]. by rewrite IHc, IHv.
Qed.

Section IncludeFacts.

Variable read : string → string → string → string → Res ConfigNode.

(** [readInclude] looks at the members [type], [file_path], [source_node]
    and [destination_node] only *)
Lemma readInclude_same_members (workingDir : string) (i : nat)
    (o1 o2 : QJsonObject) (includesConfig : ConfigNode) :
  includeType o1 i = includeType o2 i →
  (∀ key, key ≠ "type" →
     Json.contains o1 key = Json.contains o2 key ∧
     Json.value o1 key = Json.value o2 key) →
  readInclude read workingDir i (JObject o1) includesConfig =
  readInclude read workingDir i (JObject o2) includesConfig.
Proof.
  intros Htype Hrest. unfold readInclude, readIncludeFile, includeNodePath.
  rewrite Htype.
  destruct (Hrest "file_path") as [-> ->]; [done|].
  destruct (Hrest "source_node") as [-> ->]; [done|].
  destruct (Hrest "destination_node") as [-> ->]; [done|].
  done.
Qed.

(** what comes after the check of the type reports no error about the type *)
Lemma readIncludeFile_error (workingDir : string) (i : nat)
    (o : QJsonObject) (includesConfig : ConfigNode) (e : ReadError) :
  readIncludeFile read workingDir i o includesConfig = Fail e →
  isTypeError e = false.
Proof.
  unfold readIncludeFile, includeNodePath, orFail.
  repeat (match goal with
          | |- context [match ?x with _ => _ end] => destruct x
          | |- context [if ?x then _ else _] => destruct x
          end; simpl);
    intros He; inversion He; reflexivity.
Qed.

Lemma includeType_cases (o : QJsonObject) (i : nat) :
  includeType o i =
  if Json.contains o "type" then
    match Json.value o "type" with
    | JNull => Done "CppConfigFramework"
    | JString t => Done t
    | _ => Fail (IncludeTypeNotString i)
    end
  else Done "CppConfigFramework".
Proof.
  unfold includeType. destruct (Json.contains o "type"); [|done].
  by destruct (Json.value o "type").
Qed.

End IncludeFacts.

(** C9. An include whose [type] member is JSON null is read as the same
    include without a [type] member, and as the same include with the type
    ["CppConfigFramework"]. Reading an include fails on [type] only when the
    member is there and is neither null nor a string, or is a string other
    than ["CppConfigFramework"]. *)
Theorem include_type_null_is_default
    (read : string → string → string → string → Res ConfigNode)
    (workingDir : string) (i : nat) (includeObject : QJsonObject)
    (includesConfig : ConfigNode) :
  (Json.contains includeObject "type" = true →
   Json.value includeObject "type" = JNull →
   readInclude read workingDir i (JObject includeObject) includesConfig =
     readInclude read workingDir i
       (JObject (Json.remove includeObject "type")) includesConfig ∧
   readInclude read workingDir i (JObject includeObject) includesConfig =
     readInclude read workingDir i
       (JObject (Json.set includeObject "type" (JString "CppConfigFramework")))
       includesConfig) ∧
  (readInclude read workingDir i (JObject includeObject) includesConfig
     = Fail (IncludeTypeNotString i) ↔
   Json.contains includeObject "type" = true ∧
   Json.isNull (Json.value includeObject "type") = false ∧
   Json.isString (Json.value includeObject "type") = false) ∧
  (∀ t, readInclude read workingDir i (JObject includeObject) includesConfig
          = Fail (IncludeUnsupportedType t i) ↔
        Json.contains includeObject "type" = true ∧
        Json.value includeObject "type" = JString t ∧ t ≠ "CppConfigFramework") ∧
  (∀ e, readInclude read workingDir i (JObject includeObject) includesConfig = Fail e →
        isTypeError e = true →
        e = IncludeTypeNotString i ∨
        ∃ t, e = IncludeUnsupportedType t i ∧ t ≠ "CppConfigFramework").
Proof.
  assert (∀ e,
    readInclude read workingDir i (JObject includeObject) includesConfig = Fail e →
    isTypeError e = true →
    (e = IncludeTypeNotString i ∧ Json.contains includeObject "type" = true ∧
     Json.isNull (Json.value includeObject "type") = false ∧
     Json.isString (Json.value includeObject "type") = false) ∨
    (∃ t, e = IncludeUnsupportedType t i ∧ Json.contains includeObject "type" = true ∧
          Json.value includeObject "type" = JString t ∧ t ≠ "CppConfigFramework"))
    as Hfail.
  { intros e. unfold readInclude. rewrite includeType_cases.
    destruct (Json.contains includeObject "type"); simpl.
    - destruct (Json.value includeObject "type") as [| | |t| | |]; simpl;
        try (intros He _; inversion He; left; done);
        try (intros He Ht; apply readIncludeFile_error in He; congruence).
      destruct (String.eqb_spec t "CppConfigFramework") as [->|Hne]; simpl.
      + intros He Ht. apply readIncludeFile_error in He. congruence.
      + intros He _. inversion He. right. by exists t.
    - intros He Ht. apply readIncludeFile_error in He. congruence. }
  split; [|split; [|split]].
  - intros Hc Hv. split; apply readInclude_same_members.
    + rewrite !includeType_cases, Hc, Hv. by rewrite json_remove_same.
    + intros key Hkey. by destruct (json_remove_other includeObject "type" key Hkey) as [-> ->].
    + rewrite !includeType_cases, Hc, Hv.
      by destruct (json_set_same includeObject "type" (JString "CppConfigFramework"))
        as [-> ->].
    + intros key Hkey.
      by destruct (json_set_other includeObject "type" key
                     (JString "CppConfigFramework") Hkey) as [-> ->].
  - split.
    + intros He. destruct (Hfail _ He eq_refl) as [(_ & ? & ? & ?)|(t & Heq & _)];
        [done|by inversion Heq].
    + intros (Hc & Hnull & Hstr). unfold readInclude.
      rewrite includeType_cases, Hc.
      by destruct (Json.value includeObject "type").
  - intros t. split.
    + intros He. destruct (Hfail _ He eq_refl) as [(Heq & _)|(u & Heq & ? & ? & ?)];
        [by inversion Heq|]. by inversion Heq; subst.
    + intros (Hc & Hv & Hne). unfold readInclude.
      rewrite includeType_cases, Hc, Hv. simpl.
      by rewrite (proj2 (String.eqb_neq _ _) Hne).
  - intros e He Ht. destruct (Hfail e He Ht) as [(-> & _)|(t & -> & _ & _ & Hne)];
      [by left|right; by exists t].
Qed.

Lemma include_type_null_is_default_witness :
  readInclude Doc.readFile "" 0
    (JObject [("type", JNull); ("file_path", JString "base.json")]) (Object ∅) =
  readInclude Doc.readFile "" 0
    (JObject [("file_path", JString "base.json")]) (Object ∅).
Proof.
  apply (include_type_null_is_default _ "" 0
           [("type", JNull); ("file_path", JString "base.json")] (Object ∅));
    reflexivity.
Defined.

(** ** C10: the factory *)

(** C10. [registerConfigReader] returns false exactly when the type is empty
    or the reader is null, and then the registry is as before. Otherwise it
    returns true and the registry holds the reader under the type, in place
    of a reader registered under that type before, with the other types
    untouched. A new factory holds the reader of the type
    ["CppConfigFramework"], and [readConfig] of that type calls it. *)
Theorem registerConfigReader_behaviour {ConfigReaderBase Arguments Result : Type}
    (readerRead : ConfigReaderBase → Arguments → Result)
    (ConfigReader_new : ConfigReaderBase) :
  (∀ (this : ConfigReaderFactory ConfigReaderBase) type configReader,
     (registerConfigReader this type configReader).1 = false ↔
     type = "" ∨ configReader = None) ∧
  (∀ (this : ConfigReaderFactory ConfigReaderBase) type configReader,
     (registerConfigReader this type configReader).1 = false →
     (registerConfigReader this type configReader).2 = this) ∧
  (∀ (this : ConfigReaderFactory ConfigReaderBase) type reader,
     type ≠ "" →
     let this' := (registerConfigReader this type (Some reader)).2 in
     (registerConfigReader this type (Some reader)).1 = true ∧
     m_configReaders this' !! type = Some reader ∧
     (∀ other, other ≠ type →
        m_configReaders this' !! other = m_configReaders this !! other) ∧
     (∀ args, readConfig readerRead this' type args = inr (readerRead reader args))) ∧
  (m_configReaders (ConfigReaderFactory_new ConfigReader_new) !! "CppConfigFramework"
     = Some ConfigReader_new ∧
   ∀ args,
     readConfig readerRead (ConfigReaderFactory_new ConfigReader_new)
       "CppConfigFramework" args = inr (readerRead ConfigReader_new args)).
Proof.
  split; [|split; [|split]].
  - intros this type configReader. unfold registerConfigReader.
    destruct configReader as [reader|]; [|by split; [right|]].
    destruct (String.eqb_spec type "") as [->|Hne]; simpl.
    + by split; [left|].
    + split; [done|]. by intros [?|?].
  - intros this type configReader. unfold registerConfigReader.
    destruct configReader as [reader|]; [|done].
    by destruct (String.eqb type "").
  - intros this type reader Hne this'. subst this'. unfold registerConfigReader.
    rewrite (proj2 (String.eqb_neq _ _) Hne). simpl.
    split; [done|]. split; [apply lookup_insert_eq|]. split.
    + intros other Hother. by apply lookup_insert_ne.
    + intros args. unfold readConfig. simpl. by rewrite lookup_insert_eq.
  - split; [apply lookup_insert_eq|].
    intros args. unfold readConfig, ConfigReaderFactory_new. simpl.
    by rewrite lookup_insert_eq.
Qed.

Lemma registerConfigReader_behaviour_witness :
  (registerConfigReader (ConfigReaderFactory_new "builtin") "" (Some "other")).2
  = ConfigReaderFactory_new "builtin" ∧
  readConfig (λ reader (args : string), reader +:+ args)
    (registerConfigReader (ConfigReaderFactory_new "builtin")
       "CppConfigFramework" (Some "other")).2
    "CppConfigFramework" "!" = inr "other!".
Proof.
  destruct (registerConfigReader_behaviour
              (λ reader (args : string), reader +:+ args) "builtin")
    as (_ & Hsame & Hstore & _).
  split.
  - apply (Hsame (ConfigReaderFactory_new "builtin") "" (Some "other")). reflexivity.
  - apply (Hstore (ConfigReaderFactory_new "builtin") "CppConfigFramework" "other").
    discriminate.
Defined.

(* ===================================================================== *)
(** * Further properties of the reader, the resolver and the factory *)
(* ===================================================================== *)

(** ** A pass over a fully resolved tree *)

Section PassStable.

Variable resolve : list Frame → ConfigNode → ReferenceResolutionResult * ConfigNode.

Lemma resolveElements_stable frame ctx (todo : list ConfigNode) :
  Forall (LeavesResolved resolve) todo →
  ∀ i cur,
    drop i cur = todo →
    resolveElements resolve frame ctx todo i Resolved cur = (Resolved, cur).
Proof.
  induction 1 as [|e todo He Htodo IH]; intros i cur Hdrop; simpl; [done|].
  assert (cur !! i = Some e) as Hi.
  { rewrite <- (Nat.add_0_r i), <- lookup_drop, Hdrop. done. }
  rewrite He, (list_insert_id _ _ _ Hi).
  apply IH. change (S i) with (1 + i).
  by rewrite Nat.add_comm, <- drop_drop, Hdrop.
Qed.

Lemma resolveMembers_stable ctx (ms m : ObjectNodeData) :
  (∀ k c, m !! k = Some c → ms !! k = Some c ∧ LeavesResolved resolve c) →
  map_fold (resolveMember resolve ctx) (Resolved, ms) m = (Resolved, ms).
Proof.
  apply (map_fold_weak_ind (λ st m,
    (∀ k c, m !! k = Some c → ms !! k = Some c ∧ LeavesResolved resolve c) →
    st = (Resolved, ms))); [done|].
  clear m. intros i x m st Hi IH Hall.
  rewrite IH.
  - destruct (Hall i x) as [Hx Hstable]; [apply lookup_insert_eq|].
    unfold resolveMember. rewrite Hstable. by rewrite (insert_id _ _ _ Hx).
  - intros k c Hk. apply Hall. rewrite lookup_insert_ne; [done|].
    intros ->. by rewrite Hi in Hk.
Qed.

End PassStable.

Lemma resolveReferences_stable (node : ConfigNode) :
  isFullyResolved node = true →
  ∀ ctx, resolveReferences ctx node = (Resolved, node).
Proof.
  induction node as [|v|es IH|ms IH|r|es IH|bases config IH]
    using ConfigNode_nested_ind; intros Hfull ctx; try done.
  - simpl. unfold resolveArrayReferences.
    rewrite (resolveElements_stable resolveReferences); [done| |done].
    apply isFullyResolved_Array in Hfull.
    rewrite Forall_forall in *. intros e He ctx'. by apply IH, Hfull.
  - simpl. unfold resolveObjectReferences.
    rewrite (resolveMembers_stable resolveReferences); [done|].
    intros k c Hk. split; [done|]. intros ctx'.
    apply (IH k c Hk). rewrite isFullyResolved_Object in Hfull. by eapply Hfull.
Qed.

(** X1. A pass over a tree that holds only Null, Value, Array and Object
    nodes answers [Resolved] and leaves the tree as it is, under whatever
    ancestors it is visited. The loop of [read] therefore makes exactly one
    pass over such a configuration, for every cycle limit from 1 on, and
    hands that same tree to [transformConfig]. *)
Theorem resolved_tree_is_left_unchanged (node : ConfigNode) :
  isFullyResolved node = true →
  (∀ ctx, resolveReferences ctx node = (Resolved, node)) ∧
  (∀ cycles, resolveCycles (S cycles) node = (Resolved, node, 1)) ∧
  (∀ this sourceNode destinationNode,
     (1 ≤ referenceResolutionMaxCycles this)%Z →
     resolveAndTransform this node sourceNode destinationNode =
       orFail TransformFailed (transformConfig node sourceNode destinationNode)).
Proof.
  intros Hfull.
  pose proof (resolveReferences_stable node Hfull) as Hpass.
  split; [done|]. split.
  - intros cycles. simpl. by rewrite Hpass.
  - intros this sourceNode destinationNode Hmax. unfold resolveAndTransform.
    unfold referenceResolutionMaxCycles in Hmax.
    destruct (Z.to_nat (m_referenceResolutionMaxCycles this)) as [|cycles] eqn:Hn;
      [lia|].
    simpl. by rewrite Hpass.
Qed.

Lemma resolved_tree_is_left_unchanged_witness :
  resolveReferences [MkFrame (Array [Null]) (InElement 0)]
    (Object {["a" := Array [Doc.val 1; Null]]})
  = (Resolved, Object {["a" := Array [Doc.val 1; Null]]}).
Proof.
  apply (resolved_tree_is_left_unchanged (Object {["a" := Array [Doc.val 1; Null]]})).
  vm_compute. reflexivity.
Defined.

(** ** A pass keeps the shape of the containers *)

Section PassShape.

Variable resolve : list Frame → ConfigNode → ReferenceResolutionResult * ConfigNode.

Lemma resolveElements_length frame ctx (todo : list ConfigNode) :
  ∀ i result cur,
    length (resolveElements resolve frame ctx todo i result cur).2 = length cur.
Proof.
  induction todo as [|e todo IH]; intros i result cur; simpl; [done|].
  destruct (resolve (frame cur i :: ctx) e) as [[] e']; simpl;
    rewrite ?IH; by rewrite length_insert.
Qed.

Lemma resolveMembers_names ctx (ms m : ObjectNodeData) :
  (∀ k, is_Some (m !! k) → is_Some (ms !! k)) →
  ∀ k, is_Some ((map_fold (resolveMember resolve ctx) (Resolved, ms) m).2 !! k) ↔
       is_Some (ms !! k).
Proof.
  apply (map_fold_weak_ind (λ st m,
    (∀ k, is_Some (m !! k) → is_Some (ms !! k)) →
    ∀ k, is_Some (st.2 !! k) ↔ is_Some (ms !! k))); [done|].
  clear m. intros i x m [res cur] Hi IH Hsub k.
  assert (∀ k, is_Some (cur !! k) ↔ is_Some (ms !! k)) as Hcur.
  { apply IH. intros k' Hk'. apply Hsub.
    destruct (decide (i = k')) as [->|Hne];
      [by rewrite lookup_insert_eq|by rewrite lookup_insert_ne]. }
  assert (∀ x', is_Some (<[i := x']> cur !! k) ↔ is_Some (ms !! k)) as Hstep.
  { intros x'. destruct (decide (i = k)) as [->|Hne].
    - rewrite lookup_insert_eq. split; [|by eauto].
      intros _. apply Hsub. by rewrite lookup_insert_eq.
    - rewrite lookup_insert_ne by done. apply Hcur. }
  unfold resolveMember. destruct res.
  - destruct (resolve _ x) as [[] x']; simpl; apply Hstep.
  - destruct (resolve _ x) as [[] x']; simpl; apply Hstep.
  - simpl. apply Hcur.
Qed.

End PassShape.

(** X2. Resolution never adds, removes or renames a member of an Object and
    never changes the number of elements of an array: a pass over an Object
    gives an Object with the same member names, whatever its outcome; a pass
    over an Array gives an Array of the same length; a pass over a
    DerivedArray gives an Array of the same length when it answers
    [Resolved] and a DerivedArray of the same length otherwise. So the tree
    that the loop of [read] ends with has the member names that the merged
    document had at its root. *)
Theorem pass_keeps_container_shape :
  (∀ ctx ms result node',
     resolveReferences ctx (Object ms) = (result, node') →
     isObject node' = true ∧
     ∀ name, containsMember node' name = containsMember (Object ms) name) ∧
  (∀ ctx es result node',
     resolveReferences ctx (Array es) = (result, node') →
     ∃ es', node' = Array es' ∧ length es' = length es) ∧
  (∀ ctx es result node',
     resolveReferences ctx (DerivedArray es) = (result, node') →
     ∃ es', length es' = length es ∧
            node' = match result with
                    | Resolved => Array es'
                    | _ => DerivedArray es'
                    end) ∧
  (∀ cycles ms result node' passes,
     resolveCycles cycles (Object ms) = (result, node', passes) →
     isObject node' = true ∧
     ∀ name, containsMember node' name = containsMember (Object ms) name).
Proof.
  assert (∀ ctx ms result node',
     resolveReferences ctx (Object ms) = (result, node') →
     isObject node' = true ∧
     ∀ name, containsMember node' name = containsMember (Object ms) name) as Hobject.
  { intros ctx ms result node'. simpl. unfold resolveObjectReferences.
    pose proof (resolveMembers_names resolveReferences ctx ms ms (λ _ H, H)) as Hnames.
    destruct (map_fold _ _ ms) as [res cur]. simpl in Hnames.
    intros Heq. inversion Heq; subst. split; [done|].
    intros name. simpl. apply bool_decide_ext, Hnames. }
  split; [exact Hobject|]. split; [|split].
  - intros ctx es result node'. simpl. unfold resolveArrayReferences.
    pose proof (resolveElements_length resolveReferences
                  (λ cur i, MkFrame (Array cur) (InElement i)) ctx es 0 Resolved es) as Hlen.
    destruct (resolveElements _ _ _ _ _ _ _) as [res cur]. simpl in Hlen.
    intros Heq. inversion Heq; subst. by eexists.
  - intros ctx es result node'. simpl. unfold resolveDerivedArrayReferences.
    destruct ctx as [|f ctx'].
    { intros Heq. inversion Heq; subst. by exists es. }
    pose proof (resolveElements_length resolveReferences
                  (λ cur i, MkFrame (DerivedArray cur) (InDerivedElement i))
                  (f :: ctx') es 0 Resolved es) as Hlen.
    destruct (resolveElements _ _ _ _ _ _ _) as [res cur]. simpl in Hlen.
    destruct res; intros Heq; inversion Heq; subst; exists cur; split; try done.
    by rewrite appendElement_foldl.
  - intros cycles. induction cycles as [|cycles IH]; intros ms result node' passes Heq;
      simpl in Heq.
    + by inversion Heq; subst.
    + destruct (resolveObjectReferences resolveReferences [] ms) as [res node1] eqn:Hpass.
      destruct (Hobject [] ms res node1 Hpass) as [Hobj Hnames].
      destruct res.
      * by inversion Heq; subst.
      * destruct node1 as [| | |ms1| | |]; try done.
        destruct (resolveCycles cycles (Object ms1)) as [[res2 node2] passes2] eqn:Hrest.
        inversion Heq; subst.
        destruct (IH ms1 result node' passes2 Hrest) as [Hobj' Hnames'].
        split; [done|]. intros name. by rewrite Hnames', Hnames.
      * by inversion Heq; subst.
Qed.

Lemma pass_keeps_container_shape_witness :
  ∃ es', (resolveReferences [] (Array [NodeReference "/a"; Null])).2 = Array es' ∧
         length es' = 2.
Proof.
  destruct pass_keeps_container_shape as (_ & Harray & _).
  destruct (resolveReferences [] (Array [NodeReference "/a"; Null])) as [result node'] eqn:Heq.
  apply (Harray [] [NodeReference "/a"; Null] result node' Heq).
Defined.

(** ** Raising the cycle limit *)

Lemma resolveCycles_more (cycles : nat) :
  ∀ config result config' passes,
    resolveCycles cycles config = (result, config', passes) →
    result ≠ Unresolved →
    ∀ more, resolveCycles (more + cycles) config = (result, config', passes).
Proof.
  induction cycles as [|cycles IH]; intros config result config' passes Heq Hres more.
  - simpl in Heq. by inversion Heq; subst.
  - rewrite Nat.add_succ_r. simpl in *.
    destruct (resolveReferences [] config) as [[] config1]; [done| |done].
    destruct (resolveCycles cycles config1) as [[result1 config2] passes1] eqn:Hrest.
    inversion Heq; subst.
    by rewrite (IH config1 result config' passes1 Hrest Hres more).
Qed.

Lemma resolveAndTransform_more this this' config sourceNode destinationNode :
  (referenceResolutionMaxCycles this ≤ referenceResolutionMaxCycles this')%Z →
  resolveAndTransform this config sourceNode destinationNode ≠ Fail ResolveIncomplete →
  resolveAndTransform this' config sourceNode destinationNode =
  resolveAndTransform this config sourceNode destinationNode.
Proof.
  unfold referenceResolutionMaxCycles, resolveAndTransform. intros Hle.
  destruct (resolveCycles (Z.to_nat (m_referenceResolutionMaxCycles this)) config)
    as [[result config'] passes] eqn:Hcycles.
  intros Hres.
  assert (result ≠ Unresolved) as Hresult by (by destruct result).
  replace (Z.to_nat (m_referenceResolutionMaxCycles this')) with
    ((Z.to_nat (m_referenceResolutionMaxCycles this') -
      Z.to_nat (m_referenceResolutionMaxCycles this)) +
     Z.to_nat (m_referenceResolutionMaxCycles this)) by lia.
  by rewrite (resolveCycles_more _ _ _ _ _ Hcycles Hresult).
Qed.

Section SameResults.

Variables read1 read2 : string → string → string → string → Res ConfigNode.
Hypothesis read12 :
  ∀ filePath workingDir sourceNode destinationNode t,
    read1 filePath workingDir sourceNode destinationNode = Done t →
    read2 filePath workingDir sourceNode destinationNode = Done t.

Lemma readInclude_Done workingDir i includeValue includesConfig t :
  readInclude read1 workingDir i includeValue includesConfig = Done t →
  readInclude read2 workingDir i includeValue includesConfig = Done t.
Proof.
  unfold readInclude. destruct includeValue as [| | | | |o|]; try done.
  destruct (includeType o i) as [type|]; try done. simpl.
  destruct (negb (String.eqb type "CppConfigFramework")); [done|].
  unfold readIncludeFile.
  destruct (negb (Json.contains o "file_path")); [done|].
  destruct (Json.value o "file_path") as [| | |filePath| | |]; try done.
  destruct (includeNodePath o "source_node" _) as [sourceNode|]; try done.
  destruct (includeNodePath o "destination_node" _) as [destinationNode|]; try done.
  simpl.
  destruct (read1 filePath workingDir sourceNode destinationNode) as [config|] eqn:Hread;
    try done.
  by rewrite (read12 _ _ _ _ _ Hread).
Qed.

Lemma readIncludesFrom_Done workingDir (includesArray : list QJsonValue) :
  ∀ i includesConfig t,
    readIncludesFrom read1 workingDir includesArray i includesConfig = Done t →
    readIncludesFrom read2 workingDir includesArray i includesConfig = Done t.
Proof.
  induction includesArray as [|includeValue rest IH]; intros i includesConfig t;
    simpl; [done|].
  destruct (readInclude read1 workingDir i includeValue includesConfig)
    as [includesConfig'|] eqn:Hinc; try done.
  rewrite (readInclude_Done _ _ _ _ _ Hinc). simpl. apply IH.
Qed.

Lemma readIncludesMember_Done rootObject workingDir t :
  readIncludesMember read1 rootObject workingDir = Done t →
  readIncludesMember read2 rootObject workingDir = Done t.
Proof.
  unfold readIncludesMember. destruct (_ || _); [done|].
  destruct (Json.value rootObject "includes"); try done.
  apply readIncludesFrom_Done.
Qed.

End SameResults.

(** X3. Raising the cycle limit never changes a configuration that loaded.
    The number of passes that the loop of [read] needs for a configuration
    does not depend on the limit: when the loop ends with [Resolved] or
    [Error] after some passes under one limit, it ends with the same outcome
    and tree after the same passes under every greater limit. So a [read]
    that returns a tree under one limit returns that tree under every
    greater limit, the included files being read under the same limit. *)
Theorem raising_cycle_limit_keeps_result :
  (∀ cycles config result config' passes,
     resolveCycles cycles config = (result, config', passes) →
     result ≠ Unresolved →
     ∀ more, resolveCycles (more + cycles) config = (result, config', passes)) ∧
  (∀ this this' absoluteFilePath absoluteDir files depth
      filePath workingDir sourceNode destinationNode t,
     (referenceResolutionMaxCycles this ≤ referenceResolutionMaxCycles this')%Z →
     read this absoluteFilePath absoluteDir files depth filePath workingDir
       sourceNode destinationNode = Done t →
     read this' absoluteFilePath absoluteDir files depth filePath workingDir
       sourceNode destinationNode = Done t).
Proof.
  split; [exact resolveCycles_more|].
  intros this this' absoluteFilePath absoluteDir files depth.
  induction depth as [|depth IH];
    intros filePath workingDir sourceNode destinationNode t Hle; [done|].
  cbn [read].
  destruct (_ || _); [done|]. destruct (_ || _); [done|].
  destruct (files _) as [| | |doc]; try done.
  destruct doc as [| | | | |rootObject|]; try done.
  destruct (readIncludesMember (read this absoluteFilePath absoluteDir files depth) _ _)
    as [completeConfig|] eqn:Hinc; try done.
  rewrite (readIncludesMember_Done _ _
             (λ f w s d t H, IH f w s d t Hle H) _ _ _ Hinc).
  simpl.
  destruct (readConfigMember rootObject) as [configMember|]; try done. simpl.
  destruct (applyObject completeConfig configMember) as [merged|]; try done. simpl.
  intros Hres. rewrite (resolveAndTransform_more this this'); [done|done|].
  by rewrite Hres.
Qed.

Lemma raising_cycle_limit_keeps_result_witness :
  Doc.load Impl_new "derived.json" "/" "/" = Doc.load (MkImpl 1) "derived.json" "/" "/".
Proof.
  destruct raising_cycle_limit_keeps_result as [_ Hread].
  unfold Doc.load at 1.
  erewrite (Hread (MkImpl 1) Impl_new); [reflexivity|vm_compute; discriminate|].
  vm_compute. reflexivity.
Defined.

(** ** [transformConfig] *)

Lemma splitFrom_not_nil (s cur : string) : NodePath.splitFrom cur s ≠ [].
Proof.
  revert cur. induction s as [|c s IH]; intros cur; simpl; [done|].
  destruct (Ascii.eqb c "/"); [done|apply IH].
Qed.

Lemma validateNodeName_not_up (s : string) :
  NodePath.validateNodeName s = true → String.eqb s ".." = false.
Proof.
  destruct s as [|c s]; [done|]. simpl. intros Hname.
  apply andb_true_iff in Hname as [Hc _].
  destruct (Ascii.eqb c ".") eqn:Hdot; [|done].
  apply Ascii.eqb_eq in Hdot. subst c. done.
Qed.

Lemma nestUnder_nested (nodeNames : list string) (sourceConfig : ConfigNode) :
  nodeNames ≠ [] →
  nestUnder nodeNames sourceConfig =
  if forallb NodePath.validateNodeName nodeNames
  then Some (nested nodeNames sourceConfig) else None.
Proof.
  induction nodeNames as [|nodeName rest IH]; intros Hne; [done|].
  cbn [nestUnder forallb].
  destruct (NodePath.validateNodeName nodeName); [|done]. simpl.
  destruct rest as [|nodeName' rest']; [done|].
  rewrite IH by done.
  by destruct (forallb NodePath.validateNodeName (nodeName' :: rest')).
Qed.

Lemma descend_nested (nodeNames : list string) (sourceConfig : ConfigNode) :
  descend nodeNames (nested nodeNames sourceConfig) = Some sourceConfig.
Proof.
  induction nodeNames as [|nodeName rest IH]; [done|].
  simpl. by rewrite lookup_singleton_eq.
Qed.

Lemma walk_nested (nodeNames : list string) (sourceConfig : ConfigNode) :
  forallb NodePath.validateNodeName nodeNames = true →
  ∀ ctx, ∃ ctx',
    walk nodeNames (nested nodeNames sourceConfig) ctx = walk [] sourceConfig ctx'.
Proof.
  induction nodeNames as [|nodeName rest IH]; intros Hnames ctx; [by exists ctx|].
  simpl in Hnames. apply andb_true_iff in Hnames as [Hname Hrest].
  cbn [walk nested foldr]. rewrite (validateNodeName_not_up _ Hname).
  rewrite lookup_singleton_eq. apply (IH Hrest).
Qed.

Lemma segments_absolute (path : string) :
  NodePath.isAbsoluteNodePath path = true → path ≠ "/" →
  NodePath.segments path = NodePath.split (NodePath.mid1 path) ∧
  NodePath.segments path ≠ [].
Proof.
  intros Habs Hne. unfold NodePath.segments. rewrite Habs.
  destruct path as [|c rest]; [done|]. simpl in *.
  apply Ascii.eqb_eq in Habs. subst c.
  destruct rest as [|c' rest']; [done|].
  split; [done|]. apply splitFrom_not_nil.
Qed.

Lemma transformConfig_closed (config : ConfigNode) (sourceNode destinationNode : string) :
  NodePath.isAbsoluteNodePath destinationNode = true →
  NodePath.validateNodePath destinationNode = true →
  transformConfig config sourceNode destinationNode =
    nested (NodePath.segments destinationNode) <$>
      (if String.eqb sourceNode "/" then Some config else nodeAtPath config [] sourceNode).
Proof.
  intros Habs Hvalid.
  assert (forallb NodePath.validateNodeName (NodePath.segments destinationNode) = true)
    as Hnames.
  { unfold NodePath.validateNodePath in Hvalid. by destruct destinationNode. }
  unfold transformConfig, clone.
  destruct (String.eqb destinationNode "/") eqn:Hroot.
  - apply String.eqb_eq in Hroot. subst destinationNode.
    destruct (String.eqb sourceNode "/"); simpl; [done|].
    by destruct (nodeAtPath config [] sourceNode).
  - apply String.eqb_neq in Hroot.
    destruct (segments_absolute _ Habs Hroot) as [Hsegs Hne].
    rewrite andb_false_r, <- Hsegs.
    assert (∀ s, nestUnder (NodePath.segments destinationNode) s =
                 Some (nested (NodePath.segments destinationNode) s)) as Hnest.
    { intros s. by rewrite nestUnder_nested, Hnames. }
    destruct (String.eqb sourceNode "/"); simpl; [apply Hnest|].
    destruct (nodeAtPath config [] sourceNode) as [s|]; simpl; [apply Hnest|done].
Qed.

(** X4. [transformConfig] with a destination other than [/] wraps the
    source node in one Object for each name of the destination path, each
    with that one member; the source node is the whole configuration for the
    source [/] and a clone of the node found at the source path otherwise.
    With an absolute and valid destination path, as [read] requires, the
    only failure is a source path at which the configuration has no node.
    The node placed at a destination is found again at it: by descending the
    names of the path, by [nodeAtPath], and as the source node of a second
    transformation back to [/]. *)
Theorem transformConfig_relocates (config : ConfigNode) (sourceNode destinationNode : string) :
  NodePath.isAbsoluteNodePath destinationNode = true →
  NodePath.validateNodePath destinationNode = true →
  let sourceConfig :=
    if String.eqb sourceNode "/" then Some config else nodeAtPath config [] sourceNode in
  transformConfig config sourceNode destinationNode =
    nested (NodePath.segments destinationNode) <$> sourceConfig ∧
  (transformConfig config sourceNode destinationNode = None ↔
   sourceNode ≠ "/" ∧ nodeAtPath config [] sourceNode = None) ∧
  (∀ t, transformConfig config sourceNode destinationNode = Some t →
        descend (NodePath.segments destinationNode) t = sourceConfig ∧
        nodeAtPath t [] destinationNode = sourceConfig ∧
        transformConfig t destinationNode "/" = sourceConfig).
Proof.
  intros Habs Hvalid sourceConfig.
  assert (forallb NodePath.validateNodeName (NodePath.segments destinationNode) = true)
    as Hnames.
  { unfold NodePath.validateNodePath in Hvalid. by destruct destinationNode. }
  assert (transformConfig config sourceNode destinationNode =
          nested (NodePath.segments destinationNode) <$> sourceConfig) as Hclosed
    by (by apply transformConfig_closed).
  split; [exact Hclosed|]. split.
  - rewrite Hclosed. unfold sourceConfig.
    destruct (String.eqb sourceNode "/") eqn:Hsrc.
    + apply String.eqb_eq in Hsrc. simpl. split; [done|]. by intros [? _].
    + apply String.eqb_neq in Hsrc.
      destruct (nodeAtPath config [] sourceNode); simpl; split; try done.
      by intros [_ ?].
  - intros t. rewrite Hclosed.
    destruct sourceConfig as [s|]; [|done]. simpl. intros Heq.
    inversion Heq; subst t. clear Heq.
    assert (nodeAtPath (nested (NodePath.segments destinationNode) s) [] destinationNode
            = Some s) as Hfound.
    { unfold nodeAtPath. destruct destinationNode as [|c rest]; [done|].
      rewrite Habs. cbn [rootNode].
      by destruct (walk_nested (NodePath.segments (String c rest)) s Hnames [])
        as [ctx' ->]. }
    split; [apply descend_nested|]. split; [exact Hfound|].
    unfold transformConfig. cbn [String.eqb Ascii.eqb Bool.eqb andb].
    destruct (String.eqb destinationNode "/") eqn:Hroot.
    + apply String.eqb_eq in Hroot. by subst destinationNode.
    + simpl. by rewrite Hfound.
Qed.

Lemma transformConfig_relocates_witness :
  transformConfig (Object {["a" := Doc.val 1]}) "/a" "/x/y" =
    Some (Object {["x" := Object {["y" := Doc.val 1]}]}).
Proof.
  destruct (transformConfig_relocates (Object {["a" := Doc.val 1]}) "/a" "/x/y")
    as [Hclosed _]; [reflexivity|reflexivity|].
  rewrite Hclosed. vm_compute. reflexivity.
Defined.

(** ** What the reader makes of a JSON value *)

Lemma QJsonValue_nested_ind (P : QJsonValue → Prop) :
  P JNull →
  (∀ b, P (JBool b)) →
  (∀ d, P (JDouble d)) →
  (∀ s, P (JString s)) →
  (∀ items, Forall P items → P (JArray items)) →
  (∀ members, Forall (λ kv, P kv.2) members → P (JObject members)) →
  P JUndefined →
  ∀ v, P v.
Proof.
  intros HNull HBool HDouble HString HArray HObject HUndefined.
  refine (fix go (v : QJsonValue) : P v :=
    match v with
    | JNull => HNull
    | JBool b => HBool b
    | JDouble d => HDouble d
    | JString s => HString s
    | JArray items =>
        HArray items
          ((fix all (l : list QJsonValue) : Forall P l :=
              match l with
              | [] => List.Forall_nil P
              | x :: l' => @List.Forall_cons _ P x l' (go x) (all l')
              end) items)
    | JObject members =>
        HObject members
          ((fix all (l : list (string * QJsonValue)) : Forall (λ kv, P kv.2) l :=
              match l with
              | [] => List.Forall_nil _
              | (k, x) :: l' => @List.Forall_cons _ (λ kv, P kv.2) (k, x) l' (go x) (all l')
              end) members)
    | JUndefined => HUndefined
    end).
Qed.

Section ReaderShape.

Variable readValue : QJsonValue → string → option ConfigNode.
Variable readReference : QJsonValue → string → option ConfigNode.

Lemma readJsonArrayFrom_elements (items : list QJsonValue) (path : string) :
  ∀ i acc n,
    readJsonArrayFrom readValue items path i (Array acc) = Some n →
    ∃ es, n = Array (acc ++ es) ∧ length es = length items ∧
      ∀ j item, items !! j = Some item →
        ∃ e, es !! j = Some e ∧
             readValue item (NodePath.appendNodeToPath path (number (i + j))) = Some e.
Proof.
  induction items as [|item items IH]; intros i acc n Hread; simpl in Hread.
  - inversion Hread; subst. exists []. by rewrite app_nil_r.
  - destruct (readValue item _) as [e|] eqn:He; [|done].
    apply IH in Hread as (es & -> & Hlen & Hes).
    exists (e :: es). rewrite <- app_assoc. split; [done|]. split; [simpl; lia|].
    intros [|j] item' Hj; simpl in *.
    + inversion Hj; subst. exists e. by rewrite Nat.add_0_r.
    + destruct (Hes j item' Hj) as (e' & ? & Hread').
      exists e'. split; [done|]. by replace (i + S j) with (S i + j) by lia.
Qed.

Lemma readJsonArrayFrom_reads (items : list QJsonValue) (path : string) :
  ∀ i acc,
    (∀ j item, items !! j = Some item →
       is_Some (readValue item (NodePath.appendNodeToPath path (number (i + j))))) →
    is_Some (readJsonArrayFrom readValue items path i (Array acc)).
Proof.
  induction items as [|item items IH]; intros i acc Hall; simpl; [by eauto|].
  destruct (Hall 0 item eq_refl) as [e He]. rewrite Nat.add_0_r in He. rewrite He.
  apply IH. intros j item' Hj. replace (S i + j) with (i + S j) by lia.
  by apply (Hall (S j)).
Qed.

Lemma readJsonObjectFrom_lookup (members : list (string * QJsonValue)) (path : string) :
  ∀ acc n,
    readJsonObjectFrom readValue readReference members path (Object acc) = Some n →
    ∃ ms, n = Object ms ∧
      NoDup ((λ kv, memberNameOf kv.1) <$> members) ∧
      Forall (λ kv, NodePath.validateNodeName (memberNameOf kv.1) = true ∧
                    acc !! memberNameOf kv.1 = None ∧
                    is_Some (readDecorated readValue readReference (decoratorOf kv.1) kv.2
                               (NodePath.appendNodeToPath path (memberNameOf kv.1))))
        members ∧
      ∀ name e,
        ms !! name = Some e ↔
        acc !! name = Some e ∨
        ∃ key v, (key, v) ∈ members ∧ memberNameOf key = name ∧
                 readDecorated readValue readReference (decoratorOf key) v
                   (NodePath.appendNodeToPath path name) = Some e.
Proof.
  induction members as [|[key v] members IH]; intros acc n Hread; simpl in Hread.
  - inversion Hread; subst. exists acc. split; [done|]. split; [constructor|].
    split; [constructor|]. intros name e. split; [by left|].
    intros [?|(? & ? & Hin & _)]; [done|]. by apply elem_of_nil in Hin.
  - unfold memberNameOf, decoratorOf in *.
    destruct (splitDecorator key) as [decorator memberName] eqn:Hsplit.
    destruct (NodePath.validateNodeName memberName) eqn:Hvalid; [|done].
    simpl in Hread.
    destruct (bool_decide (is_Some (acc !! memberName))) eqn:Htaken; [done|].
    apply bool_decide_eq_false in Htaken.
    assert (acc !! memberName = None) as Hfree.
    { destruct (acc !! memberName); [|done]. exfalso. by eauto. }
    destruct (readDecorated _ _ _ _ _) as [e0|] eqn:He0; [|done].
    apply IH in Hread as (ms & -> & Hnodup & Hall & Hms).
    exists ms. split; [done|].
    assert (∀ kv, kv ∈ members → (splitDecorator kv.1).2 ≠ memberName) as Hother.
    { intros kv Hin Heq. rewrite Forall_forall in Hall.
      destruct (Hall kv Hin) as (_ & Hnone & _).
      rewrite Heq, lookup_insert_eq in Hnone. done. }
    split; [|split].
    + simpl. rewrite Hsplit. simpl. constructor; [|done].
      intros Hin. apply list_elem_of_fmap in Hin as (kv & Heq & Hin).
      by apply (Hother kv Hin).
    + constructor.
      * simpl. rewrite Hsplit. simpl. by rewrite He0.
      * rewrite Forall_forall in *. intros kv Hin.
        destruct (Hall kv Hin) as (Hv & Hnone & Hsome). split; [done|]. split; [|done].
        rewrite lookup_insert_ne in Hnone; [done|].
        intros Heq. by apply (Hother kv Hin).
    + intros name e. rewrite Hms. split.
      * intros [Hacc|(key' & v' & Hin & Hname & Hread)].
        -- destruct (decide (memberName = name)) as [->|Hne].
           ++ rewrite lookup_insert_eq in Hacc. inversion Hacc; subst e0.
              right. exists key, v. split; [by left|]. by rewrite Hsplit.
           ++ rewrite lookup_insert_ne in Hacc by done. by left.
        -- right. exists key', v'. split; [by right|done].
      * intros [Hacc|(key' & v' & Hin & Hname & Hread)].
        -- left. rewrite lookup_insert_ne; [done|]. intros ->. by rewrite Hfree in Hacc.
        -- apply elem_of_cons in Hin as [Heq|Hin].
           ++ inversion Heq; subst key' v'. rewrite Hsplit in Hname, Hread.
              simpl in Hname, Hread. subst name. left.
              rewrite lookup_insert_eq. by rewrite <- He0, <- Hread.
           ++ right. by exists key', v'.
Qed.

Lemma readJsonObjectFrom_reads (members : list (string * QJsonValue)) (path : string) :
  ∀ acc,
    NoDup ((λ kv, memberNameOf kv.1) <$> members) →
    Forall (λ kv, NodePath.validateNodeName (memberNameOf kv.1) = true ∧
                  acc !! memberNameOf kv.1 = None ∧
                  is_Some (readDecorated readValue readReference (decoratorOf kv.1) kv.2
                             (NodePath.appendNodeToPath path (memberNameOf kv.1))))
      members →
    is_Some (readJsonObjectFrom readValue readReference members path (Object acc)).
Proof.
  induction members as [|[key v] members IH]; intros acc Hnodup Hall; simpl; [by eauto|].
  apply Forall_cons in Hall as [(Hvalid & Hfree & [e He]) Hall].
  apply NoDup_cons in Hnodup as [Hnotin Hnodup].
  unfold memberNameOf, decoratorOf in *. simpl in *.
  destruct (splitDecorator key) as [decorator memberName] eqn:Hsplit. simpl in *.
  rewrite Hvalid. simpl. rewrite Hfree.
  rewrite bool_decide_eq_false_2 by (by intros [? ?]).
  rewrite He. apply IH; [done|].
  rewrite Forall_forall in *. intros kv Hin.
  destruct (Hall kv Hin) as (Hv & Hf & Hr). split; [done|]. split; [|done].
  rewrite lookup_insert_ne; [done|]. intros Heq. apply Hnotin.
  apply list_elem_of_fmap. by exists kv.
Qed.

End ReaderShape.

Lemma readReferenceType_unresolved (v : QJsonValue) (path : string) (n : ConfigNode) :
  readReferenceType v path = Some n → isFullyResolved n = false.
Proof.
  destruct v as [| | |s|items|o|]; simpl; try done.
  - unfold readReferenceNode. destruct (negb _); [done|]. by inversion 1.
  - intros Hread. apply readDerivedArrayNodeFrom_kind in Hread. by destruct n.
  - intros Hread. apply readDerivedObjectNodeWith_kind in Hread. by destruct n.
Qed.

Lemma memberNames_Permutation (ms : ObjectNodeData) (names : list string) :
  NoDup names →
  (∀ name, is_Some (ms !! name) ↔ name ∈ names) →
  memberNames (Object ms) ≡ₚ names.
Proof.
  intros Hnodup Hnames. rewrite memberNames_to_list, reverse_Permutation.
  apply NoDup_Permutation; [apply NoDup_fst_map_to_list|done|].
  intros name. rewrite <- Hnames. split.
  - intros Hin. apply list_elem_of_fmap in Hin as ([k c] & -> & Hin).
    apply elem_of_map_to_list in Hin. by eauto.
  - intros [c Hc]. apply list_elem_of_fmap. exists (name, c).
    split; [done|]. by apply elem_of_map_to_list.
Qed.

(** X5. [readJsonObject] reads a JSON object exactly when the names left
    of its keys, once a decorator is taken off, are valid node names and all
    different and every member can be read, in whatever order the members
    come. The Object it gives has these names and no other, and under each
    of them the node read from the member of that name, at the path of the
    object extended by the name. *)
Theorem readJsonObject_members (jsonObject : QJsonObject) (currentNodePath : string) :
  let names := (λ kv, memberNameOf kv.1) <$> jsonObject in
  (is_Some (readJsonObject jsonObject currentNodePath) ↔
   NoDup names ∧
   Forall (λ name, NodePath.validateNodeName name = true) names ∧
   Forall (λ kv, is_Some (readMember kv.1 kv.2 currentNodePath)) jsonObject) ∧
  (∀ n, readJsonObject jsonObject currentNodePath = Some n →
     ∃ ms, n = Object ms ∧
       memberNames n ≡ₚ names ∧
       (∀ name, containsMember n name = true ↔ name ∈ names) ∧
       ∀ key v, (key, v) ∈ jsonObject →
         is_Some (ms !! memberNameOf key) ∧
         ms !! memberNameOf key = readMember key v currentNodePath).
Proof.
  intros names. unfold readJsonObject, readMember. split; [split|].
  - intros [n Hread].
    apply readJsonObjectFrom_lookup in Hread as (ms & -> & Hnodup & Hall & _).
    split; [done|]. subst names. rewrite Forall_fmap.
    split; eapply Forall_impl; try exact Hall; simpl; tauto.
  - intros (Hnodup & Hvalid & Hread). apply readJsonObjectFrom_reads; [done|].
    subst names. rewrite Forall_fmap in Hvalid. rewrite Forall_forall in *.
    intros kv Hin. split; [by apply (Hvalid kv)|]. split; [done|]. by apply Hread.
  - intros n Hread.
    apply readJsonObjectFrom_lookup in Hread as (ms & -> & Hnodup & Hall & Hms).
    exists ms. split; [done|].
    assert (∀ name, is_Some (ms !! name) ↔ name ∈ names) as Hnames.
    { intros name. split.
      - intros [e He]. apply Hms in He as [He|(key & v & Hin & <- & _)]; [done|].
        apply list_elem_of_fmap. by exists (key, v).
      - intros Hin. apply list_elem_of_fmap in Hin as ([key v] & -> & Hin).
        rewrite Forall_forall in Hall. destruct (Hall _ Hin) as (_ & _ & [e He]).
        exists e. apply Hms. right. by exists key, v. }
    split; [by apply memberNames_Permutation|]. split.
    + intros name. simpl. rewrite bool_decide_eq_true. apply Hnames.
    + intros key v Hin.
      rewrite Forall_forall in Hall. destruct (Hall _ Hin) as (_ & _ & [e He]).
      simpl in He. rewrite He.
      assert (ms !! memberNameOf key = Some e) as Hlookup.
      { apply Hms. right. by exists key, v. }
      by rewrite Hlookup.
Qed.

Lemma readJsonObject_members_witness :
  memberNames (Object (<["a" := NodeReference "/b"]> {["b" := Doc.val 7]})) ≡ₚ ["a"; "b"].
Proof.
  destruct (readJsonObject_members [("&a", JString "/b"); ("b", Doc.num 7)] "/")
    as [_ Hread].
  destruct (Hread (Object (<["a" := NodeReference "/b"]> {["b" := Doc.val 7]})))
    as (ms & _ & Hnames & _); [vm_compute; reflexivity|].
  exact Hnames.
Defined.

(** X6. [readJsonArray] reads an array exactly when it can read every
    item, the item at index [i] at the path of the array extended by [i]; the
    Array it gives has as many elements as the JSON array has items, the
    element at each index being the node read from the item at that index.
    [readDerivedArrayNode] accepts only items that are JSON objects with the
    single member [element], decorated or not, and gives a DerivedArray with
    one element for each item, in their order; the elements are all read at
    the path of the derived array itself. *)
Theorem reader_arrays_elementwise (currentNodePath : string) :
  (∀ jsonArray n,
     readJsonArray jsonArray currentNodePath = Some n →
     ∃ es, n = Array es ∧ length es = length jsonArray ∧
       ∀ i item, jsonArray !! i = Some item →
         is_Some (es !! i) ∧
         es !! i = readJsonValue item
                     (NodePath.appendNodeToPath currentNodePath (number i))) ∧
  (∀ jsonArray,
     is_Some (readJsonArray jsonArray currentNodePath) ↔
     ∀ i item, jsonArray !! i = Some item →
       is_Some (readJsonValue item
                  (NodePath.appendNodeToPath currentNodePath (number i)))) ∧
  (∀ jsonArray n,
     readDerivedArrayNode jsonArray currentNodePath = Some n →
     ∃ es, n = DerivedArray es ∧
       Forall2 (λ item e, ∃ key elementValue,
                  item = JObject [(key, elementValue)] ∧
                  memberNameOf key = "element" ∧
                  readDecorated readJsonValue readReferenceType (decoratorOf key)
                    elementValue currentNodePath = Some e) jsonArray es).
Proof.
  unfold readJsonArray, readDerivedArrayNode.
  assert (∀ jsonArray n,
     readJsonArrayFrom readJsonValue jsonArray currentNodePath 0 (Array []) = Some n →
     ∃ es, n = Array es ∧ length es = length jsonArray ∧
       ∀ i item, jsonArray !! i = Some item →
         is_Some (es !! i) ∧
         es !! i = readJsonValue item
                     (NodePath.appendNodeToPath currentNodePath (number i))) as Helements.
  { intros jsonArray n Hread.
    apply readJsonArrayFrom_elements in Hread as (es & -> & Hlen & Hes).
    exists es. split; [done|]. split; [done|].
    intros i item Hi. destruct (Hes i item Hi) as (e & He & Hread).
    simpl in Hread. rewrite He, Hread. by eauto. }
  split; [exact Helements|]. split.
  - intros jsonArray. split.
    + intros [n Hread] i item Hi.
      destruct (Helements jsonArray n Hread) as (es & _ & _ & Hes).
      destruct (Hes i item Hi) as [Hsome Heq]. by rewrite <- Heq.
    + intros Hall. by apply readJsonArrayFrom_reads.
  - intros jsonArray n Hread.
    by apply readDerivedArrayNodeFrom_elements in Hread as (es & -> & Hes); eauto.
Qed.

Lemma reader_arrays_elementwise_witness :
  ∃ es, Array [Doc.val 1; Null] = Array es ∧ length es = 2.
Proof.
  destruct (reader_arrays_elementwise "/a") as [Harray _].
  destruct (Harray [Doc.num 1; JNull] (Array [Doc.val 1; Null]))
    as (es & Heq & Hlen & _); [vm_compute; reflexivity|].
  exists es. split; [exact Heq|exact Hlen].
Defined.

Lemma forallb_existsb_Forall2 (items : list QJsonValue) (es : list ConfigNode) :
  Forall2 (λ item e, isFullyResolved e = negb (hasReferenceMember item)) items es →
  forallb isFullyResolved es = negb (existsb hasReferenceMember items).
Proof.
  induction 1 as [|item e items es He Hes IH]; simpl; [done|].
  rewrite He, IH. by rewrite negb_orb.
Qed.

Lemma readJsonValue_isFullyResolved (jsonValue : QJsonValue) :
  ∀ currentNodePath n,
    readJsonValue jsonValue currentNodePath = Some n →
    isFullyResolved n = negb (hasReferenceMember jsonValue).
Proof.
  induction jsonValue as [|b|d|s|items IH|members IH|] using QJsonValue_nested_ind;
  intros currentNodePath n Hread; try (by inversion Hread).
- simpl in Hread.
  apply readJsonArrayFrom_elements in Hread as (es & -> & Hlen & Hes).
  cbn [app isFullyResolved hasReferenceMember].
  apply forallb_existsb_Forall2, Forall2_same_length_lookup. split; [done|].
  intros i item e Hitem He.
  destruct (Hes i item Hitem) as (e' & He' & Hread).
  assert (e' = e) as -> by congruence.
  rewrite Forall_forall in IH.
  eapply IH; [|exact Hread]. by eapply list_elem_of_lookup_2.
- simpl in Hread.
  apply readJsonObjectFrom_lookup in Hread as (ms & -> & _ & Hall & Hms).
  rewrite Forall_forall in IH, Hall.
  apply eq_true_iff_eq. rewrite isFullyResolved_Object, negb_true_iff.
  cbn [hasReferenceMember].
  rewrite <- not_true_iff_false, existsb_exists.
  split.
  + intros Hfull ([key v] & Hin & Hf). apply list_elem_of_In in Hin.
    destruct (Hall _ Hin) as (_ & _ & [e He]). simpl in He, Hf.
    assert (ms !! memberNameOf key = Some e) as Hlookup.
    { apply Hms. right. by exists key, v. }
    specialize (Hfull _ _ Hlookup). simpl in Hfull.
    unfold readDecorated in He.
    destruct (Ascii.eqb (decoratorOf key) "#"); [done|].
    destruct (Ascii.eqb (decoratorOf key) "&").
    * apply readReferenceType_unresolved in He. congruence.
    * apply (IH _ Hin) in He. simpl in He. rewrite Hf in He. simpl in He. congruence.
  + intros Hnone name e He. simpl.
    apply Hms in He as [He|(key & v & Hin & <- & He)]; [done|].
    assert ((if Ascii.eqb (decoratorOf key) "#" then false
             else if Ascii.eqb (decoratorOf key) "&" then true
             else hasReferenceMember v) ≠ true) as Hf.
    { intros Hf. apply Hnone. exists (key, v). split; [|done].
      by apply list_elem_of_In. }
    unfold readDecorated in He.
    destruct (Ascii.eqb (decoratorOf key) "#"); [by inversion He|].
    destruct (Ascii.eqb (decoratorOf key) "&"); [done|].
    apply (IH _ Hin) in He. simpl in He. rewrite He.
    by destruct (hasReferenceMember v).
Qed.

(** X7. The tree read from a JSON value is fully resolved exactly when no
    key decorated with [&] is reached in the value through arrays and through
    members without a decorator: every reference kind of the tree comes from
    such a key, every such key gives one, and what stands under a key
    decorated with [#] is never looked into. A document without [&] keys
    is therefore left as it is by the resolver. *)
Theorem reader_resolved_iff_no_reference (jsonValue : QJsonValue) :
  ∀ currentNodePath n,
    readJsonValue jsonValue currentNodePath = Some n →
    isFullyResolved n = negb (hasReferenceMember jsonValue) ∧
    (hasReferenceMember jsonValue = false →
     ∀ ctx, resolveReferences ctx n = (Resolved, n)).
Proof.
  intros currentNodePath n Hread.
  pose proof (readJsonValue_isFullyResolved jsonValue currentNodePath n Hread) as Hfull.
  split; [done|]. intros Hnone ctx.
  apply resolveReferences_stable. by rewrite Hfull, Hnone.
Qed.

Lemma reader_resolved_iff_no_reference_witness :
  isFullyResolved
    (Object {["a" := Array [Doc.val 1;
                            Object {["v" := Value (JObject [("&x", JString "/y")])]}]]})
  = negb (hasReferenceMember
            (JObject [("a", JArray [Doc.num 1;
                                    JObject [("#v", JObject [("&x", JString "/y")])]])])).
Proof.
  destruct (reader_resolved_iff_no_reference
              (JObject [("a", JArray [Doc.num 1;
                                      JObject [("#v", JObject [("&x", JString "/y")])]])])
              "/"
              (Object {["a" := Array [Doc.val 1;
                                      Object {["v" := Value (JObject [("&x", JString "/y")])]}]]}))
    as [Hfull _]; [vm_compute; reflexivity|].
  exact Hfull.
Defined.

(** ** Derived objects: what is read and when resolution fails *)

(** X8. [readDerivedObjectNode] looks at two members of the JSON object
    and at no other: [base], which must be there and be a string or a
    non-empty array of strings, and [config], which may be absent, null or a
    JSON object. It gives a DerivedObject whose bases are these strings in
    their order, never none, and whose override is Null when [config] is
    absent or null and the Object read by [readJsonObject] at the path of
    the derived object otherwise. The strings of [base] are taken as they
    are: unlike the string of a node reference they are not checked to be
    node paths. *)
Theorem readDerivedObjectNode_shape (jsonObject : QJsonObject) (currentNodePath : string) :
  (∀ n, readDerivedObjectNode jsonObject currentNodePath = Some n →
     ∃ bases config,
       n = DerivedObject bases config ∧ bases ≠ [] ∧
       match Json.value jsonObject "base" with
       | JString s => bases = [s]
       | JArray items => items = JString <$> bases
       | _ => False
       end ∧
       match Json.value jsonObject "config" with
       | JObject o =>
           readJsonObject o currentNodePath = Some config ∧ isObject config = true
       | _ => config = Null
       end) ∧
  (is_Some (readDerivedObjectNode jsonObject currentNodePath) ↔
   match Json.value jsonObject "base" with
   | JString _ => True
   | JArray items => items ≠ [] ∧ Forall (λ item, Json.isString item = true) items
   | _ => False
   end ∧
   match Json.value jsonObject "config" with
   | JObject o => is_Some (readJsonObject o currentNodePath)
   | JNull => True
   | JUndefined => Json.contains jsonObject "config" = false
   | _ => False
   end) ∧
  (∀ other,
     Json.value other "base" = Json.value jsonObject "base" →
     Json.value other "config" = Json.value jsonObject "config" →
     Json.contains other "config" = Json.contains jsonObject "config" →
     readDerivedObjectNode other currentNodePath =
     readDerivedObjectNode jsonObject currentNodePath).
Proof.
  assert (∀ o, readDerivedObjectNode o currentNodePath =
    match Json.value o "base" with
    | JString _ | JArray _ =>
        match readBases (Json.value o "base") with
        | Some bases =>
            match (if Json.contains o "config" then
                     match Json.value o "config" with
                     | JObject c => readJsonObject c currentNodePath
                     | JNull => Some Null
                     | _ => None
                     end
                   else Some Null) with
            | Some c => Some (DerivedObject bases c)
            | None => None
            end
        | None => None
        end
    | _ => None
    end) as Hread.
  { intros o. unfold readDerivedObjectNode, readDerivedObjectNodeWith.
    rewrite withValue_contains.
    destruct (Json.contains o "base") eqn:Hbase; simpl.
    - by destruct (Json.value o "base").
    - by rewrite (value_absent _ _ Hbase). }
  assert (∀ items : list QJsonValue,
    Forall (λ item, Json.isString item = true) items ↔ ∃ bases, items = JString <$> bases)
    as Hstrings.
  { intros items. split.
    - induction 1 as [|item items Hitem _ [bases ->]]; [by exists []|].
      destruct item as [| | |s| | |]; try done. by exists (s :: bases).
    - intros [bases ->]. apply Forall_fmap, Forall_forall. done. }
  split; [|split].
  - intros n. rewrite Hread.
    destruct (Json.value jsonObject "base") as [| | |s|items| |] eqn:Hbase; try done.
    + simpl.
      destruct (Json.contains jsonObject "config") eqn:Hcontains.
      * destruct (Json.value jsonObject "config") as [| | | | |c|] eqn:Hconfig; try done.
        -- inversion 1; subst. by exists [s], Null.
        -- destruct (readJsonObject c currentNodePath) as [config|] eqn:Hc; [|done].
           inversion 1; subst. exists [s], config. do 3 (split; [done|]).
           split; [done|].
           apply readJsonObjectFrom_Object in Hc as [ms ->]. done.
      * rewrite (value_absent _ _ Hcontains). inversion 1; subst. by exists [s], Null.
    + simpl. destruct (readBaseItems items) as [bases|] eqn:Hitems; [|done].
      apply readBaseItems_strings in Hitems.
      destruct bases as [|base bases]; [done|].
      destruct (Json.contains jsonObject "config") eqn:Hcontains.
      * destruct (Json.value jsonObject "config") as [| | | | |c|] eqn:Hconfig; try done.
        -- inversion 1; subst. by exists (base :: bases), Null.
        -- destruct (readJsonObject c currentNodePath) as [config|] eqn:Hc; [|done].
           inversion 1; subst. exists (base :: bases), config. do 3 (split; [done|]).
           split; [done|].
           apply readJsonObjectFrom_Object in Hc as [ms ->]. done.
      * rewrite (value_absent _ _ Hcontains). inversion 1; subst.
        by exists (base :: bases), Null.
  - rewrite Hread.
    assert (is_Some
      (if Json.contains jsonObject "config" then
         match Json.value jsonObject "config" with
         | JObject c => readJsonObject c currentNodePath
         | JNull => Some Null
         | _ => None
         end
       else Some Null) ↔
      match Json.value jsonObject "config" with
      | JObject o => is_Some (readJsonObject o currentNodePath)
      | JNull => True
      | JUndefined => Json.contains jsonObject "config" = false
      | _ => False
      end) as Hconfig.
    { destruct (Json.contains jsonObject "config") eqn:Hcontains.
      - destruct (Json.value jsonObject "config"); split; try done;
          by (intros [? ?]) || by eauto.
      - rewrite (value_absent _ _ Hcontains). split; by eauto. }
    destruct (Json.value jsonObject "base") as [| | |s|items| |] eqn:Hbase;
      try (split; [by intros [? ?]|by intros [? _]]).
    + simpl. rewrite <- Hconfig.
      destruct (if Json.contains jsonObject "config" then _ else _) as [c|];
        split; try (by eauto); by intros [_ [? ?]] || by intros [? ?].
    + simpl. rewrite <- Hconfig, Hstrings.
      destruct (readBaseItems items) as [bases|] eqn:Hitems.
      * apply readBaseItems_strings in Hitems. subst items.
        destruct bases as [|base bases].
        -- split; [by intros [? ?]|]. by intros [[? _] _].
        -- destruct (if Json.contains jsonObject "config" then _ else _) as [c|].
           ++ split; [|by eauto]. intros _. split; [|by eauto].
              split; [done|by eauto].
           ++ split; [by intros [? ?]|]. by intros [_ [? ?]].
      * split; [by intros [? ?]|]. intros [[_ [bases ->]] _].
        assert (readBaseItems (JString <$> bases) = Some bases) as Heq
          by (by apply readBaseItems_strings).
        by rewrite Heq in Hitems.
  - intros other Hbase Hconfig Hcontains. by rewrite !Hread, Hbase, Hconfig, Hcontains.
Qed.

Lemma readDerivedObjectNode_shape_witness :
  ∃ bases config,
    DerivedObject ["not a path"; "/b"] (Object {["n" := Doc.val 7]})
      = DerivedObject bases config ∧ bases ≠ [].
Proof.
  destruct (readDerivedObjectNode_shape
              [("base", JArray [JString "not a path"; JString "/b"]);
               ("config", JObject [("n", Doc.num 7)]);
               ("ignored", JNull)] "/d") as [Hshape _].
  destruct (Hshape (DerivedObject ["not a path"; "/b"] (Object {["n" := Doc.val 7]})))
    as (bases & config & Heq & Hne & _); [vm_compute; reflexivity|].
  exists bases, config. split; [exact Heq|exact Hne].
Defined.

(** ** When the resolution of a derived object fails *)

Lemma applyObject_isObject (dst src r : ConfigNode) :
  applyObject dst src = Some r → isObject r = true.
Proof. intros Happ. by apply applyObject_Some_inv in Happ as (d & s & m & _ & _ & -> & _). Qed.

Lemma applyBases_isObject parentNode ctx (bases : list string) :
  ∀ derived derived',
    applyBases parentNode ctx bases derived = inr derived' →
    isObject derived = true → isObject derived' = true.
Proof.
  induction bases as [|base bases IH]; intros derived derived' Heq Hd; simpl in Heq.
  - by inversion Heq; subst.
  - destruct (nodeAtPath parentNode ctx base) as [baseNode|]; [|done].
    destruct (negb (isFullyResolved baseNode)); [done|].
    destruct (applyObject derived baseNode) as [d|] eqn:Happ; [|done].
    eapply IH; [exact Heq|]. by eapply applyObject_isObject.
Qed.

Lemma applyBases_Error parentNode ctx (bases : list string) :
  ∀ derived,
    applyBases parentNode ctx bases derived = inl Error →
    isObject derived = true →
    ∃ before base after b derived',
      bases = before ++ base :: after ∧
      applyBases parentNode ctx before derived = inr derived' ∧
      nodeAtPath parentNode ctx base = Some b ∧
      isFullyResolved b = true ∧ isObject b = false.
Proof.
  induction bases as [|base bases IH]; intros derived Heq Hd; simpl in Heq; [done|].
  destruct (nodeAtPath parentNode ctx base) as [baseNode|] eqn:Hbase; [|done].
  destruct (isFullyResolved baseNode) eqn:Hfull; [|done]. simpl in Heq.
  destruct (applyObject derived baseNode) as [d|] eqn:Happ.
  - destruct (IH d Heq) as (before & base' & after & b & derived' & -> & Hbefore & Hb);
      [by eapply applyObject_isObject|].
    exists (base :: before), base', after, b, derived'. split; [done|].
    split; [|done]. simpl. by rewrite Hbase, Hfull, Happ.
  - exists [], base, bases, baseNode, derived. do 4 (split; [done|]).
    apply applyObject_fails in Happ as [Hnot|Hnot]; [congruence|done].
Qed.

Lemma applyOverride_Object bases config derived :
  isObject derived = true → isNull config = true ∨ isObject config = true →
  (applyOverride bases config derived).1 = Resolved.
Proof.
  intros Hd Hc. unfold applyOverride.
  destruct (isNull config) eqn:Hnull; [done|]. simpl.
  destruct Hc as [?|Hc]; [done|].
  destruct (applyObject derived config) as [d|] eqn:Happ; [done|].
  apply applyObject_fails in Happ as [?|?]; congruence.
Qed.

(** X9. What makes the resolution of a derived object fail. Without a
    parent it is an Error. With a parent, and with an override that is Null
    or an Object as the reader gives it, the pass answers Error in two cases
    only, and leaves the derived object as it was: one of its bases, the
    bases before it having been merged, is found fully resolved but is not an
    Object; or the bases were merged and the pass over the unresolved
    override answered Error. A base that is found, fully resolved and not an
    Object, after bases that merged, always gives Error. *)
Theorem derived_object_error_causes :
  (∀ bases config,
     resolveReferences [] (DerivedObject bases config)
       = (Error, DerivedObject bases config)) ∧
  (∀ f ctx bases config node',
     let node := DerivedObject bases config in
     isNull config = true ∨ isObject config = true →
     resolveReferences (f :: ctx) node = (Error, node') →
     node' = node ∧
     ((∃ before base after b derived,
         bases = before ++ base :: after ∧
         applyBases (plug node f) ctx before (Object ∅) = inr derived ∧
         nodeAtPath (plug node f) ctx base = Some b ∧
         isFullyResolved b = true ∧ isObject b = false) ∨
      (∃ derived config',
         applyBases (plug node f) ctx bases (Object ∅) = inr derived ∧
         isFullyResolved config = false ∧
         resolveReferences (MkFrame (plug node f) Detached :: ctx) config
           = (Error, config')))) ∧
  (∀ f ctx before base after config b derived,
     let node := DerivedObject (before ++ base :: after) config in
     applyBases (plug node f) ctx before (Object ∅) = inr derived →
     nodeAtPath (plug node f) ctx base = Some b →
     isFullyResolved b = true → isObject b = false →
     resolveReferences (f :: ctx) node = (Error, node)).
Proof.
  split; [done|]. split.
  - intros f ctx bases config node' node Hconfig. subst node.
    cbn [resolveReferences]. unfold resolveDerivedObjectReferences.
    destruct (applyBases _ _ bases (Object ∅)) as [result|derived] eqn:Hbases.
    { intros Heq. inversion Heq; subst. split; [done|]. left.
      by apply applyBases_Error in Hbases. }
    assert (isObject derived = true) as Hd by (by eapply applyBases_isObject).
    destruct (isFullyResolved config) eqn:Hfull; simpl.
    + intros Heq. pose proof (applyOverride_Object bases config derived Hd Hconfig) as Hres.
      rewrite Heq in Hres. done.
    + unfold clone.
      destruct (resolveReferences _ config) as [[] config'] eqn:Hpass.
      * intros Heq.
        assert (isObject config' = true) as Hc'.
        { destruct Hconfig as [Hc|Hc]; destruct config as [| | |ms| | |]; try done.
          simpl in Hpass. unfold resolveObjectReferences in Hpass.
          destruct (map_fold _ _ ms) as [res cur]. by inversion Hpass. }
        pose proof (applyOverride_Object bases config' derived Hd (or_intror Hc')) as Hres.
        rewrite Heq in Hres. done.
      * by inversion 1.
      * intros Heq. inversion Heq; subst. split; [done|]. right. by eauto.
  - intros f ctx before base after config b derived node Hbefore Hbase Hfull Hobj.
    subst node. cbn [resolveReferences]. unfold resolveDerivedObjectReferences.
    rewrite applyBases_app, Hbefore. simpl. rewrite Hbase, Hfull. simpl.
    assert (applyObject derived b = None) as -> by (apply applyObject_fails; by right).
    done.
Qed.

Lemma derived_object_error_causes_witness :
  resolveReferences [MkFrame (Object {["a" := Doc.val 1]}) (InMember "d")]
    (DerivedObject ["/a"] Null)
  = (Error, DerivedObject ["/a"] Null).
Proof.
  destruct derived_object_error_causes as (_ & _ & Hbase).
  apply (Hbase (MkFrame (Object {["a" := Doc.val 1]}) (InMember "d")) []
           [] "/a" [] Null (Doc.val 1) (Object ∅));
    vm_compute; reflexivity.
Defined.

(** ** The loop over the includes *)

Section IncludesLoop.

Variable read : string → string → string → string → Res ConfigNode.
Variable workingDir : string.

Lemma includeNodePath_Fail (o : QJsonObject) (key : string) (e e' : ReadError) :
  includeNodePath o key e = Fail e' → e' = e.
Proof.
  unfold includeNodePath. destruct (Json.contains o key); [|done].
  destruct (Json.value o key); by inversion 1.
Qed.

Lemma includeType_Fail (o : QJsonObject) (i : nat) (e : ReadError) :
  includeType o i = Fail e → e = IncludeTypeNotString i.
Proof.
  unfold includeType. destruct (Json.contains o "type"); [|done].
  destruct (Json.value o "type"); by inversion 1.
Qed.

Lemma readInclude_Fail_index i includeValue includesConfig e :
  readInclude read workingDir i includeValue includesConfig = Fail e →
  errorIndex e = Some i.
Proof.
  unfold readInclude. destruct includeValue as [| | | | |o|]; try (by inversion 1).
  destruct (includeType o i) as [type|e0] eqn:Htype; simpl.
  2: { apply includeType_Fail in Htype as ->. by inversion 1. }
  destruct (negb (String.eqb type "CppConfigFramework")); [by inversion 1|].
  unfold readIncludeFile.
  destruct (negb (Json.contains o "file_path")); [by inversion 1|].
  destruct (Json.value o "file_path") as [| | |filePath| | |]; try (by inversion 1).
  destruct (includeNodePath o "source_node" _) as [sourceNode|e1] eqn:Hsource;
    simpl.
  2: { apply includeNodePath_Fail in Hsource as ->. by inversion 1. }
  destruct (includeNodePath o "destination_node" _) as [destinationNode|e2] eqn:Hdest;
    simpl.
  2: { apply includeNodePath_Fail in Hdest as ->. by inversion 1. }
  destruct (read filePath workingDir sourceNode destinationNode) as [config|];
    simpl; [|by inversion 1].
  destruct (applyObject includesConfig config); by inversion 1.
Qed.

Lemma readInclude_Done_Object i includeValue includesConfig includesConfig' :
  readInclude read workingDir i includeValue includesConfig = Done includesConfig' →
  ∃ includeObject filePath sourceNode destinationNode config,
    includeValue = JObject includeObject ∧
    Json.value includeObject "file_path" = JString filePath ∧
    read filePath workingDir sourceNode destinationNode = Done config ∧
    applyObject includesConfig config = Some includesConfig'.
Proof.
  unfold readInclude. destruct includeValue as [| | | | |o|]; try done.
  destruct (includeType o i) as [type|]; try done. simpl.
  destruct (negb (String.eqb type "CppConfigFramework")); [done|].
  unfold readIncludeFile.
  destruct (negb (Json.contains o "file_path")); [done|].
  destruct (Json.value o "file_path") as [| | |filePath| | |] eqn:Hpath; try done.
  destruct (includeNodePath o "source_node" _) as [sourceNode|]; try done.
  destruct (includeNodePath o "destination_node" _) as [destinationNode|]; try done.
  simpl.
  destruct (read filePath workingDir sourceNode destinationNode) as [config|] eqn:Hread;
    try done.
  simpl. destruct (applyObject includesConfig config) as [merged|] eqn:Happ; [|done].
  inversion 1; subst. by exists o, filePath, sourceNode, destinationNode, config.
Qed.

Lemma readIncludesFrom_app (before after : list QJsonValue) :
  ∀ i includesConfig,
    readIncludesFrom read workingDir (before ++ after) i includesConfig =
    (includesConfig' ← readIncludesFrom read workingDir before i includesConfig;
     readIncludesFrom read workingDir after (i + length before) includesConfig').
Proof.
  induction before as [|includeValue before IH]; intros i includesConfig; simpl.
  - by rewrite Nat.add_0_r.
  - destruct (readInclude read workingDir i includeValue includesConfig)
      as [includesConfig'|]; simpl; try done.
    rewrite IH. by rewrite Nat.add_succ_r.
Qed.

Lemma readIncludesFrom_Fail (includesArray : list QJsonValue) :
  ∀ i includesConfig e,
    readIncludesFrom read workingDir includesArray i includesConfig = Fail e →
    ∃ before includeValue after config,
      includesArray = before ++ includeValue :: after ∧
      readIncludesFrom read workingDir before i includesConfig = Done config ∧
      readInclude read workingDir (i + length before) includeValue config = Fail e.
Proof.
  induction includesArray as [|includeValue rest IH]; intros i includesConfig e;
    simpl; [done|].
  destruct (readInclude read workingDir i includeValue includesConfig)
    as [includesConfig'|] eqn:Hinc; simpl; try done.
  - intros Hrest.
    apply IH in Hrest as (before & includeValue' & after & config & -> & Hbefore & Hfail).
    exists (includeValue :: before), includeValue', after, config.
    split; [done|]. simpl. rewrite Hinc. simpl. split; [done|].
    by rewrite Nat.add_succ_r.
  - inversion 1; subst. exists [], includeValue, rest, includesConfig.
    simpl. by rewrite Nat.add_0_r.
Qed.

Lemma readIncludesFrom_Object (includesArray : list QJsonValue) :
  ∀ i includesConfig includesConfig',
    readIncludesFrom read workingDir includesArray i includesConfig = Done includesConfig' →
    isObject includesConfig = true → isObject includesConfig' = true.
Proof.
  induction includesArray as [|includeValue rest IH];
    intros i includesConfig includesConfig'; simpl.
  - by inversion 1; subst.
  - destruct (readInclude read workingDir i includeValue includesConfig)
      as [config|] eqn:Hinc; simpl; try done.
    intros Hrest _. apply (IH _ _ _ Hrest).
    apply readInclude_Done_Object in Hinc as (? & ? & ? & ? & ? & _ & _ & _ & Happ).
    by eapply applyObject_isObject.
Qed.

Lemma readInclude_Done_iff i includeValue includesConfig includesConfig' :
  readInclude read workingDir i includeValue includesConfig = Done includesConfig' ↔
  ∃ config, IncludeReads read workingDir i includeValue config ∧
            applyObject includesConfig config = Some includesConfig'.
Proof.
  split.
  - unfold readInclude. destruct includeValue as [| | | | |o|]; try done.
    destruct (includeType o i) as [type|] eqn:Htype; try done. simpl.
    destruct (String.eqb type "CppConfigFramework") eqn:Heq; [|done].
    apply String.eqb_eq in Heq as ->. simpl.
    unfold readIncludeFile.
    destruct (Json.contains o "file_path") eqn:Hcontains; [|done]. simpl.
    destruct (Json.value o "file_path") as [| | |filePath| | |] eqn:Hpath; try done.
    destruct (includeNodePath o "source_node" _) as [sourceNode|] eqn:Hs; try done.
    destruct (includeNodePath o "destination_node" _) as [destinationNode|] eqn:Hd;
      try done.
    simpl.
    destruct (read filePath workingDir sourceNode destinationNode) as [config|] eqn:Hread;
      try done.
    simpl. destruct (applyObject includesConfig config) as [merged|] eqn:Happ; [|done].
    inversion 1; subst. exists config. split; [|done].
    by exists o, filePath, sourceNode, destinationNode.
  - intros (config & (o & filePath & s & d & -> & Htype & Hcontains & Hpath & Hs & Hd & Hread)
            & Happ).
    unfold readInclude. rewrite Htype. simpl. unfold readIncludeFile.
    rewrite Hcontains, Hpath, Hs, Hd. simpl. rewrite Hread. simpl. by rewrite Happ.
Qed.

Lemma readIncludesFrom_Done_iff (includesArray : list QJsonValue) :
  ∀ i includesConfig includesConfig',
    readIncludesFrom read workingDir includesArray i includesConfig = Done includesConfig' ↔
    ∃ configs,
      length configs = length includesArray ∧
      (∀ j includeValue config,
         includesArray !! j = Some includeValue → configs !! j = Some config →
         IncludeReads read workingDir (i + j) includeValue config) ∧
      applyAll includesConfig configs = Some includesConfig'.
Proof.
  induction includesArray as [|includeValue rest IH];
    intros i includesConfig includesConfig'; simpl.
  - split.
    + inversion 1; subst. exists []. by repeat split.
    + intros ([|c cs] & Hlen & _ & Hall); [|done]. by inversion Hall.
  - split.
    + destruct (readInclude read workingDir i includeValue includesConfig)
        as [mid|] eqn:Hinc; simpl; [|done].
      intros Hrest. apply readInclude_Done_iff in Hinc as (config & Hreads & Happ).
      apply IH in Hrest as (configs & Hlen & Hall & Hmerge).
      exists (config :: configs). split; [simpl; by rewrite Hlen|]. split.
      * intros [|j] v c; simpl.
        -- inversion 1; inversion 1; subst. by rewrite Nat.add_0_r.
        -- intros Hv Hc. replace (i + S j) with (S i + j) by lia. by eapply Hall.
      * unfold applyAll in *. simpl. by rewrite Happ.
    + intros ([|config configs] & Hlen & Hall & Hmerge); [done|].
      assert (IncludeReads read workingDir i includeValue config) as Hreads.
      { rewrite <- (Nat.add_0_r i). by apply (Hall 0). }
      unfold applyAll in Hmerge. simpl in Hmerge.
      destruct (applyObject includesConfig config) as [mid|] eqn:Happ.
      2: { by rewrite applyAll_None in Hmerge. }
      assert (readInclude read workingDir i includeValue includesConfig = Done mid)
        as -> by (apply readInclude_Done_iff; eauto).
      simpl. apply IH. exists configs. split; [simpl in Hlen; lia|]. split; [|done].
      intros j v c Hv Hc. replace (S i + j) with (i + S j) by lia. by apply (Hall (S j)).
Qed.

End IncludesLoop.

(** X10. The includes are read in the order of the array and merged into
    one aggregate, which starts as the empty Object and is an Object at the
    end: the includes are read with success exactly when every item is an
    include whose file [read] returns a tree for and these trees, merged by
    [applyObject] one after the other in the order of the array onto the
    aggregate, give the result. Reading the includes of an array made of two parts is reading the
    first part and then the second, with the indexes following on. When the
    reading of the includes fails, the error names the index of the first
    include that fails: the includes before it were read and merged, that
    one failed on the aggregate so far, and no later include is looked at.
    Without an [includes] member, or with a null one, no file is read. *)
Theorem includes_read_in_order
    (read : string → string → string → string → Res ConfigNode) (workingDir : string) :
  (∀ before after i includesConfig,
     readIncludesFrom read workingDir (before ++ after) i includesConfig =
     (includesConfig' ← readIncludesFrom read workingDir before i includesConfig;
      readIncludesFrom read workingDir after (i + length before) includesConfig')) ∧
  (∀ rootObject includesArray e,
     Json.value rootObject "includes" = JArray includesArray →
     readIncludesMember read rootObject workingDir = Fail e →
     ∃ before includeValue after config,
       includesArray = before ++ includeValue :: after ∧
       errorIndex e = Some (length before) ∧
       readIncludesFrom read workingDir before 0 (Object ∅) = Done config ∧
       readInclude read workingDir (length before) includeValue config = Fail e ∧
       ∀ after', readIncludesMember read
                   (Json.set rootObject "includes" (JArray (before ++ includeValue :: after')))
                   workingDir = Fail e) ∧
  (∀ rootObject includesConfig,
     readIncludesMember read rootObject workingDir = Done includesConfig →
     isObject includesConfig = true) ∧
  (∀ rootObject other,
     Json.value rootObject "includes" = JNull ∨ Json.contains rootObject "includes" = false →
     readIncludesMember read rootObject workingDir = Done (Object ∅) ∧
     readIncludesMember other rootObject workingDir = Done (Object ∅)) ∧
  (∀ includesArray i includesConfig includesConfig',
     readIncludesFrom read workingDir includesArray i includesConfig = Done includesConfig' ↔
     ∃ configs,
       length configs = length includesArray ∧
       (∀ j includeValue config,
          includesArray !! j = Some includeValue → configs !! j = Some config →
          IncludeReads read workingDir (i + j) includeValue config) ∧
       applyAll includesConfig configs = Some includesConfig') ∧
  (∀ rootObject includesArray includesConfig,
     Json.value rootObject "includes" = JArray includesArray →
     (readIncludesMember read rootObject workingDir = Done includesConfig ↔
      ∃ configs,
        length configs = length includesArray ∧
        (∀ j includeValue config,
           includesArray !! j = Some includeValue → configs !! j = Some config →
           IncludeReads read workingDir j includeValue config) ∧
        applyAll (Object ∅) configs = Some includesConfig)).
Proof.
  split; [|split; [|split; [|split; [|split]]]].
  - intros before after i includesConfig. apply readIncludesFrom_app.
  - intros rootObject includesArray e Hincludes. unfold readIncludesMember.
    rewrite Hincludes. simpl. intros Hfail.
    apply readIncludesFrom_Fail in Hfail
      as (before & includeValue & after & config & -> & Hbefore & Hfail).
    simpl in Hfail.
    exists before, includeValue, after, config. split; [done|].
    split; [by eapply readInclude_Fail_index|]. split; [done|]. split; [done|].
    intros after'. destruct (json_set_same rootObject "includes"
      (JArray (before ++ includeValue :: after'))) as [_ ->]. simpl.
    rewrite readIncludesFrom_app, Hbefore. simpl. by rewrite Hfail.
  - intros rootObject includesConfig. unfold readIncludesMember.
    destruct (_ || _); [by inversion 1; subst|].
    destruct (Json.value rootObject "includes"); try done.
    intros Hread. by eapply readIncludesFrom_Object.
  - intros rootObject other Habsent. unfold readIncludesMember.
    destruct Habsent as [->|Habsent]; [done|].
    by rewrite (value_absent _ _ Habsent).
  - intros includesArray. apply readIncludesFrom_Done_iff.
  - intros rootObject includesArray includesConfig Hincludes.
    unfold readIncludesMember. rewrite Hincludes. simpl.
    apply (readIncludesFrom_Done_iff read workingDir includesArray 0).
Qed.

Lemma includes_read_in_order_witness :
  (∃ before : list QJsonValue,
     errorIndex (IncludeFilePathMissing 1) = Some (length before)) ∧
  (∃ configs : list ConfigNode,
     length configs = 2 ∧
     applyAll (Object ∅) configs =
     Some (Object (<["x" := Doc.val 1]> (<["y" := Doc.val 2]> (<["a" := Doc.val 1]>
             {["b" := Object {["c" := Value (JString "x")]}]}))))).
Proof.
  destruct (includes_read_in_order Doc.readFile "") as (_ & Hfail & _ & _ & _ & Hmerge).
  split.
  - destruct (Hfail [("includes", JArray [JObject [("file_path", JString "base.json")];
                                           JObject [("type", JNull)];
                                           JNull])]
                [JObject [("file_path", JString "base.json")]; JObject [("type", JNull)]; JNull]
                (IncludeFilePathMissing 1))
      as (before & includeValue & after & config & Hsplit & Hindex & Hbefore & Hinclude & _);
      [reflexivity|vm_compute; reflexivity|].
    exists before. exact Hindex.
  - destruct (Hmerge [("includes", JArray [JObject [("file_path", JString "base.json")];
                                            JObject [("file_path", JString "plain.json")]])]
                [JObject [("file_path", JString "base.json")];
                 JObject [("file_path", JString "plain.json")]]
                (Object (<["x" := Doc.val 1]> (<["y" := Doc.val 2]> (<["a" := Doc.val 1]>
                   {["b" := Object {["c" := Value (JString "x")]}]}))))
                eq_refl) as [Hmerged _].
    destruct Hmerged as (configs & Hlength & _ & Happly); [vm_compute; reflexivity|].
    exists configs. split; [exact Hlength|exact Happly].
Defined.

(** ** What a successful [read] requires, and the root it returns *)

Lemma readIncludesMember_isObject
    (read : string → string → string → string → Res ConfigNode)
    (rootObject : QJsonObject) (workingDir : string) (includesConfig : ConfigNode) :
  readIncludesMember read rootObject workingDir = Done includesConfig →
  isObject includesConfig = true.
Proof.
  unfold readIncludesMember.
  destruct (_ || _); [by inversion 1; subst|].
  destruct (Json.value rootObject "includes"); try done.
  intros Hread. by eapply readIncludesFrom_Object.
Qed.

Lemma resolveCycles_isObject (cycles : nat) :
  ∀ config result config' passes,
    resolveCycles cycles config = (result, config', passes) →
    isObject config = true → isObject config' = true.
Proof.
  induction cycles as [|cycles IH]; intros config result config' passes Heq Hobj;
    simpl in Heq.
  - by inversion Heq; subst.
  - destruct config as [| | |ms| | |]; try done.
    simpl in Heq. unfold resolveObjectReferences in Heq.
    destruct (map_fold _ _ ms) as [res cur].
    destruct res.
    + by inversion Heq; subst.
    + destruct (resolveCycles cycles (Object cur)) as [[res2 node2] passes2] eqn:Hrest.
      inversion Heq; subst. by eapply IH.
    + by inversion Heq; subst.
Qed.

Lemma nestUnder_isObject (nodeNames : list string) (sourceConfig t : ConfigNode) :
  nestUnder nodeNames sourceConfig = Some t → isObject t = true.
Proof.
  destruct nodeNames as [|nodeName rest]; simpl; [by inversion 1|].
  destruct (negb (NodePath.validateNodeName nodeName)); [done|].
  destruct rest as [|nodeName' rest']; [by inversion 1|].
  destruct (nestUnder _ _); by inversion 1.
Qed.

(** X11. What every successful [read] went through. The source and the
    destination are absolute and valid node paths; the file holds a JSON
    object whose [config] member is a JSON object, read by [readJsonObject]
    at the path [/]; the includes were read and the config member was merged
    onto their aggregate. A document whose [config] member is null is read
    by [readConfigMember] as a Null node, but cannot be merged: once its
    includes are read, [read] fails ("failed to apply the 'config' member").
    The tree returned is an Object, except when a source node other than
    [/] is moved to the destination [/]. *)
Theorem read_needs_config_object
    this absoluteFilePath absoluteDir files depth
    filePath workingDir sourceNode destinationNode :
  (∀ t,
     read this absoluteFilePath absoluteDir files depth filePath workingDir
       sourceNode destinationNode = Done t →
     NodePath.isAbsoluteNodePath sourceNode = true ∧
     NodePath.validateNodePath sourceNode = true ∧
     NodePath.isAbsoluteNodePath destinationNode = true ∧
     NodePath.validateNodePath destinationNode = true ∧
     (∃ rootObject o depth' includesConfig configMember merged,
        depth = S depth' ∧
        files (absoluteFilePath workingDir filePath) = FileDocument (JObject rootObject) ∧
        Json.value rootObject "config" = JObject o ∧
        readIncludesMember (read this absoluteFilePath absoluteDir files depth')
          rootObject (absoluteDir (absoluteFilePath workingDir filePath))
          = Done includesConfig ∧
        readJsonObject o "/" = Some configMember ∧
        applyObject includesConfig configMember = Some merged ∧
        resolveAndTransform this merged sourceNode destinationNode = Done t) ∧
     (sourceNode = "/" ∨ destinationNode ≠ "/" → isObject t = true)) ∧
  (∀ rootObject depth' includesConfig,
     depth = S depth' →
     NodePath.isAbsoluteNodePath sourceNode = true →
     NodePath.validateNodePath sourceNode = true →
     NodePath.isAbsoluteNodePath destinationNode = true →
     NodePath.validateNodePath destinationNode = true →
     files (absoluteFilePath workingDir filePath) = FileDocument (JObject rootObject) →
     readIncludesMember (read this absoluteFilePath absoluteDir files depth')
       rootObject (absoluteDir (absoluteFilePath workingDir filePath))
       = Done includesConfig →
     Json.value rootObject "config" = JNull →
     readConfigMember rootObject = Done Null ∧
     read this absoluteFilePath absoluteDir files depth filePath workingDir
       sourceNode destinationNode = Fail ConfigApplyFailed).
Proof.
  split.
  - intros t. destruct depth as [|depth']; [by intros ?%read_no_handle_Done|]. cbn [read].
    destruct (NodePath.isAbsoluteNodePath sourceNode); [|done].
    destruct (NodePath.validateNodePath sourceNode); [|done].
    destruct (NodePath.isAbsoluteNodePath destinationNode); [|done].
    destruct (NodePath.validateNodePath destinationNode); [|done].
    cbn [negb orb].
    destruct (files _) as [| | |doc] eqn:Hfile; try done.
    destruct doc as [| | | | |rootObject|]; try done.
    destruct (readIncludesMember _ _ _) as [includesConfig|] eqn:Hinc; try done.
    simpl.
    destruct (readConfigMember rootObject) as [configMember|] eqn:Hcfg; try done.
    simpl.
    destruct (applyObject includesConfig configMember) as [merged|] eqn:Happ; try done.
    simpl. intros Hres. do 4 (split; [done|]).
    pose proof Happ as Hinv.
    apply applyObject_Some_inv in Hinv as (d & s & m & -> & -> & -> & _).
    assert (∃ o, Json.value rootObject "config" = JObject o ∧
                 readJsonObject o "/" = Some (Object s)) as (o & Hvalue & Hread).
    { unfold readConfigMember in Hcfg.
      destruct (Json.value rootObject "config") as [| | | | |o|]; try done.
      simpl in Hcfg. exists o. split; [done|].
      destruct (readJsonObject o "/"); by inversion Hcfg. }
    split.
    { exists rootObject, o, depth', (Object d), (Object s), (Object m). by rewrite Hvalue. }
    intros Hroot. unfold resolveAndTransform in Hres.
    destruct (resolveCycles _ (Object m)) as [[result config'] passes] eqn:Hcycles.
    apply resolveCycles_isObject in Hcycles; [|done].
    destruct result; try done.
    unfold transformConfig in Hres.
    destruct (String.eqb sourceNode "/") eqn:Hs, (String.eqb destinationNode "/") eqn:Hd;
      simpl in Hres.
    + by inversion Hres; subst.
    + destruct (nestUnder _ _) as [t'|] eqn:Hnest; [|done].
      inversion Hres; subst. by eapply nestUnder_isObject.
    + apply String.eqb_neq in Hs. apply String.eqb_eq in Hd. by destruct Hroot.
    + destruct (nodeAtPath config' [] sourceNode) as [sourceConfig|]; [|done]. simpl in Hres.
      destruct (nestUnder _ _) as [t'|] eqn:Hnest; [|done].
      inversion Hres; subst. by eapply nestUnder_isObject.
  - intros rootObject depth' includesConfig -> Hs1 Hs2 Hd1 Hd2 Hfile Hinc Hnull.
    assert (readConfigMember rootObject = Done Null) as Hcfg.
    { unfold readConfigMember. by rewrite Hnull. }
    split; [done|].
    rewrite (read_document _ _ _ _ _ _ _ _ _ rootObject) by done.
    rewrite Hinc. simpl. rewrite Hcfg. simpl.
    apply readIncludesMember_isObject in Hinc.
    by destruct includesConfig.
Qed.

Lemma read_needs_config_object_witness :
  read Impl_new Doc.sameDirectory Doc.noDirectory
    (λ path, FileDocument (JObject [("config", JNull)])) 1 "null.json" "" "/" "/"
  = Fail ConfigApplyFailed.
Proof.
  destruct (read_needs_config_object Impl_new Doc.sameDirectory Doc.noDirectory
              (λ path, FileDocument (JObject [("config", JNull)])) 1 "null.json" "" "/" "/")
    as [_ Hnull].
  apply (Hnull [("config", JNull)] 0 (Object ∅)); reflexivity.
Defined.

(** ** The registry of the factory over its life *)

Lemma registerAll_lookup {ConfigReaderBase : Type}
    (calls : list (string * option ConfigReaderBase)) (name : string) :
  ∀ this : ConfigReaderFactory ConfigReaderBase,
    m_configReaders (registerAll this calls) !! name =
    if String.eqb name "" then m_configReaders this !! name
    else lastRegistered name (m_configReaders this !! name) calls.
Proof.
  induction calls as [|[t r] calls IH]; intros this.
  - simpl. by destruct (String.eqb name "").
  - unfold registerAll, lastRegistered in *. cbn [foldl]. rewrite IH. simpl.
    destruct (String.eqb_spec name "") as [Hname|Hname].
    + subst name. destruct r as [reader|]; [|done]. simpl.
      destruct (String.eqb_spec t "") as [Ht|Ht]; [done|].
      simpl. by rewrite lookup_insert_ne.
    + f_equal. destruct r as [reader|]; simpl.
      * destruct (String.eqb_spec t "") as [Ht|Ht]; simpl.
        -- subst t. by destruct (String.eqb_spec "" name).
        -- destruct (String.eqb_spec t name) as [Heq|Hne].
           ++ subst t. by rewrite lookup_insert_eq.
           ++ by rewrite lookup_insert_ne.
      * by destruct (String.eqb t name).
Qed.

(** X12. The registry of the factory after any run of registrations. The
    factory comes into being with the reader of ["CppConfigFramework"] and
    can only be changed by [registerConfigReader]. After any run of calls the
    registry holds, under a type, the reader of the last call of the run that
    gave this type and a reader, and else what the new factory held. So no
    reader is ever registered under the empty type, a type once registered
    stays registered (there is no way to remove one), the type
    ["CppConfigFramework"] can always be read, and [readConfig] answers
    "Unsupported configuration type" exactly for the types under which there is
    no reader. *)
Theorem factory_registry_after_calls {ConfigReaderBase Arguments Result : Type}
    (readerRead : ConfigReaderBase → Arguments → Result)
    (ConfigReader_new : ConfigReaderBase)
    (calls : list (string * option ConfigReaderBase)) :
  let factory := registerAll (ConfigReaderFactory_new ConfigReader_new) calls in
  (∀ type,
     m_configReaders factory !! type =
     if String.eqb type "" then None
     else lastRegistered type
            (if String.eqb type "CppConfigFramework" then Some ConfigReader_new else None)
            calls) ∧
  m_configReaders factory !! "" = None ∧
  (∀ args, readConfig readerRead factory "" args = inl "Unsupported configuration type: ") ∧
  (∀ args, ∃ reader,
     readConfig readerRead factory "CppConfigFramework" args
       = inr (readerRead reader args)) ∧
  (∀ type more,
     is_Some (m_configReaders factory !! type) →
     is_Some (m_configReaders (registerAll factory more) !! type)) ∧
  (∀ type args,
     readConfig readerRead factory type args
       = inl ("Unsupported configuration type: " +:+ type) ↔
     m_configReaders factory !! type = None).
Proof.
  intros factory.
  assert (∀ type,
     m_configReaders factory !! type =
     if String.eqb type "" then None
     else lastRegistered type
            (if String.eqb type "CppConfigFramework" then Some ConfigReader_new else None)
            calls) as Hlookup.
  { intros type. subst factory. rewrite registerAll_lookup.
    unfold ConfigReaderFactory_new. simpl.
    destruct (String.eqb_spec type "") as [Htype|Htype]; [by subst type|].
    f_equal. destruct (String.eqb_spec type "CppConfigFramework") as [Heq|Hne].
    - subst type. by rewrite lookup_insert_eq.
    - by rewrite lookup_insert_ne. }
  assert (∀ (type : string) (init : option ConfigReaderBase) more,
            is_Some init → is_Some (lastRegistered type init more)) as Hgrows.
  { intros type init more. revert init.
    induction more as [|[t r] more IH]; intros init Hinit; [done|].
    unfold lastRegistered in *. cbn [foldl]. apply IH. simpl.
    destruct (String.eqb t type); [|done]. destruct r; by eauto. }
  split; [exact Hlookup|]. split; [by rewrite Hlookup|]. split; [|split; [|split]].
  - intros args. unfold readConfig. by rewrite Hlookup.
  - intros args. unfold readConfig.
    destruct (Hgrows "CppConfigFramework" (Some ConfigReader_new) calls) as [reader Hreader];
      [by eauto|].
    rewrite Hlookup. simpl. rewrite Hreader. by exists reader.
  - intros type more Hsome. rewrite registerAll_lookup.
    destruct (String.eqb type ""); [done|]. by apply Hgrows.
  - intros type args. unfold readConfig.
    destruct (m_configReaders factory !! type); split; done.
Qed.

Lemma factory_registry_after_calls_witness :
  m_configReaders
    (registerAll (ConfigReaderFactory_new 0)
       [("yaml", Some 1); ("", Some 2); ("CppConfigFramework", None); ("yaml", Some 3)])
    !! "yaml" = Some 3.
Proof.
  destruct (factory_registry_after_calls (λ (reader : nat) (args : unit), reader) 0
              [("yaml", Some 1); ("", Some 2); ("CppConfigFramework", None); ("yaml", Some 3)])
    as [Hlookup _].
  rewrite Hlookup. reflexivity.
Defined.

(** ** The reader of [ConfigReader.cpp] and the reader of [ConfigReaderImpl.cpp] *)

Lemma existsb_false_elem {A : Type} (f : A → bool) (l : list A) :
  existsb f l = false → ∀ x, x ∈ l → f x = false.
Proof.
  intros Hnone x Hin. apply not_true_iff_false. intros Hx.
  assert (existsb f l = true) as Ht; [|congruence].
  apply existsb_exists. exists x. split; [by apply list_elem_of_In|done].
Qed.

Lemma validateNodeName_no_decorator (key : string) :
  NodePath.validateNodeName key = true →
  hasDecorator key = false ∧ splitDecorator key = (zero, key).
Proof.
  intros Hname. assert (hasDecorator key = false) as Hdec.
  { destruct key as [|c key]; [done|]. simpl in *.
    apply andb_true_iff in Hname as [Hc _].
    destruct (Ascii.eqb_spec c "&") as [->|_]; [done|].
    destruct (Ascii.eqb_spec c "#") as [->|_]; done. }
  split; [done|]. unfold splitDecorator. by rewrite Hdec.
Qed.

Lemma hasDecorator_invalid (key : string) :
  hasDecorator key = true → NodePath.validateNodeName key = false.
Proof.
  intros Hdec. destruct (NodePath.validateNodeName key) eqn:Hname; [|done].
  apply validateNodeName_no_decorator in Hname as [Hno _]. congruence.
Qed.

Section DraftLoops.

Variable draftValue : QJsonValue → string → option ConfigNode.
Variable readValue : QJsonValue → string → option ConfigNode.
Variable readReference : QJsonValue → string → option ConfigNode.

Lemma draft_array_extends (items : list QJsonValue) (path : string) :
  Forall (ReadsSame draftValue readValue) items →
  ∀ i arrayNode n,
    Draft.readJsonArrayFrom draftValue items path i arrayNode = Some n →
    readJsonArrayFrom readValue items path i arrayNode = Some n.
Proof.
  induction 1 as [|item items Hitem _ IH]; intros i arrayNode n; simpl; [done|].
  destruct (draftValue item _) as [e|] eqn:He; [|done].
  rewrite (Hitem _ _ He). apply IH.
Qed.

Lemma draft_array_restricts (items : list QJsonValue) (path : string) :
  Forall (ReadsSame readValue draftValue) items →
  ∀ i arrayNode n,
    readJsonArrayFrom readValue items path i arrayNode = Some n →
    Draft.readJsonArrayFrom draftValue items path i arrayNode = Some n.
Proof.
  induction 1 as [|item items Hitem _ IH]; intros i arrayNode n; simpl; [done|].
  destruct (readValue item _) as [e|] eqn:He; [|done].
  rewrite (Hitem _ _ He). apply IH.
Qed.

Lemma draft_object_extends (members : list (string * QJsonValue)) (path : string) :
  Forall (λ kv, ReadsSame draftValue readValue kv.2) members →
  NoDup members.*1 →
  ∀ acc n,
    (∀ key, key ∈ members.*1 → acc !! key = None) →
    Draft.readJsonObjectFrom draftValue members path (Object acc) = Some n →
    readJsonObjectFrom readValue readReference members path (Object acc) = Some n.
Proof.
  induction 1 as [|[key v] members Hv _ IH]; intros Hnodup acc n Hfree; simpl; [done|].
  apply NoDup_cons in Hnodup as [Hnotin Hnodup].
  destruct (NodePath.validateNodeName key) eqn:Hname; [|done]. simpl.
  destruct (validateNodeName_no_decorator key Hname) as [_ ->].
  rewrite Hname. simpl.
  rewrite (Hfree key) by (simpl; by left).
  rewrite bool_decide_eq_false_2 by (by intros [? ?]).
  unfold readDecorated. simpl.
  destruct (draftValue v _) as [e|] eqn:He; [|done].
  simpl in Hv. rewrite (Hv _ _ He). apply (IH Hnodup).
  intros key' Hin. rewrite lookup_insert_ne; [|by intros ->].
  apply Hfree. simpl. by right.
Qed.

Lemma draft_object_restricts (members : list (string * QJsonValue)) (path : string) :
  Forall (λ kv, ReadsSame readValue draftValue kv.2) members →
  forallb (λ kv, negb (hasDecorator kv.1)) members = true →
  ∀ objectNode n,
    readJsonObjectFrom readValue readReference members path objectNode = Some n →
    Draft.readJsonObjectFrom draftValue members path objectNode = Some n.
Proof.
  induction 1 as [|[key v] members Hv _ IH]; intros Hplain objectNode n; simpl; [done|].
  simpl in Hplain. apply andb_true_iff in Hplain as [Hkey Hplain].
  apply negb_true_iff in Hkey. unfold splitDecorator. rewrite Hkey.
  destruct (NodePath.validateNodeName key); [|done]. simpl.
  destruct (containsMember objectNode key); [done|].
  unfold readDecorated. simpl.
  destruct (readValue v _) as [e|] eqn:He; [|done].
  simpl in Hv. rewrite (Hv _ _ He). by apply IH.
Qed.

Lemma draft_object_no_decorator (members : list (string * QJsonValue)) (path : string) :
  ∀ objectNode n,
    Draft.readJsonObjectFrom draftValue members path objectNode = Some n →
    Forall (λ kv, hasDecorator kv.1 = false ∧
                  ∃ p e, draftValue kv.2 p = Some e) members.
Proof.
  induction members as [|[key v] members IH]; intros objectNode n; simpl;
    [by constructor|].
  destruct (NodePath.validateNodeName key) eqn:Hname; [|done]. simpl.
  destruct (draftValue v _) as [e|] eqn:He; [|done].
  intros Hrest. constructor; [|by eapply IH].
  split; [by apply validateNodeName_no_decorator|by eauto].
Qed.

Lemma draft_array_items (items : list QJsonValue) (path : string) :
  ∀ i arrayNode n,
    Draft.readJsonArrayFrom draftValue items path i arrayNode = Some n →
    Forall (λ item, ∃ p e, draftValue item p = Some e) items.
Proof.
  induction items as [|item items IH]; intros i arrayNode n; simpl; [by constructor|].
  destruct (draftValue item _) as [e|] eqn:He; [|done].
  intros Hrest. constructor; [by eauto|by eapply IH].
Qed.

End DraftLoops.

Lemma draft_extends (v : QJsonValue) :
  keysDistinct v = true →
  ∀ path n, Draft.readJsonValue v path = Some n → readJsonValue v path = Some n.
Proof.
  induction v as [|b|d|s|items IH|members IH|] using QJsonValue_nested_ind;
    intros Hkeys path n; try done.
  - simpl in *. apply draft_array_extends.
    rewrite forallb_forall in Hkeys. rewrite Forall_forall in *.
    intros item Hin. unfold ReadsSame. apply (IH item Hin), Hkeys. by apply list_elem_of_In.
  - simpl in *. apply andb_true_iff in Hkeys as [Hnodup Hkeys].
    apply bool_decide_eq_true in Hnodup.
    apply draft_object_extends; [|done|done].
    rewrite forallb_forall in Hkeys. rewrite Forall_forall in *.
    intros kv Hin. unfold ReadsSame. apply (IH kv Hin), Hkeys. by apply list_elem_of_In.
Qed.

Lemma draft_restricts (v : QJsonValue) :
  hasDecoratedKey v = false →
  ∀ path n, readJsonValue v path = Some n → Draft.readJsonValue v path = Some n.
Proof.
  induction v as [|b|d|s|items IH|members IH|] using QJsonValue_nested_ind;
    intros Hplain path n; try done.
  - simpl in *. apply draft_array_restricts.
    rewrite Forall_forall in *. intros item Hin. unfold ReadsSame. apply (IH item Hin).
    by apply (existsb_false_elem _ _ Hplain).
  - simpl in *.
    assert (∀ kv, kv ∈ members → hasDecorator kv.1 = false ∧ hasDecoratedKey kv.2 = false)
      as Hall.
    { intros kv Hin. apply orb_false_iff.
      by apply (existsb_false_elem _ _ Hplain). }
    apply draft_object_restricts.
    + rewrite Forall_forall in *. intros kv Hin. unfold ReadsSame.
      apply (IH kv Hin), Hall, Hin.
    + apply forallb_forall. intros kv Hin. apply list_elem_of_In in Hin.
      apply negb_true_iff, Hall, Hin.
Qed.

Lemma no_decorated_key_no_reference (v : QJsonValue) :
  hasDecoratedKey v = false → hasReferenceMember v = false.
Proof.
  induction v as [|b|d|s|items IH|members IH|] using QJsonValue_nested_ind;
    intros Hplain; try done.
  - simpl in *. apply not_true_iff_false. intros Hex.
    apply existsb_exists in Hex as (item & Hin & Hitem). apply list_elem_of_In in Hin.
    rewrite Forall_forall in IH. rewrite (IH item Hin) in Hitem; [done|].
    by apply (existsb_false_elem _ _ Hplain).
  - simpl in *. apply not_true_iff_false. intros Hex.
    apply existsb_exists in Hex as (kv & Hin & Hkv). apply list_elem_of_In in Hin.
    pose proof (existsb_false_elem _ _ Hplain kv Hin) as Hnone. simpl in Hnone.
    apply orb_false_iff in Hnone as [Hdec Hsub].
    unfold decoratorOf, splitDecorator in Hkv. rewrite Hdec in Hkv. simpl in Hkv.
    rewrite Forall_forall in IH. by rewrite (IH kv Hin Hsub) in Hkv.
Qed.

Lemma draft_no_decorated_key (v : QJsonValue) :
  ∀ path n, Draft.readJsonValue v path = Some n → hasDecoratedKey v = false.
Proof.
  induction v as [|b|d|s|items IH|members IH|] using QJsonValue_nested_ind;
    intros path n Hread; try done.
  - simpl in *. apply draft_array_items in Hread.
    apply not_true_iff_false. intros Hex. apply existsb_exists in Hex as (item & Hin & Hitem).
    apply list_elem_of_In in Hin. rewrite Forall_forall in *.
    destruct (Hread item Hin) as (p & e & He). by rewrite (IH item Hin p e He) in Hitem.
  - simpl in *. apply draft_object_no_decorator in Hread.
    apply not_true_iff_false. intros Hex. apply existsb_exists in Hex as (kv & Hin & Hkv).
    apply list_elem_of_In in Hin. rewrite Forall_forall in *.
    destruct (Hread kv Hin) as (Hdec & p & e & He).
    by rewrite Hdec, (IH kv Hin p e He) in Hkv.
Qed.

(** X13. The reader of [ConfigReader.cpp] is the reader of
    [ConfigReaderImpl.cpp] without the decorators. It reads no JSON value
    that has a decorated key anywhere: the decorator makes the member name
    invalid. On a JSON value whose objects have distinct keys, it gives a
    tree exactly when the value has no decorated key and the final reader
    gives that tree; the two readers then agree on the value. A tree it gives
    holds no reference kind: the resolver leaves it as it is. *)
Theorem draft_reader_is_final_reader_without_decorators (jsonValue : QJsonValue) :
  keysDistinct jsonValue = true →
  ∀ currentNodePath,
    (∀ n, Draft.readJsonValue jsonValue currentNodePath = Some n ↔
          readJsonValue jsonValue currentNodePath = Some n ∧
          hasDecoratedKey jsonValue = false) ∧
    (hasDecoratedKey jsonValue = false →
     Draft.readJsonValue jsonValue currentNodePath = readJsonValue jsonValue currentNodePath) ∧
    (hasDecoratedKey jsonValue = true →
     Draft.readJsonValue jsonValue currentNodePath = None) ∧
    (∀ n, Draft.readJsonValue jsonValue currentNodePath = Some n →
          isFullyResolved n = true ∧ ∀ ctx, resolveReferences ctx n = (Resolved, n)).
Proof.
  intros Hkeys currentNodePath.
  assert (∀ n, Draft.readJsonValue jsonValue currentNodePath = Some n ↔
               readJsonValue jsonValue currentNodePath = Some n ∧
               hasDecoratedKey jsonValue = false) as Hiff.
  { intros n. split.
    - intros Hread. split; [by apply draft_extends|by eapply draft_no_decorated_key].
    - intros [Hread Hplain]. by apply draft_restricts. }
  split; [exact Hiff|]. split; [|split].
  - intros Hplain.
    destruct (readJsonValue jsonValue currentNodePath) as [n|] eqn:Hfinal.
    + by apply Hiff.
    + destruct (Draft.readJsonValue jsonValue currentNodePath) as [n|] eqn:Hdraft; [|done].
      by apply draft_extends in Hdraft; [congruence|].
  - intros Hdec.
    destruct (Draft.readJsonValue jsonValue currentNodePath) as [n|] eqn:Hdraft; [|done].
    apply draft_no_decorated_key in Hdraft. congruence.
  - intros n Hread. apply Hiff in Hread as [Hread Hplain].
    assert (isFullyResolved n = true) as Hfull.
    { rewrite (readJsonValue_isFullyResolved _ _ _ Hread).
      by rewrite no_decorated_key_no_reference. }
    split; [done|]. by apply resolveReferences_stable.
Qed.

Lemma draft_reader_is_final_reader_without_decorators_witness :
  Draft.readJsonValue (JObject [("a", JArray [Doc.num 1]); ("b", JNull)]) "/" =
  readJsonValue (JObject [("a", JArray [Doc.num 1]); ("b", JNull)]) "/".
Proof.
  destruct (draft_reader_is_final_reader_without_decorators
              (JObject [("a", JArray [Doc.num 1]); ("b", JNull)])) with "/"
    as (_ & Hsame & _); [vm_compute; reflexivity|].
  apply Hsame. reflexivity.
Defined.

(** ** The includes in the reader of [ConfigReader.cpp] *)

Lemma draft_checkIncludes_cases (includesArray : list QJsonValue) :
  ∀ i includesConfig,
    match Draft.checkIncludesFrom includesArray i includesConfig with
    | Done c => c = includesConfig ∧ Forall (λ v, Json.isObject v = true) includesArray
    | Fail e =>
        ∃ before includeValue after,
          includesArray = before ++ includeValue :: after ∧
          Forall (λ v, Json.isObject v = true) before ∧
          Json.isObject includeValue = false ∧
          e = IncludeNotObject (i + length before)
    end.
Proof.
  induction includesArray as [|includeValue rest IH]; intros i includesConfig; simpl.
  - by split.
  - destruct (Json.isObject includeValue) eqn:Hobj; simpl.
    + specialize (IH (S i) includesConfig).
      destruct (Draft.checkIncludesFrom rest (S i) includesConfig) as [c|e].
      * destruct IH as [-> Hrest]. split; [done|by constructor].
      * destruct IH as (before & v & after & -> & Hbefore & Hv & ->).
        exists (includeValue :: before), v, after. split; [done|].
        split; [by constructor|]. split; [done|]. simpl. f_equal. lia.
    + exists [], includeValue, rest. split; [done|]. split; [constructor|].
      split; [done|]. simpl. by rewrite Nat.add_0_r.
Qed.

(** X14. The includes in the reader of [ConfigReader.cpp]. The [includes]
    member must be there: null gives a Null aggregate, an array all of whose
    items are JSON objects gives the empty Object, whatever the objects hold
    (no file is read for them), and everything else is an error: an item that
    is not an object, named by the index of the first such item, and a
    member that is neither null nor an array, which is the case of a document
    without the member. The reader of [ConfigReaderImpl.cpp] takes a
    document without [includes] to have no includes. A read that succeeds
    has applied the aggregate to the [config] member: the empty Object where
    [includes] is an array, a Null node where it is null. *)
Theorem draft_includes_member (rootObject : QJsonObject) :
  (∀ includesConfig,
     Draft.readIncludesMember rootObject = Done includesConfig ↔
     (Json.value rootObject "includes" = JNull ∧ includesConfig = Null) ∨
     (∃ includesArray,
        Json.value rootObject "includes" = JArray includesArray ∧
        Forall (λ v, Json.isObject v = true) includesArray ∧
        includesConfig = Object ∅)) ∧
  (∀ e,
     Draft.readIncludesMember rootObject = Fail e →
     (e = IncludesNotArray ∧
      Json.isNull (Json.value rootObject "includes") = false ∧
      Json.isArray (Json.value rootObject "includes") = false) ∨
     (∃ before includeValue after,
        Json.value rootObject "includes" = JArray (before ++ includeValue :: after) ∧
        Forall (λ v, Json.isObject v = true) before ∧
        Json.isObject includeValue = false ∧
        e = IncludeNotObject (length before))) ∧
  (Json.contains rootObject "includes" = false →
   Draft.readIncludesMember rootObject = Fail IncludesNotArray ∧
   ∀ read workingDir, readIncludesMember read rootObject workingDir = Done (Object ∅)) ∧
  (∀ apply files filePath sourceNode destinationNode includesArray,
     files filePath = FileDocument (JObject rootObject) →
     Json.value rootObject "includes" = JArray includesArray →
     ∀ t, Draft.read apply files filePath sourceNode destinationNode = Done t →
          ∃ config, Draft.readConfigMember rootObject = Done config ∧
                    apply config (Object ∅) = Some t) ∧
  (∀ apply files filePath sourceNode destinationNode,
     files filePath = FileDocument (JObject rootObject) →
     Json.value rootObject "includes" = JNull →
     ∀ t, Draft.read apply files filePath sourceNode destinationNode = Done t →
          ∃ config, Draft.readConfigMember rootObject = Done config ∧
                    apply config Null = Some t) ∧
  (∀ apply files filePath sourceNode destinationNode,
     files filePath = FileDocument (JObject rootObject) →
     ∀ t, Draft.read apply files filePath sourceNode destinationNode = Done t ↔
          (NodePath.isAbsoluteNodePath sourceNode && NodePath.validateNodePath sourceNode
           && NodePath.isAbsoluteNodePath destinationNode
           && NodePath.validateNodePath destinationNode = true) ∧
          ∃ includesConfig config,
            Draft.readIncludesMember rootObject = Done includesConfig ∧
            Draft.readConfigMember rootObject = Done config ∧
            apply config includesConfig = Some t).
Proof.
  unfold Draft.readIncludesMember. split; [|split; [|split; [|split; [|split]]]].
  - intros includesConfig.
    destruct (Json.value rootObject "includes") as [| | | |includesArray| |] eqn:Hvalue;
      simpl; try (split; [done|by intros [[? _]|(? & ? & _)]]).
    + split; [inversion 1; by left|]. by intros [[_ ->]|(? & ? & _)].
    + pose proof (draft_checkIncludes_cases includesArray 0 (Object ∅)) as Hcases.
      destruct (Draft.checkIncludesFrom includesArray 0 (Object ∅)) as [c|e].
      * destruct Hcases as [-> Hall]. split.
        -- inversion 1; subst. right. by exists includesArray.
        -- by intros [[? _]|(? & ? & _ & ->)].
      * destruct Hcases as (before & v & after & -> & _ & Hv & _).
        split; [done|]. intros [[? _]|(arr & Heq & Hall & _)]; [done|].
        inversion Heq; subst arr.
        apply Forall_app in Hall as [_ Hall]. apply Forall_cons in Hall as [Hv' _].
        congruence.
  - intros e.
    destruct (Json.value rootObject "includes") as [| | | |includesArray| |] eqn:Hvalue;
      simpl; try (inversion 1; left; by repeat split).
    + pose proof (draft_checkIncludes_cases includesArray 0 (Object ∅)) as Hcases.
      destruct (Draft.checkIncludesFrom includesArray 0 (Object ∅)) as [c|e']; try done.
      inversion 1; subst e'.
      destruct Hcases as (before & v & after & -> & Hbefore & Hv & ->).
      right. by exists before, v, after.
  - intros Habsent. rewrite (value_absent _ _ Habsent). split; [done|].
    intros read workingDir. unfold readIncludesMember.
    by rewrite (value_absent _ _ Habsent).
  - intros apply files filePath sourceNode destinationNode includesArray Hfile Hvalue t.
    unfold Draft.read, Draft.readIncludesMember.
    destruct (_ || _); [done|]. destruct (_ || _); [done|].
    rewrite Hfile, Hvalue. simpl.
    pose proof (draft_checkIncludes_cases includesArray 0 (Object ∅)) as Hcases.
    destruct (Draft.checkIncludesFrom includesArray 0 (Object ∅)) as [c|e]; try done.
    destruct Hcases as [-> _]. simpl.
    destruct (Draft.readConfigMember rootObject) as [config|]; try done. simpl.
    destruct (apply config (Object ∅)) as [merged|] eqn:Happ; [|done].
    inversion 1; subst. by exists config.
  - intros apply files filePath sourceNode destinationNode Hfile Hvalue t.
    unfold Draft.read, Draft.readIncludesMember.
    destruct (_ || _); [done|]. destruct (_ || _); [done|].
    rewrite Hfile, Hvalue. simpl.
    destruct (Draft.readConfigMember rootObject) as [config|]; try done. simpl.
    destruct (apply config Null) as [merged|] eqn:Happ; [|done].
    inversion 1; subst. by exists config.
  - intros apply files filePath sourceNode destinationNode Hfile t.
    unfold Draft.read. fold (Draft.readIncludesMember rootObject).
    destruct (NodePath.isAbsoluteNodePath sourceNode);
      [|split; [done|by intros [? _]]].
    destruct (NodePath.validateNodePath sourceNode);
      [|split; [done|by intros [? _]]].
    destruct (NodePath.isAbsoluteNodePath destinationNode);
      [|split; [done|by intros [? _]]].
    destruct (NodePath.validateNodePath destinationNode);
      [|split; [done|by intros [? _]]].
    simpl. rewrite Hfile.
    destruct (Draft.readIncludesMember rootObject) as [includesConfig|e]; simpl.
    2: { split; [done|]. by intros (_ & ? & ? & ? & _). }
    destruct (Draft.readConfigMember rootObject) as [config|e]; simpl.
    2: { split; [done|]. by intros (_ & ? & ? & _ & ? & _). }
    split.
    + destruct (apply config includesConfig) as [merged|] eqn:Happ; [|done].
      inversion 1; subst. split; [done|]. by exists includesConfig, config.
    + intros (_ & ic & c & Hic & Hc & Happ).
      inversion Hic; inversion Hc; subst. by rewrite Happ.
Qed.

Lemma draft_includes_member_witness :
  Draft.readIncludesMember [("config", JObject [])] = Fail IncludesNotArray ∧
  ∃ config,
    Draft.readConfigMember [("includes", JNull); ("config", JObject [])] = Done config ∧
    (λ config' _ : ConfigNode, Some config') config Null = Some (Object ∅).
Proof.
  split.
  - destruct (draft_includes_member [("config", JObject [])]) as (_ & _ & Habsent & _).
    apply Habsent. reflexivity.
  - destruct (draft_includes_member [("includes", JNull); ("config", JObject [])])
      as (_ & _ & _ & _ & Hnull & _).
    apply (Hnull (λ config' _, Some config')
             (λ _, FileDocument (JObject [("includes", JNull); ("config", JObject [])]))
             "null.json" "/" "/" eq_refl eq_refl).
    vm_compute. reflexivity.
Defined.

(** ** Rules that the resolver and the merge keep *)

Section ConformsFacts.

Variable nameOk : string → bool.
Variable derivedObjectOk : bool.

Abbreviation ok := (conforms nameOk derivedObjectOk).
Abbreviation frameOk := (frameConforms nameOk derivedObjectOk).

Lemma conforms_Object (ms : ObjectNodeData) :
  ok (Object ms) = true ↔ map_Forall (λ k c, nameOk k = true ∧ ok c = true) ms.
Proof.
  simpl. rewrite map_fold_foldr, map_Forall_to_list.
  induction (map_to_list ms) as [|[k c] l IH]; simpl.
  - split; [constructor|done].
  - rewrite Forall_cons, !andb_true_iff, IH. simpl. tauto.
Qed.

Lemma conforms_elements (es : list ConfigNode) :
  forallb ok es = true ↔ Forall (λ c, ok c = true) es.
Proof.
  rewrite forallb_forall, Forall_forall.
  split; intros H x Hx; apply H; by apply list_elem_of_In.
Qed.

Lemma applyObject_conforms (src : ConfigNode) :
  ∀ dst r,
    applyObject dst src = Some r →
    ok dst = true → ok src = true → ok r = true.
Proof.
  induction src as [|v|es IH|s IH|ref|es IH|bases config IH] using ConfigNode_nested_ind;
    intros dst r Happ Hdst Hsrc;
    apply applyObject_Some_inv in Happ as (d & s' & m & -> & Heq & -> & Hm);
    try done.
  inversion Heq; subst s'. clear Heq.
  rewrite conforms_Object in *.
  intros k c Hk. rewrite Hm in Hk.
  destruct (s !! k) as [c'|] eqn:Hs; [|by apply (Hdst k)].
  inversion Hk; subst c. clear Hk.
  destruct (Hsrc k c' Hs) as [Hname Hc'].
  split; [done|]. unfold mergeMember.
  destruct (d !! k) as [old|] eqn:Hd; [|done].
  destruct old as [| | |dm| | |]; try done.
  destruct c' as [| | |sm| | |]; try done.
  destruct (applyObject (Object dm) (Object sm)) as [merged|] eqn:Happ; [|done].
  simpl. eapply (IH k _ Hs); [exact Happ| |done]. apply (Hdst k _ Hd).
Qed.

Lemma plug_conforms (child : ConfigNode) (f : Frame) :
  ok child = true → frameOk f → ok (plug child f) = true.
Proof.
  intros Hchild [Hnode Hslot]. unfold plug.
  destruct (frameSlot f) as [name|i|i|], (frameNode f) as [|v|es|ms|r|es|bases config];
    try done.
  - apply conforms_Object. apply conforms_Object in Hnode.
    by apply map_Forall_insert_2.
  - apply conforms_elements. apply conforms_elements in Hnode. by apply Forall_insert.
  - apply conforms_elements. apply conforms_elements in Hnode. by apply Forall_insert.
Qed.

Lemma walk_conforms (segs : list string) :
  ∀ n ctx t,
    walk segs n ctx = Some t →
    ok n = true → Forall frameOk ctx → ok t = true.
Proof.
  induction segs as [|s segs IH]; intros n ctx t Hwalk Hn Hctx; simpl in Hwalk.
  - by inversion Hwalk; subst.
  - destruct (String.eqb s "..").
    + destruct ctx as [|f ctx']; [done|].
      apply Forall_cons in Hctx as [Hf Hctx'].
      eapply IH; [exact Hwalk| |done]. by apply plug_conforms.
    + destruct n as [| | |ms| | |]; try done.
      destruct (ms !! s) as [c|] eqn:Hs; [|done].
      pose proof Hn as Hms. rewrite conforms_Object in Hms.
      destruct (Hms s c Hs) as [Hname Hc].
      eapply IH; [exact Hwalk|done|]. constructor; [|done]. by split.
Qed.

Lemma rootNode_conforms (ctx : list Frame) :
  ∀ n, ok n = true → Forall frameOk ctx → ok (rootNode n ctx) = true.
Proof.
  induction ctx as [|f ctx IH]; intros n Hn Hctx; [done|].
  apply Forall_cons in Hctx as [Hf Hctx]. simpl. apply IH; [|done].
  by apply plug_conforms.
Qed.

Lemma nodeAtPath_conforms (n : ConfigNode) (ctx : list Frame) (path : string) (t : ConfigNode) :
  nodeAtPath n ctx path = Some t →
  ok n = true → Forall frameOk ctx → ok t = true.
Proof.
  unfold nodeAtPath. destruct path as [|c path]; [done|].
  destruct (NodePath.isAbsoluteNodePath _); intros Hwalk Hn Hctx.
  - eapply walk_conforms; [exact Hwalk| |constructor]. by apply rootNode_conforms.
  - by eapply walk_conforms.
Qed.

Lemma applyBases_conforms parentNode ctx (bases : list string) :
  ok parentNode = true → Forall frameOk ctx →
  ∀ derived derived',
    applyBases parentNode ctx bases derived = inr derived' →
    ok derived = true → ok derived' = true.
Proof.
  intros Hparent Hctx.
  induction bases as [|base bases IH]; intros derived derived' Heq Hd; simpl in Heq.
  - by inversion Heq; subst.
  - destruct (nodeAtPath parentNode ctx base) as [baseNode|] eqn:Hbase; [|done].
    destruct (negb (isFullyResolved baseNode)); [done|].
    destruct (applyObject derived baseNode) as [d|] eqn:Happ; [|done].
    eapply IH; [exact Heq|].
    eapply applyObject_conforms; [exact Happ|done|].
    by eapply nodeAtPath_conforms.
Qed.

Section PassKeeps.

Variable resolve : list Frame → ConfigNode → ReferenceResolutionResult * ConfigNode.

Lemma resolveElements_conforms frame ctx (todo : list ConfigNode) :
  (∀ cur i, Forall (λ c, ok c = true) cur → frameOk (frame cur i)) →
  Forall frameOk ctx →
  Forall (λ c, KeepsConforming nameOk derivedObjectOk resolve c ∧ ok c = true) todo →
  ∀ i result cur,
    Forall (λ c, ok c = true) cur →
    Forall (λ c, ok c = true) (resolveElements resolve frame ctx todo i result cur).2.
Proof.
  intros Hframe Hctx.
  induction 1 as [|e todo [He Hok] _ IH]; intros i result cur Hcur; simpl; [done|].
  assert (ok (resolve (frame cur i :: ctx) e).2 = true) as He'.
  { apply He; [|done]. constructor; [by apply Hframe|done]. }
  destruct (resolve (frame cur i :: ctx) e) as [[] e']; simpl in *;
    try apply IH; by apply Forall_insert.
Qed.

Lemma resolveMembers_conforms ctx (ms m : ObjectNodeData) :
  Forall frameOk ctx →
  map_Forall (λ k c, nameOk k = true ∧ ok c = true) ms →
  (∀ k c, m !! k = Some c →
     nameOk k = true ∧ ok c = true ∧ KeepsConforming nameOk derivedObjectOk resolve c) →
  map_Forall (λ k c, nameOk k = true ∧ ok c = true)
    (map_fold (resolveMember resolve ctx) (Resolved, ms) m).2.
Proof.
  intros Hctx Hms.
  apply (map_fold_weak_ind (λ st m,
    (∀ k c, m !! k = Some c →
     nameOk k = true ∧ ok c = true ∧ KeepsConforming nameOk derivedObjectOk resolve c) →
    map_Forall (λ k c, nameOk k = true ∧ ok c = true) st.2)); [done|].
  clear m. intros i x m [res cur] Hi IH Hall. simpl in IH.
  assert (map_Forall (λ k c, nameOk k = true ∧ ok c = true) cur) as Hcur.
  { apply IH. intros k c Hk. apply Hall. rewrite lookup_insert_ne; [done|].
    intros ->. by rewrite Hi in Hk. }
  destruct (Hall i x) as (Hname & Hx & Hkeeps); [apply lookup_insert_eq|].
  assert (ok (resolve (MkFrame (Object cur) (InMember i) :: ctx) x).2 = true) as Hx'.
  { apply Hkeeps; [|done]. constructor; [|done]. split; [|done].
    by apply conforms_Object. }
  unfold resolveMember. destruct res.
  - destruct (resolve _ x) as [[] x']; simpl in *; by apply map_Forall_insert_2.
  - destruct (resolve _ x) as [[] x']; simpl in *; by apply map_Forall_insert_2.
  - done.
Qed.

End PassKeeps.

Lemma resolveReferences_conforms (node : ConfigNode) :
  ∀ ctx, Forall frameOk ctx → ok node = true →
         ok (resolveReferences ctx node).2 = true.
Proof.
  induction node as [|v|es IH|ms IH|r|es IH|bases config IH]
    using ConfigNode_nested_ind; intros ctx Hctx Hnode; try done.
  - cbn [resolveReferences]. unfold resolveArrayReferences.
    apply conforms_elements in Hnode.
    assert (Forall (λ c, ok c = true)
              (resolveElements resolveReferences
                 (λ cur i, MkFrame (Array cur) (InElement i)) ctx es 0 Resolved es).2)
      as Hloop.
    { apply resolveElements_conforms; [|done| |done].
      - intros cur i Hcur. split; [|done]. by apply conforms_elements.
      - rewrite Forall_forall in *. intros c Hc. split; [exact (IH c Hc)|by apply Hnode]. }
    destruct (resolveElements _ _ _ _ _ _ _) as [result cur].
    simpl in *. by apply conforms_elements.
  - cbn [resolveReferences]. unfold resolveObjectReferences.
    pose proof (resolveMembers_conforms resolveReferences ctx ms ms Hctx) as Hloop.
    destruct (map_fold _ _ ms) as [result cur]. simpl.
    apply conforms_Object. apply conforms_Object in Hnode.
    apply Hloop; [done|]. intros k c Hk. destruct (Hnode k c Hk) as [Hname Hc].
    split; [done|]. split; [done|]. exact (IH k c Hk).
  - cbn [resolveReferences]. unfold resolveNodeReference.
    destruct ctx as [|f ctx']; [done|].
    apply Forall_cons in Hctx as [Hf Hctx'].
    destruct (nodeAtPath _ _ _) as [target|] eqn:Htarget; [|done].
    simpl. unfold clone. eapply nodeAtPath_conforms; [exact Htarget| |done].
    by apply plug_conforms.
  - cbn [resolveReferences]. unfold resolveDerivedArrayReferences.
    destruct ctx as [|f ctx']; [done|].
    apply conforms_elements in Hnode.
    assert (Forall (λ c, ok c = true)
              (resolveElements resolveReferences
                 (λ cur i, MkFrame (DerivedArray cur) (InDerivedElement i))
                 (f :: ctx') es 0 Resolved es).2) as Hloop.
    { apply resolveElements_conforms; [|done| |done].
      - intros cur i Hcur. split; [|done]. by apply conforms_elements.
      - rewrite Forall_forall in *. intros c Hc. split; [exact (IH c Hc)|by apply Hnode]. }
    destruct (resolveElements _ _ _ _ _ _ _) as [result cur]. simpl in Hloop.
    destruct result; simpl; try (by apply conforms_elements).
    rewrite appendElement_foldl. by apply conforms_elements.
  - cbn [resolveReferences]. unfold resolveDerivedObjectReferences.
    destruct ctx as [|f ctx']; [done|].
    apply Forall_cons in Hctx as [Hf Hctx'].
    pose proof Hnode as Hparts. simpl in Hparts.
    apply andb_true_iff in Hparts as [Hallowed Hconfig].
    assert (ok (plug (DerivedObject bases config) f) = true) as Hparent
      by (by apply plug_conforms).
    destruct (applyBases _ _ bases (Object ∅)) as [result|derived] eqn:Hbases; [done|].
    assert (ok derived = true) as Hderived.
    { eapply applyBases_conforms; [exact Hparent|exact Hctx'|exact Hbases|done]. }
    assert (∀ c, ok c = true → ok (applyOverride bases c derived).2 = true) as Hoverride.
    { intros c Hc. unfold applyOverride. destruct (negb (isNull c)); [|done].
      destruct (applyObject derived c) as [d|] eqn:Happ; simpl.
      - by eapply applyObject_conforms.
      - change (derivedObjectOk && ok c = true). by apply andb_true_iff. }
    destruct (negb (isFullyResolved config)); [|by apply Hoverride].
    unfold clone.
    assert (ok (resolveReferences
                  (MkFrame (plug (DerivedObject bases config) f) Detached :: ctx') config).2
            = true) as Hconfig'.
    { apply IH; [|done]. constructor; [by split|done]. }
    destruct (resolveReferences _ config) as [[] config']; simpl in *.
    + by apply Hoverride.
    + change (derivedObjectOk && ok config' = true). by apply andb_true_iff.
    + done.
Qed.

Lemma resolveCycles_conforms (cycles : nat) :
  ∀ config, ok config = true → ok (resolveCycles cycles config).1.2 = true.
Proof.
  induction cycles as [|cycles IH]; intros config Hconfig; [done|].
  simpl.
  pose proof (resolveReferences_conforms config [] (Forall_nil_2 _) Hconfig) as Hpass.
  destruct (resolveReferences [] config) as [[] config1]; simpl in *; try done.
  specialize (IH config1 Hpass).
  by destruct (resolveCycles cycles config1) as [[result config2] passes].
Qed.

Hypothesis nameOk_valid : ∀ s, NodePath.validateNodeName s = true → nameOk s = true.

Lemma nestUnder_conforms (nodeNames : list string) :
  ∀ sourceConfig t,
    nestUnder nodeNames sourceConfig = Some t →
    ok sourceConfig = true → ok t = true.
Proof.
  induction nodeNames as [|nodeName rest IH]; intros sourceConfig t; simpl.
  - by inversion 1; subst.
  - destruct (NodePath.validateNodeName nodeName) eqn:Hname; [|done]. simpl.
    apply nameOk_valid in Hname.
    destruct rest as [|nodeName' rest'].
    + inversion 1; subst. intros Hs. apply conforms_Object.
      apply map_Forall_insert_2; [done|]. apply map_Forall_empty.
    + destruct (nestUnder (nodeName' :: rest') sourceConfig) as [inner|] eqn:Hinner; [|done].
      inversion 1; subst. intros Hs. apply conforms_Object.
      apply map_Forall_insert_2; [|apply map_Forall_empty].
      split; [done|]. by eapply IH.
Qed.

Lemma transformConfig_conforms (config t : ConfigNode) (sourceNode destinationNode : string) :
  transformConfig config sourceNode destinationNode = Some t →
  ok config = true → ok t = true.
Proof.
  unfold transformConfig. destruct (_ && _); [by inversion 1; subst|].
  intros Ht Hconfig.
  assert (∀ sourceConfig,
    ok sourceConfig = true →
    (if String.eqb destinationNode "/" then Some sourceConfig
     else nestUnder (NodePath.split (NodePath.mid1 destinationNode)) sourceConfig) = Some t →
    ok t = true) as Hdest.
  { intros sourceConfig Hs. destruct (String.eqb destinationNode "/").
    - by inversion 1; subst.
    - intros Hnest. by eapply nestUnder_conforms. }
  destruct (String.eqb sourceNode "/"); [by eapply Hdest|].
  destruct (nodeAtPath config [] sourceNode) as [sourceConfig|] eqn:Hsource; [|done].
  simpl in Ht. eapply Hdest; [|exact Ht]. unfold clone.
  eapply nodeAtPath_conforms; [exact Hsource|done|constructor].
Qed.

Lemma resolveAndTransform_conforms this config sourceNode destinationNode t :
  resolveAndTransform this config sourceNode destinationNode = Done t →
  ok config = true → ok t = true.
Proof.
  unfold resolveAndTransform. intros Hres Hconfig.
  pose proof (resolveCycles_conforms (Z.to_nat (m_referenceResolutionMaxCycles this))
                config Hconfig) as Hloop.
  destruct (resolveCycles _ config) as [[[] c] n]; [|done|done]. simpl in Hloop.
  destruct (transformConfig c sourceNode destinationNode) as [t'|] eqn:Ht; [|done].
  simpl in Hres. inversion Hres; subst. by eapply transformConfig_conforms.
Qed.

End ConformsFacts.

(** ** The member names of what is read and loaded *)

Lemma json_value_elem (o : QJsonObject) (key : string) :
  Json.value o key ≠ JUndefined → ∃ k, (k, Json.value o key) ∈ o.
Proof.
  induction o as [|[k v] o IH]; simpl; [done|].
  destruct (String.eqb k key).
  - intros _. exists k. by left.
  - intros Hv. destruct (IH Hv) as [k' Hin]. exists k'. by right.
Qed.

Lemma readDerivedObjectNode_inv (o : QJsonObject) (path : string) (n : ConfigNode) :
  readDerivedObjectNode o path = Some n →
  ∃ bases config,
    n = DerivedObject bases config ∧
    (config = Null ∨
     ∃ c, Json.value o "config" = JObject c ∧ readJsonObject c path = Some config).
Proof.
  unfold readDerivedObjectNode, readDerivedObjectNodeWith.
  destruct (negb (Json.contains o "base")); [done|].
  destruct (readBases _) as [bases|]; [|done].
  rewrite withValue_contains.
  destruct (Json.contains o "config").
  - destruct (Json.value o "config") as [| | | | |c|] eqn:Hconfig; try done.
    + inversion 1; subst. exists bases, Null. by eauto.
    + destruct (readJsonObjectFrom _ _ c path (Object ∅)) as [config|] eqn:Hc; [|done].
      inversion 1; subst. exists bases, config. split; [done|]. right. by exists c.
  - inversion 1; subst. exists bases, Null. by eauto.
Qed.

Lemma readDecorated_namesValid (decorator : ascii) (v : QJsonValue) (path : string)
    (n : ConfigNode) :
  ReadsValidNames v →
  readDecorated readJsonValue readReferenceType decorator v path = Some n →
  namesValid n = true.
Proof.
  intros [Hvalue Hreference]. unfold readDecorated.
  destruct (Ascii.eqb decorator "#"); [by inversion 1; subst|].
  destruct (Ascii.eqb decorator "&"); [apply Hreference|apply Hvalue].
Qed.

Lemma reader_namesValid (v : QJsonValue) :
  ReadsValidNames v ∧
  match v with
  | JObject members => Forall (λ kv, ReadsValidNames kv.2) members
  | _ => True
  end.
Proof.
  induction v as [|b|d|s|items IH|members IH|] using QJsonValue_nested_ind;
    try (split; [split; intros path n; by inversion 1; subst|done]).
  - split; [|done]. split; intros path n; [by inversion 1; subst|].
    simpl. unfold readReferenceNode. destruct (negb _); [done|]. by inversion 1; subst.
  - split; [|done]. split; intros path n Hread; simpl in Hread.
    + apply readJsonArrayFrom_elements in Hread as (es & -> & Hlen & Hes).
      apply conforms_elements, Forall_forall. intros e He.
      apply list_elem_of_lookup in He as [i He]. simpl in He.
      destruct (lookup_lt_is_Some_2 items i) as [item Hitem];
        [rewrite <- Hlen; by eapply lookup_lt_Some|].
      destruct (Hes i item Hitem) as (e' & He' & Hread).
      assert (e' = e) as -> by congruence.
      rewrite Forall_forall in IH.
      destruct (IH item (list_elem_of_lookup_2 _ _ _ Hitem)) as [[Hvalue _] _].
      by eapply Hvalue.
    + apply readDerivedArrayNodeFrom_elements in Hread as (es & -> & Hes).
      apply conforms_elements. simpl.
      rewrite Forall_forall in IH.
      induction Hes as [|item e items es (key & elementValue & -> & _ & Hread) _ IHes];
        [constructor|].
      constructor.
      * destruct (IH (JObject [(key, elementValue)])) as [_ Hmembers]; [by left|].
        apply Forall_cons in Hmembers as [Helement _].
        by eapply readDecorated_namesValid.
      * apply IHes. intros x Hx. apply IH. by right.
  - assert (Forall (λ kv, ReadsValidNames kv.2) members) as Hmembers.
    { eapply Forall_impl; [exact IH|]. by intros kv [? _]. }
    split; [|done].
    assert (∀ o path n,
      Forall (λ kv, ReadsValidNames kv.2) o →
      readJsonObject o path = Some n → namesValid n = true) as Hobject.
    { intros o path n Ho Hread.
      apply readJsonObjectFrom_lookup in Hread as (ms & -> & _ & Hall & Hms).
      apply conforms_Object. intros name e He.
      apply Hms in He as [He|(key & w & Hin & <- & Hread)]; [done|].
      rewrite Forall_forall in Hall, Ho.
      destruct (Hall _ Hin) as (Hvalid & _ & _). split; [done|].
      eapply readDecorated_namesValid; [|exact Hread]. by apply (Ho _ Hin). }
    split; intros path n Hread.
    + by apply (Hobject members path n).
    + apply readDerivedObjectNode_inv in Hread
        as (bases & config & -> & [->|(c & Hvalue & Hread)]); [done|].
      destruct (json_value_elem members "config") as [k Hin]; [by rewrite Hvalue|].
      rewrite Hvalue in Hin. rewrite Forall_forall in Hmembers.
      destruct (Hmembers _ Hin) as [Hconfig _]. simpl in Hconfig.
      by apply (Hconfig path config).
Qed.

Lemma readConfigMember_namesValid (rootObject : QJsonObject) (configMember : ConfigNode) :
  readConfigMember rootObject = Done configMember → namesValid configMember = true.
Proof.
  unfold readConfigMember.
  destruct (Json.value rootObject "config") as [| | | | |o|]; simpl; try done.
  - by inversion 1; subst.
  - destruct (readJsonObject o "/") as [config|] eqn:Hread; [|done].
    inversion 1; subst.
    destruct (reader_namesValid (JObject o)) as [[Hvalue _] _].
    by apply (Hvalue "/").
Qed.

Section IncludesConform.

Variable nameOk : string → bool.
Variable derivedObjectOk : bool.
Variable read : string → string → string → string → Res ConfigNode.
Hypothesis read_conforms :
  ∀ filePath workingDir sourceNode destinationNode t,
    read filePath workingDir sourceNode destinationNode = Done t →
    conforms nameOk derivedObjectOk t = true.

Lemma readIncludesMember_conforms rootObject workingDir includesConfig :
  readIncludesMember read rootObject workingDir = Done includesConfig →
  conforms nameOk derivedObjectOk includesConfig = true.
Proof.
  unfold readIncludesMember. destruct (_ || _); [by inversion 1; subst|].
  destruct (Json.value rootObject "includes") as [| | | |includesArray| |]; try done.
  assert (conforms nameOk derivedObjectOk (Object ∅) = true) as Hstart by done.
  revert Hstart. generalize (Object ∅) at 1 2. generalize 0.
  induction includesArray as [|includeValue rest IH]; intros i config Hconfig; simpl.
  - by inversion 1; subst.
  - destruct (readInclude read workingDir i includeValue config) as [config'|] eqn:Hinc;
      simpl; try done.
    apply IH.
    apply readInclude_Done_Object in Hinc as (? & ? & ? & ? & c & _ & _ & Hread & Happ).
    eapply applyObject_conforms; [exact Happ|done|]. by eapply read_conforms.
Qed.

End IncludesConform.

Lemma read_namesValid this absoluteFilePath absoluteDir files (depth : nat) :
  ∀ filePath workingDir sourceNode destinationNode t,
    read this absoluteFilePath absoluteDir files depth filePath workingDir
      sourceNode destinationNode = Done t →
    namesValid t = true.
Proof.
  induction depth as [|depth IH];
    intros filePath workingDir sourceNode destinationNode t;
    [by intros ?%read_no_handle_Done|].
  cbn [read].
  destruct (_ || _); [done|]. destruct (_ || _); [done|].
  destruct (files _) as [| | |doc]; try done.
  destruct doc as [| | | | |rootObject|]; try done.
  destruct (readIncludesMember _ _ _) as [includesConfig|] eqn:Hinc; try done. simpl.
  destruct (readConfigMember rootObject) as [configMember|] eqn:Hcfg; try done. simpl.
  destruct (applyObject includesConfig configMember) as [merged|] eqn:Happ; try done.
  simpl. intros Hres.
  eapply (resolveAndTransform_conforms NodePath.validateNodeName true); [done|exact Hres|].
  eapply applyObject_conforms;
    [exact Happ| |exact (readConfigMember_namesValid _ _ Hcfg)].
  eapply readIncludesMember_conforms; [|exact Hinc]. exact IH.
Qed.

Lemma descend_namesValid (names : list string) :
  ∀ n v, descend names n = Some v → namesValid n = true →
         Forall (λ name, NodePath.validateNodeName name = true) names ∧ namesValid v = true.
Proof.
  induction names as [|name names IH]; intros n v Hv Hn; simpl in Hv.
  - inversion Hv; subst. by split.
  - destruct n as [| | |ms| | |]; try done. simpl in Hv.
    destruct (ms !! name) as [c|] eqn:Hc; [|done].
    apply conforms_Object in Hn. destruct (Hn name c Hc) as [Hname Hok].
    destruct (IH c v Hv Hok) as [Hnames Hvalid]. split; [by constructor|done].
Qed.

(** X15. Every member name in a loaded configuration is a valid node name.
    The reader gives trees in which all member names are valid, inside
    arrays, derived arrays and the overrides of derived objects as well; the
    merge of two such trees is such a tree; a pass of the resolver over such
    a tree, among ancestors that are such trees, leaves such a tree, whatever
    its outcome; and so is what [transformConfig] builds. So in the tree that
    a successful [read] returns every chain of member names leads through
    valid names only, whatever the files and their includes are. *)
Theorem loaded_member_names_are_valid :
  (∀ jsonValue currentNodePath n,
     readJsonValue jsonValue currentNodePath = Some n → namesValid n = true) ∧
  (∀ dst src merged,
     applyObject dst src = Some merged →
     namesValid dst = true → namesValid src = true → namesValid merged = true) ∧
  (∀ node ctx,
     Forall (frameConforms NodePath.validateNodeName true) ctx →
     namesValid node = true →
     namesValid (resolveReferences ctx node).2 = true) ∧
  (∀ this absoluteFilePath absoluteDir files depth
      filePath workingDir sourceNode destinationNode t,
     read this absoluteFilePath absoluteDir files depth filePath workingDir
       sourceNode destinationNode = Done t →
     namesValid t = true ∧
     ∀ names v, descend names t = Some v →
                Forall (λ name, NodePath.validateNodeName name = true) names).
Proof.
  split; [|split; [|split]].
  - intros jsonValue currentNodePath n.
    destruct (reader_namesValid jsonValue) as [[Hvalue _] _]. apply Hvalue.
  - intros dst src merged Happ. by apply applyObject_conforms.
  - intros node ctx. apply resolveReferences_conforms.
  - intros this absoluteFilePath absoluteDir files depth
      filePath workingDir sourceNode destinationNode t Hread.
    apply read_namesValid in Hread. split; [done|].
    intros names v Hv. by destruct (descend_namesValid names t v Hv Hread).
Qed.

Lemma loaded_member_names_are_valid_witness :
  namesValid (Object (<["m" := Doc.val 2]> (<["n" := Doc.val 7]> ∅))) = true.
Proof.
  destruct loaded_member_names_are_valid as (_ & _ & _ & Hread).
  destruct (Hread Impl_new Doc.sameDirectory Doc.noDirectory Doc.files 2
              "multi.json" "" "/d" "/"
              (Object (<["m" := Doc.val 2]> (<["n" := Doc.val 7]> ∅))))
    as [Hvalid _]; [vm_compute; reflexivity|].
  exact Hvalid.
Defined.

(** ** Without derived objects the resolution has no Error *)

Section PassNoError.

Variable resolve : list Frame → ConfigNode → ReferenceResolutionResult * ConfigNode.

Lemma resolveElements_no_Error frame ctx (todo : list ConfigNode) :
  Forall (NoErrorUnderParent resolve) todo →
  ∀ i result cur,
    result ≠ Error →
    (resolveElements resolve frame ctx todo i result cur).1 ≠ Error.
Proof.
  induction 1 as [|e todo He _ IH]; intros i result cur Hresult; simpl; [done|].
  specialize (He (frame cur i) ctx).
  destruct (resolve (frame cur i :: ctx) e) as [[] e']; simpl in *;
    try done; by apply IH.
Qed.

Lemma resolveMembers_no_Error ctx (ms m : ObjectNodeData) :
  map_Forall (λ _ c, NoErrorUnderParent resolve c) m →
  (map_fold (resolveMember resolve ctx) (Resolved, ms) m).1 ≠ Error.
Proof.
  apply (map_fold_weak_ind (λ st m,
    map_Forall (λ _ c, NoErrorUnderParent resolve c) m → st.1 ≠ Error)); [done|].
  clear m. intros i x m [res cur] Hi IH Hall.
  apply map_Forall_insert in Hall as [Hx Hall]; [|done].
  specialize (IH Hall). simpl in IH.
  specialize (Hx (MkFrame (Object cur) (InMember i)) ctx).
  unfold resolveMember. destruct res; [| |done];
    by destruct (resolve _ x) as [[] x'].
Qed.

End PassNoError.

Lemma resolveReferences_no_Error (node : ConfigNode) :
  noDerivedObject node = true →
  ∀ ctx, (ctx = [] → needsParent node = false) →
         (resolveReferences ctx node).1 ≠ Error.
Proof.
  unfold noDerivedObject.
  induction node as [|v|es IH|ms IH|r|es IH|bases config IH]
    using ConfigNode_nested_ind; intros Hnode ctx Hroot; try done.
  - cbn [resolveReferences]. unfold resolveArrayReferences.
    pose proof (resolveElements_no_Error resolveReferences
                  (λ cur i, MkFrame (Array cur) (InElement i)) ctx es) as Hloop.
    apply conforms_elements in Hnode.
    specialize (Hloop ltac:(rewrite Forall_forall in *; intros c Hc f ctx';
                            by apply IH; [|apply Hnode|]) 0 Resolved es ltac:(done)).
    by destruct (resolveElements _ _ _ _ _ _ _) as [result cur].
  - cbn [resolveReferences]. unfold resolveObjectReferences.
    pose proof (resolveMembers_no_Error resolveReferences ctx ms ms) as Hloop.
    apply conforms_Object in Hnode.
    specialize (Hloop ltac:(intros k c Hk f ctx'; apply (IH k c Hk);
                            [by apply (Hnode k c Hk)|done])).
    by destruct (map_fold _ _ ms) as [result cur].
  - cbn [resolveReferences]. unfold resolveNodeReference.
    destruct ctx as [|f ctx']; [by specialize (Hroot eq_refl)|].
    destruct (nodeAtPath _ _ _) as [target|]; [|done].
    simpl. by destruct (isFullyResolved _).
  - cbn [resolveReferences]. unfold resolveDerivedArrayReferences.
    destruct ctx as [|f ctx']; [by specialize (Hroot eq_refl)|].
    pose proof (resolveElements_no_Error resolveReferences
                  (λ cur i, MkFrame (DerivedArray cur) (InDerivedElement i))
                  (f :: ctx') es) as Hloop.
    apply conforms_elements in Hnode.
    specialize (Hloop ltac:(rewrite Forall_forall in *; intros c Hc f' ctx'';
                            by apply IH; [|apply Hnode|]) 0 Resolved es ltac:(done)).
    by destruct (resolveElements _ _ _ _ _ _ _) as [[] cur].
Qed.

Lemma fully_resolved_noDerivedObject (node : ConfigNode) :
  isFullyResolved node = true → noDerivedObject node = true.
Proof.
  unfold noDerivedObject.
  induction node as [|v|es IH|ms IH|r|es IH|bases config IH]
    using ConfigNode_nested_ind; intros Hfull; try done.
  - apply conforms_elements. apply isFullyResolved_Array in Hfull.
    rewrite Forall_forall in *. intros c Hc. by apply IH, Hfull.
  - apply conforms_Object. rewrite isFullyResolved_Object in Hfull.
    intros k c Hk. split; [done|]. by apply (IH k c Hk), (Hfull k c Hk).
Qed.

Lemma resolveCycles_no_Error (cycles : nat) :
  ∀ config,
    noDerivedObject config = true → isObject config = true →
    (resolveCycles cycles config).1.1 ≠ Error.
Proof.
  induction cycles as [|cycles IH]; intros config Hnone Hobj; [done|].
  simpl.
  pose proof (resolveReferences_no_Error config Hnone []) as Hpass.
  pose proof (resolveReferences_conforms (λ _, true) false config []
                (Forall_nil_2 _) Hnone) as Hkeeps.
  assert (isObject (resolveReferences [] config).2 = true) as Hobj'.
  { destruct config as [| | |ms| | |]; try done. simpl.
    unfold resolveObjectReferences. by destruct (map_fold _ _ ms). }
  destruct (resolveReferences [] config) as [[] config1]; simpl in *; try done.
  - specialize (IH config1 Hkeeps Hobj').
    by destruct (resolveCycles cycles config1) as [[result config2] passes].
  - apply Hpass. intros _. by destruct config.
Qed.

(** X16. Only a derived object can make the resolution fail outright. On a
    tree that holds no DerivedObject, a pass never answers [Error], provided
    the node has a parent or is not itself a reference or a derived array;
    and a pass leaves such a tree without DerivedObject. So the loop of
    [read] never ends with [Error] on an Object without DerivedObject: it
    ends with [Resolved], or runs out of cycles. A document whose [config]
    member is read to a tree without DerivedObject never fails with "failed
    to resolve references", whatever its includes are. *)
Theorem no_error_without_derived_objects :
  (∀ node ctx,
     noDerivedObject node = true →
     (ctx = [] → needsParent node = false) →
     (resolveReferences ctx node).1 ≠ Error ∧
     (Forall (frameConforms (λ _, true) false) ctx →
      noDerivedObject (resolveReferences ctx node).2 = true)) ∧
  (∀ this config sourceNode destinationNode,
     noDerivedObject config = true → isObject config = true →
     (resolveCycles (Z.to_nat (referenceResolutionMaxCycles this)) config).1.1 ≠ Error ∧
     resolveAndTransform this config sourceNode destinationNode ≠ Fail ResolveFailed) ∧
  (∀ this absoluteFilePath absoluteDir files depth
      filePath workingDir sourceNode destinationNode rootObject configMember,
     files (absoluteFilePath workingDir filePath) = FileDocument (JObject rootObject) →
     readConfigMember rootObject = Done configMember →
     noDerivedObject configMember = true →
     read this absoluteFilePath absoluteDir files depth filePath workingDir
       sourceNode destinationNode ≠ Fail ResolveFailed).
Proof.
  assert (∀ this config sourceNode destinationNode,
     noDerivedObject config = true → isObject config = true →
     (resolveCycles (Z.to_nat (referenceResolutionMaxCycles this)) config).1.1 ≠ Error ∧
     resolveAndTransform this config sourceNode destinationNode ≠ Fail ResolveFailed)
    as Hloop.
  { intros this config sourceNode destinationNode Hnone Hobj.
    pose proof (resolveCycles_no_Error
                  (Z.to_nat (referenceResolutionMaxCycles this)) config Hnone Hobj) as Hcycles.
    split; [done|]. unfold resolveAndTransform, referenceResolutionMaxCycles in *.
    destruct (resolveCycles _ config) as [[[] c] n]; simpl in *; try done.
    by destruct (transformConfig c sourceNode destinationNode). }
  split; [|split; [exact Hloop|]].
  - intros node ctx Hnone Hroot. split; [by apply resolveReferences_no_Error|].
    intros Hctx. by apply resolveReferences_conforms.
  - intros this absoluteFilePath absoluteDir files depth
      filePath workingDir sourceNode destinationNode rootObject configMember
      Hfile Hcfg Hnone.
    destruct depth as [|depth]; cbn [read];
      (destruct (_ || _); [done|]); (destruct (_ || _); [done|]);
      rewrite Hfile; [done|].
    destruct (readIncludesMember _ _ _) as [includesConfig|e] eqn:Hinc.
    2: { simpl. intros Heq. inversion Heq; subst e.
         unfold readIncludesMember in Hinc. destruct (_ || _); [done|].
         destruct (Json.value rootObject "includes") as [| | | |includesArray| |]; try done.
         apply readIncludesFrom_Fail in Hinc as (? & ? & ? & ? & _ & _ & Hinc).
         by apply readInclude_Fail_index in Hinc. }
    simpl. rewrite Hcfg. simpl.
    destruct (applyObject includesConfig configMember) as [merged|] eqn:Happ; [|done].
    simpl. apply Hloop; [|by eapply applyObject_isObject].
    eapply (applyObject_conforms (λ _, true) false); [exact Happ| |done].
    eapply (readIncludesMember_conforms (λ _, true) false); [|exact Hinc].
    intros f w s d t Hread. apply fully_resolved_noDerivedObject.
    apply read_resolveAndTransform in Hread as [m Hres].
    by eapply resolveAndTransform_fully_resolved.
Qed.

Lemma no_error_without_derived_objects_witness :
  ∃ result, Doc.load Impl_new "mutual.json" "/" "/" = result ∧
            result ≠ Fail ResolveFailed.
Proof.
  destruct no_error_without_derived_objects as (_ & _ & Hread).
  eexists. split; [reflexivity|].
  apply (Hread Impl_new Doc.sameDirectory Doc.noDirectory Doc.files 2
           "mutual.json" "" "/" "/"
           [("config", JObject [("&x", JString "/y"); ("&y", JString "/x")])]
           Doc.mutualTree); vm_compute; reflexivity.
Defined.

(** ** A file that includes itself *)

(** X18. There is no check for a loop of includes: a file whose first
    include is the file itself is opened again by each [read] of it, before
    anything else of the document is looked at, while the [read]s around it
    hold the file open. The nesting ends where no file can be opened any
    more: that [read] fails to open the file, and every [read] around it
    fails at its include 0, so the outermost one returns an error and no
    tree, however many files can be open. *)
Theorem self_include_has_no_result
    this absoluteFilePath absoluteDir files (path : string)
    (rootObject includeObject : QJsonObject) (includePath : string)
    (rest : list QJsonValue) :
  files path = FileDocument (JObject rootObject) →
  Json.value rootObject "includes" = JArray (JObject includeObject :: rest) →
  Json.contains includeObject "type" = false →
  Json.contains includeObject "file_path" = true →
  Json.value includeObject "file_path" = JString includePath →
  Json.contains includeObject "source_node" = false →
  Json.contains includeObject "destination_node" = false →
  absoluteFilePath (absoluteDir path) includePath = path →
  ∀ handles filePath workingDir sourceNode destinationNode,
    absoluteFilePath workingDir filePath = path →
    NodePath.isAbsoluteNodePath sourceNode = true →
    NodePath.validateNodePath sourceNode = true →
    NodePath.isAbsoluteNodePath destinationNode = true →
    NodePath.validateNodePath destinationNode = true →
    read this absoluteFilePath absoluteDir files handles filePath workingDir
      sourceNode destinationNode =
    Fail (match handles with 0 => FileOpenFailed | S _ => IncludeReadFailed 0 end).
Proof.
  intros Hfile Hincludes Htype Hcontains Hpath Hsource Hdest Hself handles.
  induction handles as [|handles IH];
    intros filePath workingDir sourceNode destinationNode Habs Hs1 Hs2 Hd1 Hd2;
    cbn [read]; rewrite Hs1, Hs2, Hd1, Hd2, Habs, Hfile; cbn [negb orb]; [done|].
  unfold readIncludesMember. rewrite Hincludes. cbn [Json.isNull Json.isUndefined orb].
  cbn [readIncludesFrom]. unfold readInclude, includeType. rewrite Htype. simpl.
  unfold readIncludeFile, includeNodePath.
  rewrite Hcontains, Hpath, Hsource, Hdest. simpl.
  by rewrite (IH includePath (absoluteDir path) "/" "/" Hself).
Qed.

Lemma self_include_has_no_result_witness :
  read Impl_new Doc.sameDirectory Doc.noDirectory
    (λ path, FileDocument (JObject [("includes", JArray [JObject [("file_path", JString "loop.json")]]);
                                    ("config", JObject [])]))
    50 "loop.json" "" "/" "/" = Fail (IncludeReadFailed 0).
Proof.
  apply (self_include_has_no_result Impl_new Doc.sameDirectory Doc.noDirectory
           (λ path, FileDocument (JObject [("includes", JArray [JObject [("file_path", JString "loop.json")]]);
                                           ("config", JObject [])]))
           "loop.json"
           [("includes", JArray [JObject [("file_path", JString "loop.json")]]);
            ("config", JObject [])]
           [("file_path", JString "loop.json")] "loop.json" [] eq_refl eq_refl eq_refl
           eq_refl eq_refl eq_refl eq_refl eq_refl 50 "loop.json" "" "/" "/");
    reflexivity.
Defined.

(** ** The outcome of a pass and the tree it leaves *)

Section PassUnresolved.

Variable resolve : list Frame → ConfigNode → ReferenceResolutionResult * ConfigNode.

Lemma resolveElements_Unresolved_left frame ctx (todo : list ConfigNode) :
  Forall (UnresolvedIsNotFull resolve) todo →
  ∀ i result cur cur',
    resolveElements resolve frame ctx todo i result cur = (Unresolved, cur') →
    length cur = i + length todo →
    (result = Unresolved →
     Exists (λ c, isFullyResolved c = false) (take i cur)) →
    Exists (λ c, isFullyResolved c = false) cur'.
Proof.
  induction 1 as [|e todo He _ IH]; intros i result cur cur' Heq Hlen Hdone;
    simpl in Heq, Hlen.
  - inversion Heq; subst. rewrite firstn_all2 in Hdone by lia. by apply Hdone.
  - assert (i < length cur) as Hi by lia.
    assert (∀ e', take (S i) (<[i := e']> cur) = take i cur ++ [e']) as Htake.
    { intros e'. rewrite (take_S_r _ _ e') by (by apply list_lookup_insert_eq).
      by rewrite take_insert_ge by lia. }
    destruct (resolve (frame cur i :: ctx) e) as [[] e'] eqn:Hres.
    + apply (IH _ _ _ _ Heq); [rewrite length_insert; lia|].
      intros Hresult. rewrite Htake. apply Exists_app. left. by apply Hdone.
    + apply (IH _ _ _ _ Heq); [rewrite length_insert; lia|].
      intros _. rewrite Htake. apply Exists_app. right.
      constructor. by eapply He.
    + by inversion Heq.
Qed.

Lemma resolveMembers_Unresolved_left ctx (ms m : ObjectNodeData) :
  map_Forall (λ _ c, UnresolvedIsNotFull resolve c) m →
  let st := map_fold (resolveMember resolve ctx) (Resolved, ms) m in
  st.1 = Unresolved →
  ∃ k c, is_Some (m !! k) ∧ st.2 !! k = Some c ∧ isFullyResolved c = false.
Proof.
  apply (map_fold_weak_ind (λ st m,
    map_Forall (λ _ c, UnresolvedIsNotFull resolve c) m →
    st.1 = Unresolved →
    ∃ k c, is_Some (m !! k) ∧ st.2 !! k = Some c ∧ isFullyResolved c = false));
    [done|].
  clear m. intros i x m [res cur] Hi IH Hall.
  apply map_Forall_insert in Hall as [Hx Hall]; [|done].
  specialize (IH Hall). simpl in IH.
  assert (∀ x', res = Unresolved →
    ∃ k c, is_Some (<[i := x]> m !! k) ∧ <[i := x']> cur !! k = Some c ∧
           isFullyResolved c = false) as Hkept.
  { intros x' Hres. destruct (IH Hres) as (k & c & Hk & Hc & Hfull).
    assert (k ≠ i) as Hne by (intros ->; rewrite Hi in Hk; by destruct Hk).
    exists k, c. by rewrite !lookup_insert_ne. }
  assert (∀ x', isFullyResolved x' = false →
    ∃ k c, is_Some (<[i := x]> m !! k) ∧ <[i := x']> cur !! k = Some c ∧
           isFullyResolved c = false) as Hnew.
  { intros x' Hfull. exists i, x'. rewrite !lookup_insert_eq. by eauto. }
  unfold resolveMember. destruct res.
  - destruct (resolve _ x) as [[] x'] eqn:Hres; simpl; try done.
    intros _. apply Hnew. by eapply Hx.
  - destruct (resolve _ x) as [[] x'] eqn:Hres; simpl; try done.
    + intros _. by apply Hkept.
    + intros _. by apply Hkept.
  - done.
Qed.

End PassUnresolved.

Lemma resolveReferences_Unresolved (node : ConfigNode) :
  ∀ ctx node',
    resolveReferences ctx node = (Unresolved, node') →
    isFullyResolved node' = false.
Proof.
  induction node as [|v|es IH|ms IH|r|es IH|bases config IH]
    using ConfigNode_nested_ind; intros ctx node' Heq; simpl in Heq; try done.
  - unfold resolveArrayReferences in Heq.
    destruct (resolveElements _ _ _ _ _ _ _) as [result cur] eqn:Hloop.
    inversion Heq; subst.
    apply (resolveElements_Unresolved_left resolveReferences) in Hloop;
      [|done|done|done].
    apply not_true_iff_false. intros Hfull. apply isFullyResolved_Array in Hfull.
    apply Exists_exists in Hloop as (c & Hc & Hnot).
    rewrite Forall_forall in Hfull. specialize (Hfull c Hc). congruence.
  - unfold resolveObjectReferences in Heq.
    pose proof (resolveMembers_Unresolved_left resolveReferences ctx ms ms IH) as Hloop.
    destruct (map_fold _ _ ms) as [result cur]. inversion Heq; subst. simpl in Hloop.
    destruct (Hloop eq_refl) as (k & c & _ & Hc & Hnot).
    apply not_true_iff_false. intros Hfull. rewrite isFullyResolved_Object in Hfull.
    specialize (Hfull k c Hc). simpl in Hfull. congruence.
  - unfold resolveNodeReference in Heq. destruct ctx as [|f ctx']; [done|].
    destruct (nodeAtPath _ _ _) as [target|]; [|by inversion Heq].
    destruct (isFullyResolved (clone target)) eqn:Hfull; [done|]. by inversion Heq; subst.
  - unfold resolveDerivedArrayReferences in Heq. destruct ctx as [|f ctx']; [done|].
    destruct (resolveElements _ _ _ _ _ _ _) as [[] cur]; by inversion Heq.
  - unfold resolveDerivedObjectReferences in Heq. destruct ctx as [|f ctx']; [done|].
    destruct (applyBases _ _ _ _) as [result|derived]; [by inversion Heq|].
    assert (∀ c, (applyOverride bases c derived).1 ≠ Unresolved) as Hoverride.
    { intros c. unfold applyOverride. destruct (negb (isNull c)); [|done].
      by destruct (applyObject derived c). }
    destruct (negb (isFullyResolved config)).
    + destruct (resolveReferences _ (clone config)) as [[] config'];
        [|by inversion Heq|done].
      exfalso. apply (Hoverride config'). by rewrite Heq.
    + exfalso. apply (Hoverride config). by rewrite Heq.
Qed.

(** X19. The outcome of a pass says exactly whether the tree is now fully
    resolved: a pass that answers [Resolved] leaves a tree of Null, Value,
    Array and Object nodes only, and a pass that answers [Unresolved] leaves
    a tree that still holds a reference, a derived array or a derived object.
    So the loop of [read] stops without error at the first pass that leaves
    the configuration fully resolved, and the trees between two passes are
    never fully resolved. *)
Theorem pass_outcome_is_exact :
  (∀ node ctx result node',
     resolveReferences ctx node = (result, node') →
     result ≠ Error →
     (result = Resolved ↔ isFullyResolved node' = true)) ∧
  (∀ k config config',
     afterUnresolved (S k) config = Some config' →
     isFullyResolved config = false ∧ isFullyResolved config' = false) ∧
  (∀ cycles config config' passes,
     resolveCycles cycles config = (Resolved, config', passes) →
     isFullyResolved config' = true ∧
     (isFullyResolved config = true → passes = 1 ∧ config' = config)).
Proof.
  split; [|split].
  - intros node ctx result node' Hpass Hresult. destruct result; [| |done].
    + split; [|done]. intros _. by eapply resolveReferences_Resolved.
    + split; [done|]. apply resolveReferences_Unresolved in Hpass. congruence.
  - intros k. induction k as [|k IH]; intros config config' Hafter.
    + simpl in Hafter.
      destruct (resolveReferences [] config) as [[] c1] eqn:Hpass; try done.
      inversion Hafter; subst c1. split; [|by eapply resolveReferences_Unresolved].
      apply not_true_iff_false. intros Hfull.
      rewrite (resolveReferences_stable config Hfull) in Hpass. done.
    + cbn [afterUnresolved] in Hafter.
      destruct (resolveReferences [] config) as [[] c1] eqn:Hpass; try done.
      split; [|by apply (IH c1)].
      apply not_true_iff_false. intros Hfull.
      rewrite (resolveReferences_stable config Hfull) in Hpass. done.
  - intros cycles config config' passes Hloop. split.
    + by eapply resolveCycles_Resolved.
    + intros Hfull. destruct cycles as [|cycles]; [done|]. simpl in Hloop.
      rewrite (resolveReferences_stable config Hfull) in Hloop. by inversion Hloop.
Qed.

Lemma pass_outcome_is_exact_witness :
  isFullyResolved Doc.mutualTree = false ∧ isFullyResolved Doc.mutualTree' = false.
Proof.
  destruct pass_outcome_is_exact as (_ & Hbetween & _).
  apply (Hbetween 0 Doc.mutualTree Doc.mutualTree'). vm_compute. reflexivity.
Defined.

(** ** Documents without references, and what the node paths of [read] do *)

Lemma applyObject_onto_nothing (d : ObjectNodeData) :
  applyObject (Object d) (Object ∅) = Some (Object d).
Proof. simpl. by rewrite map_fold_empty. Qed.

Lemma readJsonObject_resolved (o : QJsonObject) (path : string) (n : ConfigNode) :
  readJsonObject o path = Some n →
  hasReferenceMember (JObject o) = false →
  isFullyResolved n = true.
Proof.
  intros Hread Hnone.
  rewrite (readJsonValue_isFullyResolved (JObject o) path n Hread). by rewrite Hnone.
Qed.

(** X20. A document without includes whose [config] object has no key
    decorated with [&] loads as it is read: [read] returns the tree that
    [readJsonObject] makes of the [config] object at the path [/], moved by
    [transformConfig] as the source and destination say, after one pass of
    the resolver that changes nothing, under every cycle limit from 1 on.
    When [readJsonObject] cannot read the object, [read] fails with "failed
    to read the 'config' member". *)
Theorem plain_document_loads_as_read
    this absoluteFilePath absoluteDir files depth
    filePath workingDir sourceNode destinationNode rootObject o :
  NodePath.isAbsoluteNodePath sourceNode = true →
  NodePath.validateNodePath sourceNode = true →
  NodePath.isAbsoluteNodePath destinationNode = true →
  NodePath.validateNodePath destinationNode = true →
  files (absoluteFilePath workingDir filePath) = FileDocument (JObject rootObject) →
  Json.contains rootObject "includes" = false ∨
    Json.value rootObject "includes" = JNull ∨
    Json.value rootObject "includes" = JArray [] →
  Json.value rootObject "config" = JObject o →
  hasReferenceMember (JObject o) = false →
  (1 ≤ referenceResolutionMaxCycles this)%Z →
  read this absoluteFilePath absoluteDir files (S depth) filePath workingDir
    sourceNode destinationNode =
  match readJsonObject o "/" with
  | Some config =>
      orFail TransformFailed (transformConfig config sourceNode destinationNode)
  | None => Fail ConfigReadFailed
  end ∧
  (sourceNode = "/" → destinationNode = "/" →
   ∀ config, readJsonObject o "/" = Some config →
     read this absoluteFilePath absoluteDir files (S depth) filePath workingDir
       sourceNode destinationNode = Done config ∧
     resolveCycles (Z.to_nat (referenceResolutionMaxCycles this)) config
       = (Resolved, config, 1)).
Proof.
  intros Hs1 Hs2 Hd1 Hd2 Hfile Hincludes Hconfig Hnone Hmax.
  assert (readIncludesMember (read this absoluteFilePath absoluteDir files depth)
            rootObject (absoluteDir (absoluteFilePath workingDir filePath))
          = Done (Object ∅)) as Hinc.
  { unfold readIncludesMember.
    destruct Hincludes as [Habsent|[->| ->]]; [|done|done].
    by rewrite (value_absent _ _ Habsent). }
  assert (∀ config, readJsonObject o "/" = Some config →
    isFullyResolved config = true ∧
    resolveCycles (Z.to_nat (referenceResolutionMaxCycles this)) config
      = (Resolved, config, 1) ∧
    read this absoluteFilePath absoluteDir files (S depth) filePath workingDir
      sourceNode destinationNode =
    orFail TransformFailed (transformConfig config sourceNode destinationNode)) as Hloads.
  { intros config Hread.
    pose proof (readJsonObject_resolved o "/" config Hread Hnone) as Hfull.
    assert (resolveCycles (Z.to_nat (referenceResolutionMaxCycles this)) config
            = (Resolved, config, 1)) as Hcycles.
    { destruct (Z.to_nat (referenceResolutionMaxCycles this)) as [|cycles] eqn:Hn; [lia|].
      simpl. by rewrite (resolveReferences_stable config Hfull). }
    split; [done|]. split; [done|].
    rewrite (read_reaches_resolution _ _ _ _ _ _ _ _ _ rootObject (Object ∅) config config);
      try done.
    - unfold resolveAndTransform. unfold referenceResolutionMaxCycles in Hcycles.
      by rewrite Hcycles.
    - unfold readConfigMember. rewrite Hconfig. simpl. by rewrite Hread.
    - apply readJsonObjectFrom_Object in Hread as [ms ->]. apply applyObject_empty. }
  split.
  - destruct (readJsonObject o "/") as [config|] eqn:Hread.
    + by destruct (Hloads config eq_refl) as (_ & _ & ->).
    + rewrite (read_document _ _ _ _ _ _ _ _ _ rootObject) by done.
      rewrite Hinc. simpl. unfold readConfigMember. rewrite Hconfig. simpl.
      by rewrite Hread.
  - intros -> -> config Hread.
    destruct (Hloads config Hread) as (_ & Hcycles & ->). by split.
Qed.

Lemma plain_document_loads_as_read_witness :
  Doc.load Impl_new "plain.json" "/" "/" =
  Done (Object (<["a" := Doc.val 1]> {["b" := Object {["c" := Value (JString "x")]}]})).
Proof.
  destruct (plain_document_loads_as_read Impl_new Doc.sameDirectory Doc.noDirectory
              Doc.files 1 "plain.json" "" "/" "/"
              [("config", JObject [("a", Doc.num 1); ("b", JObject [("c", JString "x")])])]
              [("a", Doc.num 1); ("b", JObject [("c", JString "x")])])
    as [_ Hroot]; [reflexivity..|by left|reflexivity|reflexivity|vm_compute; discriminate|].
  destruct (Hroot eq_refl eq_refl
              (Object (<["a" := Doc.val 1]> {["b" := Object {["c" := Value (JString "x")]}]})))
    as [Hread _]; [vm_compute; reflexivity|].
  exact Hread.
Defined.

(** X21. The source and the destination of [read] take part in nothing but
    the last step. With absolute and valid node paths, [read] with a source
    and a destination is [read] of the whole file, from [/] to [/], followed
    by [transformConfig] of its result: the same files are read, the same
    includes merged and the same references resolved, and every failure other
    than that of the transformation is the same. With the source [/], the
    result is the configuration of the whole file inside one Object for each
    name of the destination. *)
Theorem read_paths_only_transform
    this absoluteFilePath absoluteDir files depth
    filePath workingDir sourceNode destinationNode :
  NodePath.isAbsoluteNodePath sourceNode = true →
  NodePath.validateNodePath sourceNode = true →
  NodePath.isAbsoluteNodePath destinationNode = true →
  NodePath.validateNodePath destinationNode = true →
  read this absoluteFilePath absoluteDir files depth filePath workingDir
    sourceNode destinationNode =
  (config ← read this absoluteFilePath absoluteDir files depth filePath workingDir "/" "/";
   orFail TransformFailed (transformConfig config sourceNode destinationNode)) ∧
  (sourceNode = "/" →
   read this absoluteFilePath absoluteDir files depth filePath workingDir
     sourceNode destinationNode =
   (config ← read this absoluteFilePath absoluteDir files depth filePath workingDir "/" "/";
    Done (nested (NodePath.segments destinationNode) config))).
Proof.
  intros Hs1 Hs2 Hd1 Hd2.
  assert (read this absoluteFilePath absoluteDir files depth filePath workingDir
            sourceNode destinationNode =
          (config ← read this absoluteFilePath absoluteDir files depth
                      filePath workingDir "/" "/";
           orFail TransformFailed (transformConfig config sourceNode destinationNode)))
    as Hread.
  { destruct depth as [|depth]; cbn [read];
      rewrite Hs1, Hs2, Hd1, Hd2; cbn [negb orb];
      change (NodePath.isAbsoluteNodePath "/") with true;
      change (NodePath.validateNodePath "/") with true; cbn [negb orb];
      [by destruct (files _) as [| | |[]]|].
    destruct (files _) as [| | |doc]; try done.
    destruct doc as [| | | | |rootObject|]; try done.
    destruct (readIncludesMember _ _ _) as [includesConfig|]; try done. simpl.
    destruct (readConfigMember rootObject) as [configMember|]; try done. simpl.
    destruct (applyObject includesConfig configMember) as [merged|]; try done. simpl.
    unfold resolveAndTransform.
    by destruct (resolveCycles _ merged) as [[[] config] passes]. }
  split; [exact Hread|].
  intros ->. rewrite Hread.
  destruct (read this absoluteFilePath absoluteDir files depth filePath workingDir "/" "/")
    as [config|]; try done.
  simpl.
  by rewrite (transformConfig_closed config "/" destinationNode Hd1 Hd2).
Qed.

Lemma read_paths_only_transform_witness :
  Doc.load Impl_new "multi.json" "/d" "/x" =
  (config ← Doc.load Impl_new "multi.json" "/" "/";
   orFail TransformFailed (transformConfig config "/d" "/x")).
Proof.
  destruct (read_paths_only_transform Impl_new Doc.sameDirectory Doc.noDirectory
              Doc.files 2 "multi.json" "" "/d" "/x") as [Hread _];
    [reflexivity|reflexivity|reflexivity|reflexivity|].
  exact Hread.
Defined.

(** ** A document that only includes one file *)

(** X22. A document with one include and an empty [config] object loads
    as the included file. The include is read with its own source and
    destination; when that gives an Object, the document's [read] from [/] to
    [/] returns that same tree: merging it onto the empty aggregate, merging
    the empty config onto it and a pass of the resolver change nothing. When
    the include gives a node that is not an Object (a source node moved to
    the destination [/]), the document cannot be loaded: "failed to apply
    config for include". *)
Theorem single_include_loads_included_file
    this absoluteFilePath absoluteDir files depth
    filePath workingDir rootObject includeObject
    includePath sourceNode destinationNode t :
  let path := absoluteFilePath workingDir filePath in
  files path = FileDocument (JObject rootObject) →
  Json.value rootObject "includes" = JArray [JObject includeObject] →
  Json.value rootObject "config" = JObject [] →
  includeType includeObject 0 = Done "CppConfigFramework" →
  Json.contains includeObject "file_path" = true →
  Json.value includeObject "file_path" = JString includePath →
  includeNodePath includeObject "source_node" (IncludeSourceNodeNotString 0)
    = Done sourceNode →
  includeNodePath includeObject "destination_node" (IncludeDestinationNodeNotString 0)
    = Done destinationNode →
  read this absoluteFilePath absoluteDir files depth includePath (absoluteDir path)
    sourceNode destinationNode = Done t →
  (1 ≤ referenceResolutionMaxCycles this)%Z →
  read this absoluteFilePath absoluteDir files (S depth) filePath workingDir "/" "/" =
  if isObject t then Done t else Fail (IncludeApplyFailed 0).
Proof.
  intros path Hfile Hincludes Hconfig Htype Hcontains Hpath Hsource Hdest Hread Hmax.
  assert (readIncludesMember (read this absoluteFilePath absoluteDir files depth)
            rootObject (absoluteDir path) =
          if isObject t then Done t else Fail (IncludeApplyFailed 0)) as Hinc.
  { unfold readIncludesMember. rewrite Hincludes. simpl.
    unfold readInclude. rewrite Htype. simpl.
    unfold readIncludeFile. rewrite Hcontains, Hpath, Hsource. simpl.
    rewrite Hdest. simpl. rewrite Hread. simpl.
    destruct t as [| | |ms| | |]; try done. by rewrite applyObject_empty. }
  assert (readConfigMember rootObject = Done (Object ∅)) as Hcfg.
  { unfold readConfigMember. by rewrite Hconfig. }
  rewrite (read_document _ _ _ _ _ _ _ _ _ rootObject) by done.
  fold path. rewrite Hinc.
  destruct t as [| | |ms| | |]; try done. simpl.
  rewrite Hcfg. simpl. rewrite map_fold_empty. simpl.
  assert (isFullyResolved (Object ms) = true) as Hfull.
  { apply read_resolveAndTransform in Hread as [merged Hres].
    by eapply resolveAndTransform_fully_resolved. }
  unfold resolveAndTransform. unfold referenceResolutionMaxCycles in Hmax.
  destruct (Z.to_nat (m_referenceResolutionMaxCycles this)) as [|cycles] eqn:Hn; [lia|].
  cbn [resolveCycles]. by rewrite (resolveReferences_stable _ Hfull).
Qed.

Lemma single_include_loads_included_file_witness :
  read Impl_new Doc.sameDirectory Doc.noDirectory
    (λ path, if String.eqb path "only.json"
             then FileDocument (JObject
                    [("includes", JArray [JObject [("file_path", JString "multi.json");
                                                   ("source_node", JString "/d");
                                                   ("destination_node", JString "/x")]]);
                     ("config", JObject [])])
             else Doc.files path)
    3 "only.json" "" "/" "/" =
  Done (Object {["x" := Object (<["m" := Doc.val 2]> (<["n" := Doc.val 7]> ∅))]}).
Proof.
  apply (single_include_loads_included_file Impl_new Doc.sameDirectory Doc.noDirectory
           (λ path, if String.eqb path "only.json"
             then FileDocument (JObject
                    [("includes", JArray [JObject [("file_path", JString "multi.json");
                                                   ("source_node", JString "/d");
                                                   ("destination_node", JString "/x")]]);
                     ("config", JObject [])])
             else Doc.files path)
           2 "only.json" ""
           [("includes", JArray [JObject [("file_path", JString "multi.json");
                                          ("source_node", JString "/d");
                                          ("destination_node", JString "/x")]]);
            ("config", JObject [])]
           [("file_path", JString "multi.json");
            ("source_node", JString "/d");
            ("destination_node", JString "/x")]
           "multi.json" "/d" "/x"
           (Object {["x" := Object (<["m" := Doc.val 2]> (<["n" := Doc.val 7]> ∅))]}));
    try reflexivity; vm_compute; first [reflexivity|discriminate].
Defined.

(** ** Derived arrays of resolved elements *)

(** X23. A derived array needs a parent and nothing else when its elements
    hold no reference: under any parent, a DerivedArray whose elements are
    all fully resolved becomes, in one pass that answers [Resolved], the
    Array of the same elements in the same order; as the root of a tree it is
    an Error and stays as it is. A derived array one of whose elements the
    pass leaves unresolved stays a DerivedArray, with the elements as the
    pass left them. *)
Theorem derived_array_of_resolved_elements (es : list ConfigNode) :
  resolveReferences [] (DerivedArray es) = (Error, DerivedArray es) ∧
  (Forall (λ e, isFullyResolved e = true) es →
   ∀ f ctx, resolveReferences (f :: ctx) (DerivedArray es) = (Resolved, Array es)) ∧
  (∀ f ctx node',
     resolveReferences (f :: ctx) (DerivedArray es) = (Unresolved, node') →
     ∃ es', node' = DerivedArray es' ∧ length es' = length es ∧
            Exists (λ e, isFullyResolved e = false) es').
Proof.
  split; [done|]. split.
  - intros Hes f ctx. cbn [resolveReferences]. unfold resolveDerivedArrayReferences.
    rewrite (resolveElements_stable resolveReferences); [|
      rewrite Forall_forall in *; intros e He ctx';
      by apply resolveReferences_stable, Hes|done].
    rewrite appendElement_foldl. done.
  - intros f ctx node'. cbn [resolveReferences]. unfold resolveDerivedArrayReferences.
    pose proof (resolveElements_length resolveReferences
                  (λ cur i, MkFrame (DerivedArray cur) (InDerivedElement i))
                  (f :: ctx) es 0 Resolved es) as Hlen.
    destruct (resolveElements _ _ _ _ _ _ _) as [[] cur] eqn:Hloop; try done.
    inversion 1; subst. exists cur. split; [done|]. split; [done|].
    eapply (resolveElements_Unresolved_left resolveReferences); [|exact Hloop|done|done].
    apply Forall_forall. intros e _ ctx' e'. apply resolveReferences_Unresolved.
Qed.

Lemma derived_array_of_resolved_elements_witness :
  resolveReferences [MkFrame (Object {["d" := Null]}) (InMember "d")]
    (DerivedArray [Doc.val 1; Array [Null]])
  = (Resolved, Array [Doc.val 1; Array [Null]]).
Proof.
  destruct (derived_array_of_resolved_elements [Doc.val 1; Array [Null]])
    as (_ & Hresolved & _).
  apply Hresolved. repeat constructor.
Defined.

(** ** References to resolved members of the root *)

Lemma append_cons (c : ascii) (s1 s2 : string) :
  String c s1 +:+ s2 = String c (s1 +:+ s2).
Proof. reflexivity. Qed.

Lemma append_String_assoc (cur : string) (c : ascii) (s : string) :
  (cur +:+ String c EmptyString) +:+ s = cur +:+ String c s.
Proof.
  induction cur as [|c' cur IH]; [done|]. by rewrite !append_cons, IH.
Qed.

Lemma append_empty (cur : string) : cur +:+ EmptyString = cur.
Proof. induction cur as [|c' cur IH]; [done|]. by rewrite append_cons, IH. Qed.

Lemma splitFrom_name (s : string) :
  NodePath.allNameChars s = true →
  ∀ cur, NodePath.splitFrom cur s = [cur +:+ s].
Proof.
  induction s as [|c s IH]; intros Hname cur; simpl.
  - by rewrite append_empty.
  - simpl in Hname. apply andb_true_iff in Hname as [Hc Hs].
    destruct (Ascii.eqb_spec c "/") as [->|_]; [done|].
    by rewrite (IH Hs), append_String_assoc.
Qed.

Lemma segments_of_name (name : string) :
  NodePath.validateNodeName name = true →
  NodePath.segments (String "/" name) = [name].
Proof.
  intros Hname. unfold NodePath.segments. simpl.
  destruct name as [|c name]; [done|].
  unfold NodePath.split. rewrite splitFrom_name; [done|].
  simpl in *. apply andb_true_iff in Hname as [Hc Hs].
  apply andb_true_iff. split; [|done].
  apply orb_true_iff in Hc as [Hc|Hc]; rewrite Hc; [done|].
  by rewrite !orb_true_r.
Qed.

(** X24. A reference to a fully resolved member of the root is resolved in
    the first pass, wherever the two members come in the order of the visit.
    In a root Object with a member that is a NodeReference to [/b], where
    [b] is a member holding a fully resolved node, a pass that does not
    answer Error leaves a copy of that node under the name of the reference
    and leaves the member [b] as it was. *)
Theorem reference_to_resolved_member (ms : ObjectNodeData) (a b : string)
    (t : ConfigNode) (result : ReferenceResolutionResult) (node' : ConfigNode) :
  ms !! a = Some (NodeReference (String "/" b)) →
  NodePath.validateNodeName b = true →
  ms !! b = Some t →
  isFullyResolved t = true →
  resolveReferences [] (Object ms) = (result, node') →
  result ≠ Error →
  member node' a = Some t ∧ member node' b = Some t.
Proof.
  intros Ha Hname Hb Hfull Hpass Hresult.
  assert (a ≠ b) as Hne.
  { intros ->. rewrite Ha in Hb. inversion Hb; subst t. done. }
  simpl in Hpass. unfold resolveObjectReferences in Hpass.
  assert (∀ m : ObjectNodeData,
    (∀ k c, m !! k = Some c → ms !! k = Some c) →
    let st := map_fold (resolveMember resolveReferences []) (Resolved, ms) m in
    st.1 ≠ Error →
    st.2 !! b = Some t ∧
    (st.2 !! a = Some t ∨
     (m !! a = None ∧ st.2 !! a = Some (NodeReference (String "/" b))))) as Hloop.
  { intros m. apply (map_fold_weak_ind (λ st m,
      (∀ k c, m !! k = Some c → ms !! k = Some c) →
      st.1 ≠ Error →
      st.2 !! b = Some t ∧
      (st.2 !! a = Some t ∨
       (m !! a = None ∧ st.2 !! a = Some (NodeReference (String "/" b)))))).
    { intros _ _. split; [done|]. right. by rewrite lookup_empty. }
    clear m. intros i x m [res cur] Hi IH Hsub. simpl in IH.
    assert (ms !! i = Some x) as Hx by (apply Hsub, lookup_insert_eq).
    assert (∀ k c, m !! k = Some c → ms !! k = Some c) as Hsub'.
    { intros k c Hk. apply Hsub. rewrite lookup_insert_ne; [done|].
      intros ->. by rewrite Hi in Hk. }
    specialize (IH Hsub').
    assert (res = Error ∨ res ≠ Error) as [->|Hres]
      by (destruct res; by eauto); [done|].
    destruct (IH Hres) as [Hcurb Hcura]. intros _.
    assert ((resolveMember resolveReferences [] i x (res, cur)).2 =
            <[i := (resolveReferences [MkFrame (Object cur) (InMember i)] x).2]> cur)
      as ->.
    { unfold resolveMember.
      destruct res; [| |done]; by destruct (resolveReferences _ x) as [[] x']. }
    destruct (decide (i = a)) as [->|Hia]; [|destruct (decide (i = b)) as [->|Hib]].
    - rewrite Ha in Hx. inversion Hx; subst x.
      assert ((resolveReferences [MkFrame (Object cur) (InMember a)]
                 (NodeReference (String "/" b))).2 = t) as ->.
      { cbn [resolveReferences]. unfold resolveNodeReference, nodeAtPath.
        cbn [NodePath.isAbsoluteNodePath Ascii.eqb Bool.eqb andb rootNode plug
             frameSlot frameNode].
        rewrite (segments_of_name b Hname). cbn [walk].
        rewrite (validateNodeName_not_up b Hname).
        rewrite lookup_insert_ne by done. rewrite Hcurb. unfold clone.
        by rewrite Hfull. }
      rewrite lookup_insert_ne by done. rewrite lookup_insert_eq. by eauto.
    - rewrite Hb in Hx. inversion Hx; subst x.
      rewrite (resolveReferences_stable t Hfull). simpl.
      rewrite lookup_insert_eq. split; [done|].
      rewrite !lookup_insert_ne by done.
      destruct Hcura as [?|[Hma ?]]; [by left|by right].
    - rewrite !lookup_insert_ne by done. split; [done|].
      destruct Hcura as [?|[Hma ?]]; [by left|by right]. }
  specialize (Hloop ms (λ k c H, H)).
  destruct (map_fold _ _ ms) as [res cur]. simpl in Hloop.
  inversion Hpass; subst. destruct (Hloop Hresult) as [Hcurb [Hcura|[Hnone _]]].
  - by split.
  - by rewrite Ha in Hnone.
Qed.

Lemma reference_to_resolved_member_witness :
  member (Object (<["a" := Doc.val 7]> {["b" := Doc.val 7]})) "a" = Some (Doc.val 7) ∧
  member (Object (<["a" := Doc.val 7]> {["b" := Doc.val 7]})) "b" = Some (Doc.val 7).
Proof.
  apply (reference_to_resolved_member
           (<["a" := NodeReference "/b"]> {["b" := Doc.val 7]}) "a" "b" (Doc.val 7) Resolved);
    try (vm_compute; reflexivity). discriminate.
Defined.
